(** * Slice desktop: query engine, waveform queue and import dialogs

    A shallow embedding of the logic found in the desktop front end
    ([apps/desktop/src/components/SampleBrowser.tsx],
    [apps/desktop/src/components/FolderTreeSelector.tsx] and the sounds
    route) together with the properties the specification states about it.

    Conventions of the embedding:
    - a JavaScript string is the sequence of its code units; code units are
      8-bit here, so the model covers strings of code units below 256;
    - [number] fields that hold integers (bpm, duration, ids) are [Z];
      array indices and lengths are [nat]; peak amplitudes are rationals;
      the index arithmetic of [downsample], which the source performs on
      IEEE-754 doubles, is performed on primitive binary64 floats;
    - [Set<string>] is [gset string]; a [Record<string, T>] used as a map is
      [gmap string T] (keys are ordinary property names; the accessor
      property [__proto__] of plain objects is not modelled); arrays are
      lists;
    - [null] and [undefined] are [None];
    - [Array.prototype.sort] is the stable insertion sort that the engines
      run on short arrays, steered only by the sign of the comparator;
    - React state is passed explicitly from render to render, and objects
      compared with [Object.is] carry their identity. *)

From Stdlib Require Import ZArith QArith Floats Uint63 Ascii String List Lia.
From stdpp Require Import gmap strings list.

#[local] Set Warnings "-clear-no-such-hyp".

Local Open Scope string_scope.
Local Open Scope nat_scope.
Local Open Scope list_scope.

(** ** String primitives of the runtime *)

Module Str.

(** [a.startsWith(b)] *)
Definition startsWith (a b : string) : bool := String.prefix b a.

(** [a.includes(b)]: [b] occurs in [a] as a contiguous block. *)
Fixpoint includes (a b : string) : bool :=
  startsWith a b ||
  match a with
  | EmptyString => false
  | String _ a' => includes a' b
  end.

(** [s.split(sep)] for a one-character separator. *)
Fixpoint split (sep : ascii) (s : string) : list string :=
  match s with
  | EmptyString => [EmptyString]
  | String c s' =>
      if Ascii.eqb c sep then EmptyString :: split sep s'
      else match split sep s' with
           | h :: t => String c h :: t
           | [] => [String c EmptyString]
           end
  end.

(** White space in the sense of [String.prototype.trim], among the code
    units below 256: TAB, LF, VT, FF, CR, SPACE and NBSP. *)
Definition isWhiteSpace (c : ascii) : bool :=
  match N_of_ascii c with
  | 9%N | 10%N | 11%N | 12%N | 13%N | 32%N | 160%N => true
  | _ => false
  end.

Fixpoint trimStart (s : string) : string :=
  match s with
  | String c s' => if isWhiteSpace c then trimStart s' else s
  | EmptyString => EmptyString
  end.

Fixpoint trimEnd (s : string) : string :=
  match s with
  | EmptyString => EmptyString
  | String c s' =>
      match trimEnd s' with
      | EmptyString => if isWhiteSpace c then EmptyString else String c EmptyString
      | r => String c r
      end
  end.

(** [s.trim()] *)
Definition trim (s : string) : string := trimEnd (trimStart s).

(** [!!s] for [s : string | null]: neither [null] nor the empty string. *)
Definition truthy (o : option string) : bool :=
  match o with
  | Some s => negb (String.eqb s "")
  | None => false
  end.

(** [a || b] on [string | null] operands. *)
Definition or_else (a b : option string) : option string :=
  if truthy a then a else b.

(** [a || ""] *)
Definition or_empty (a : option string) : string :=
  match or_else a (Some "") with
  | Some s => s
  | None => ""
  end.

End Str.

(** [String.prototype.toLowerCase], [toUpperCase] (Unicode case tables) and
    [localeCompare] (locale collation) belong to the runtime, not to the
    program: the development is parametric in them. *)
Class StringRuntime := {
  toLowerCase : string -> string;
  toUpperCase : string -> string;
  localeCompare : string -> string -> Z
}.

(** An instance for concrete runs: case mapping of the letters A-Z / a-z and
    code-unit order as collation. *)
Module AsciiRuntime.

Definition lower_char (c : ascii) : ascii :=
  let n := N_of_ascii c in
  if (65 <=? n)%N && (n <=? 90)%N then ascii_of_N (n + 32) else c.

Definition upper_char (c : ascii) : ascii :=
  let n := N_of_ascii c in
  if (97 <=? n)%N && (n <=? 122)%N then ascii_of_N (n - 32) else c.

Fixpoint map_string (f : ascii -> ascii) (s : string) : string :=
  match s with
  | EmptyString => EmptyString
  | String c s' => String (f c) (map_string f s')
  end.

Definition compare_units (a b : string) : Z :=
  match String.compare a b with
  | Lt => (-1)%Z
  | Eq => 0%Z
  | Gt => 1%Z
  end.

#[export] Instance ascii_runtime : StringRuntime := {|
  toLowerCase := map_string lower_char;
  toUpperCase := map_string upper_char;
  localeCompare := compare_units
|}.

End AsciiRuntime.

(** ** Data model ([types]) *)

Record Sample := {
  id : Z;
  local_path : string;
  filename : string;
  audio_key : option string;
  bpm : option Z;
  chord_type : option string;
  duration : option Z;
  genre : option string;
  sample_type : option string;
  tags : option string;
  pack_uuid : option string;
  pack_name : option string;
  pack_genre : option string;
  created_at : option string
}.

Inductive SampleType := TypeAll | TypeOneshot | TypeLoop.
Inductive SortBy := ByFilename | ByBpm | ByDuration | ByRecent | ByShuffle.
Inductive SortDir := Asc | Desc.

Definition SampleType_str (t : SampleType) : string :=
  match t with
  | TypeAll => "all"
  | TypeOneshot => "oneshot"
  | TypeLoop => "loop"
  end.

Record BpmRange := { range_min : Z; range_max : Z }.

Record PackConflict := {
  name : string;
  existing_uuid : string;
  existing_sample_count : Z
}.

(** ** SampleBrowser: filters *)

Section Filters.
Context {rt : StringRuntime}.

(** [formatKey(audioKey, chordType)] *)
Definition formatKey (audioKey chordType : option string) : option string :=
  match audioKey with
  | None => None
  | Some EmptyString => None
  | Some (String c rest) =>
      let k := String.append (toUpperCase (String c EmptyString)) rest in
      match chordType with
      | Some ct => if String.eqb ct "minor" then Some (String.append k "m") else Some k
      | None => Some k
      end
  end.

(** The comma-separated tag list of a sample:
    [s.tags.split(",").map((t) => t.trim())]. *)
Definition tagList (raw : string) : list string :=
  map Str.trim (Str.split "," raw).

(** The predicate of the free-text stage; [q] is the lowercased query. *)
Definition textPred (q : string) (s : Sample) : bool :=
  Str.includes (toLowerCase (filename s)) q
  || Str.includes (toLowerCase (Str.or_empty (pack_name s))) q
  || Str.includes (toLowerCase (Str.or_empty (tags s))) q.

Definition genrePred (selectedGenres : gset string) (s : Sample) : bool :=
  match Str.or_else (genre s) (pack_genre s) with
  | Some g => bool_decide (g ∈ selectedGenres)
  | None => false
  end.

Definition bpmPred (r : BpmRange) (s : Sample) : bool :=
  match bpm s with
  | Some b => (range_min r <=? b)%Z && (b <=? range_max r)%Z
  | None => false
  end.

Definition keyPred (selectedKeys : gset string) (s : Sample) : bool :=
  match formatKey (audio_key s) (chord_type s) with
  | Some k => bool_decide (k ∈ selectedKeys)
  | None => false
  end.

Definition typePred (sampleType : SampleType) (s : Sample) : bool :=
  match sample_type s with
  | Some t => String.eqb t (SampleType_str sampleType)
  | None => false
  end.

(** The callback shared by the instrument and the include-tag stages. *)
Definition someTagIn (sel : gset string) (s : Sample) : bool :=
  if negb (Str.truthy (tags s)) then false
  else
    let st := tagList (Str.or_empty (tags s)) in
    existsb (fun t => bool_decide (t ∈ sel)) st.

(** The callback of the exclude-tag stage. *)
Definition noTagIn (sel : gset string) (s : Sample) : bool :=
  if negb (Str.truthy (tags s)) then true
  else
    let st := tagList (Str.or_empty (tags s)) in
    negb (existsb (fun t => bool_decide (t ∈ sel)) st).

Definition applyFilters
    (samples : list Sample)
    (selectedGenres : gset string)
    (bpmRange : option BpmRange)
    (selectedKeys : gset string)
    (sampleType : SampleType)
    (selectedInstruments includeTags excludeTags : gset string)
    (query : string) : list Sample :=
  let r := samples in
  let r := if 2 <=? String.length query
           then List.filter (textPred (toLowerCase query)) r else r in
  let r := if 0 <? size selectedGenres
           then List.filter (genrePred selectedGenres) r else r in
  let r := match bpmRange with
           | Some range => List.filter (bpmPred range) r
           | None => r
           end in
  let r := if negb (size selectedKeys =? 0)
           then List.filter (keyPred selectedKeys) r else r in
  let r := match sampleType with
           | TypeAll => r
           | _ => List.filter (typePred sampleType) r
           end in
  let r := if 0 <? size selectedInstruments
           then List.filter (someTagIn selectedInstruments) r else r in
  let r := if 0 <? size includeTags
           then List.filter (someTagIn includeTags) r else r in
  let r := if 0 <? size excludeTags
           then List.filter (noTagIn excludeTags) r else r in
  r.

(** One Boolean per category: [true] when the category is inactive,
    otherwise the category's predicate. *)
Definition passText (query : string) (s : Sample) : bool :=
  if 2 <=? String.length query then textPred (toLowerCase query) s else true.
Definition passGenre (sel : gset string) (s : Sample) : bool :=
  if 0 <? size sel then genrePred sel s else true.
Definition passBpm (r : option BpmRange) (s : Sample) : bool :=
  match r with Some range => bpmPred range s | None => true end.
Definition passKey (sel : gset string) (s : Sample) : bool :=
  if negb (size sel =? 0) then keyPred sel s else true.
Definition passType (t : SampleType) (s : Sample) : bool :=
  match t with TypeAll => true | _ => typePred t s end.
Definition passSomeTag (sel : gset string) (s : Sample) : bool :=
  if 0 <? size sel then someTagIn sel s else true.
Definition passNoTag (sel : gset string) (s : Sample) : bool :=
  if 0 <? size sel then noTagIn sel s else true.

(** A sample passes when every category lets it through. *)
Definition passesAll (selectedGenres : gset string) (bpmRange : option BpmRange)
    (selectedKeys : gset string) (sampleType : SampleType)
    (selectedInstruments includeTags excludeTags : gset string)
    (query : string) (s : Sample) : bool :=
  passText query s && passGenre selectedGenres s && passBpm bpmRange s
  && passKey selectedKeys s && passType sampleType s
  && passSomeTag selectedInstruments s && passSomeTag includeTags s
  && passNoTag excludeTags s.

End Filters.

(** ** SampleBrowser: sorting *)

(** [Array.prototype.sort(compareFn)]: a stable insertion sort steered by
    the sign of [compareFn], the way the engines sort short arrays. An
    element is placed in front of the first element it compares below. *)
Section ArraySort.
Context {A : Type} (compareFn : A -> A -> Z).

Fixpoint insert_sorted (x : A) (sorted : list A) : list A :=
  match sorted with
  | [] => [x]
  | y :: rest =>
      if (compareFn x y <? 0)%Z then x :: y :: rest
      else y :: insert_sorted x rest
  end.

Definition array_sort (l : list A) : list A :=
  fold_left (fun acc x => insert_sorted x acc) l [].

End ArraySort.

(** [[arr[i], arr[j]] = [arr[j], arr[i]]] *)
Definition swap {A} (arr : list A) (i j : nat) : list A :=
  match arr !! i, arr !! j with
  | Some x, Some y => <[j:=x]> (<[i:=y]> arr)
  | _, _ => arr
  end.

(** The shuffle loop, for [i] from [n] down to 1; [draw i] stands for
    [Math.floor(Math.random() * (i + 1))] at loop index [i]. *)
Fixpoint shuffle_from {A} (draw : nat -> nat) (n : nat) (arr : list A) : list A :=
  match n with
  | 0 => arr
  | S n' => shuffle_from draw n' (swap arr n (draw n mod (n + 1)))
  end.

Section Sorting.
Context {rt : StringRuntime}.

Definition dirSign (sortDir : SortDir) : Z :=
  match sortDir with Desc => (-1)%Z | Asc => 1%Z end.

Definition compareBpm (dir : Z) (a b : Sample) : Z :=
  match bpm a, bpm b with
  | None, _ => 1%Z
  | Some _, None => (-1)%Z
  | Some x, Some y => ((x - y) * dir)%Z
  end.

Definition compareDuration (dir : Z) (a b : Sample) : Z :=
  match duration a, duration b with
  | None, _ => 1%Z
  | Some _, None => (-1)%Z
  | Some x, Some y => ((x - y) * dir)%Z
  end.

Definition compareRecent (dir : Z) (a b : Sample) : Z :=
  let aDate := Str.or_empty (created_at a) in
  let bDate := Str.or_empty (created_at b) in
  (localeCompare bDate aDate * dir)%Z.

Definition compareFilename (dir : Z) (a b : Sample) : Z :=
  (localeCompare (filename a) (filename b) * dir)%Z.

Definition sortSamples (draw : nat -> nat)
    (samples : list Sample) (sortBy : SortBy) (sortDir : SortDir) : list Sample :=
  match sortBy with
  | ByShuffle => shuffle_from draw (length samples - 1) samples
  | _ =>
      let dir := dirSign sortDir in
      match sortBy with
      | ByBpm => array_sort (compareBpm dir) samples
      | ByDuration => array_sort (compareDuration dir) samples
      | ByRecent => array_sort (compareRecent dir) samples
      | _ => array_sort (compareFilename dir) samples
      end
  end.

End Sorting.

(** ** SampleBrowser: pagination *)

Definition PAGE_SIZE : nat := 50.

(** [arr.slice(from, to)] for indices within the naturals. *)
Definition slice {A} (arr : list A) (from to : nat) : list A :=
  firstn (to - from) (skipn from arr).

Definition displayed (sorted : list Sample) (page : nat) : list Sample :=
  slice sorted (page * PAGE_SIZE) ((page + 1) * PAGE_SIZE).

(** [Math.max(1, Math.ceil(sorted.length / PAGE_SIZE))] *)
Definition totalPages (sorted : list Sample) : nat :=
  Nat.max 1 ((length sorted + PAGE_SIZE - 1) / PAGE_SIZE).

(** ** SampleBrowser: the page index across renders

    The page index lives in component state and is reset by an effect whose
    dependency list is compared with [Object.is]; what the effect sees
    therefore depends on the identity of the memoised objects. Objects
    carry their identity explicitly: an array received through the props
    has the identity its owner gave it, an object the component creates
    during a render has a fresh one. *)

Inductive RefId := FromProps (n : nat) | Allocated (n : nat).

Record Obj (A : Type) := MkObj { ref : RefId; val : A }.
Arguments MkObj {A} _ _.
Arguments ref {A} _.
Arguments val {A} _.

(** An array of the props. *)
Record Arr (A : Type) := MkArr { arr_id : nat; items : list A }.
Arguments MkArr {A} _ _.
Arguments arr_id {A} _.
Arguments items {A} _.

Definition ref_of {A} (a : Arr A) : RefId := FromProps (arr_id a).

Record SampleFilterSearch := {
  q : option string;
  genres : option (Arr string);
  instruments : option (Arr string);
  bpmMin : option Z;
  bpmMax : option Z;
  keys : option (Arr string);
  type : option SampleType;
  include : option (Arr string);
  exclude : option (Arr string);
  sortBy : option SortBy;
  sortDir : option SortDir
}.

Record Props := {
  samples : Arr Sample;
  filters : SampleFilterSearch
}.

#[export] Instance RefId_eq_dec : EqDecision RefId.
Proof. solve_decision. Defined.
#[export] Instance SampleType_eq_dec : EqDecision SampleType.
Proof. solve_decision. Defined.
#[export] Instance SortBy_eq_dec : EqDecision SortBy.
Proof. solve_decision. Defined.
#[export] Instance SortDir_eq_dec : EqDecision SortDir.
Proof. solve_decision. Defined.

(** A [useMemo] cell: the dependencies of the last computation and its
    value. The factory may allocate objects; [alloc] is the next unused
    identity. *)
Definition useMemo {D V : Type} `{EqDecision D}
    (cell : option (D * V)) (deps : D) (factory : nat -> V * nat)
    (alloc : nat) : (D * V) * nat :=
  match cell with
  | Some (d, v) =>
      if decide (d = deps) then ((d, v), alloc)
      else let '(v', alloc') := factory alloc in ((deps, v'), alloc')
  | None => let '(v', alloc') := factory alloc in ((deps, v'), alloc')
  end.

(** [new Set(arr || [])] *)
Definition newSet (arr : option (Arr string)) (alloc : nat)
    : Obj (gset string) * nat :=
  (MkObj (Allocated alloc) (list_to_set (default [] (items <$> arr))), S alloc).

(** The factory of the [bpmRange] memo: an object when both bounds are
    present, [null] otherwise. *)
Definition newBpmRange (lo hi : option Z) (alloc : nat)
    : option (Obj BpmRange) * nat :=
  match lo, hi with
  | Some a, Some b =>
      (Some (MkObj (Allocated alloc) {| range_min := a; range_max := b |}), S alloc)
  | _, _ => (None, alloc)
  end.

(** Whether at least one stage of [applyFilters] runs, that is, whether the
    result is a new array and not the [samples] argument itself. *)
Definition anyStage (selectedGenres : gset string) (bpmRange : option BpmRange)
    (selectedKeys : gset string) (sampleType : SampleType)
    (selectedInstruments includeTags excludeTags : gset string)
    (query : string) : bool :=
  (2 <=? String.length query)
  || (0 <? size selectedGenres)
  || bool_decide (is_Some bpmRange)
  || negb (size selectedKeys =? 0)
  || negb (bool_decide (sampleType = TypeAll))
  || (0 <? size selectedInstruments)
  || (0 <? size includeTags)
  || (0 <? size excludeTags).

Section Component.
Context {rt : StringRuntime}.

(** [applyFilters] on array objects: [Array.prototype.filter] returns a new
    array, and with no stage the argument is returned as it is. *)
Definition applyFiltersObj (samples : Arr Sample)
    (selectedGenres : gset string) (bpmRange : option BpmRange)
    (selectedKeys : gset string) (sampleType : SampleType)
    (selectedInstruments includeTags excludeTags : gset string)
    (query : string) (alloc : nat) : Obj (list Sample) * nat :=
  if anyStage selectedGenres bpmRange selectedKeys sampleType
       selectedInstruments includeTags excludeTags query
  then (MkObj (Allocated alloc)
          (applyFilters (items samples) selectedGenres bpmRange selectedKeys
             sampleType selectedInstruments includeTags excludeTags query),
        S alloc)
  else (MkObj (ref_of samples) (items samples), alloc).

(** Dependencies of the [filtered] memo, by identity for objects and by
    value for primitives, in the order of the source. *)
Definition FilteredDeps : Type :=
  RefId * RefId * option RefId * RefId * SampleType * RefId * RefId * RefId * string.

Record Hooks := {
  page : nat;
  shuffleSeed : nat;
  memo_selectedGenres : option (option RefId * Obj (gset string));
  memo_selectedInstruments : option (option RefId * Obj (gset string));
  memo_bpmRange : option ((option Z * option Z) * option (Obj BpmRange));
  memo_selectedKeys : option (option RefId * Obj (gset string));
  memo_includeTags : option (option RefId * Obj (gset string));
  memo_excludeTags : option (option RefId * Obj (gset string));
  memo_filtered : option (FilteredDeps * Obj (list Sample));
  (** dependencies [filtered, sortBy, shuffleSeed] the page-reset effect
      last ran with *)
  effect_deps : option (RefId * SortBy * nat);
  next_alloc : nat
}.

Definition mount : Hooks := {|
  page := 0;
  shuffleSeed := 0;
  memo_selectedGenres := None;
  memo_selectedInstruments := None;
  memo_bpmRange := None;
  memo_selectedKeys := None;
  memo_includeTags := None;
  memo_excludeTags := None;
  memo_filtered := None;
  effect_deps := None;
  next_alloc := 0
|}.

(** One render of the component with props [p], followed by its effects. *)
Definition render (p : Props) (h : Hooks) : Hooks :=
  let f := filters p in
  let a := next_alloc h in
  let query := default "" (q f) in
  let '(cGenres, a) :=
    useMemo (memo_selectedGenres h) (ref_of <$> genres f) (newSet (genres f)) a in
  let '(cInstruments, a) :=
    useMemo (memo_selectedInstruments h) (ref_of <$> instruments f)
      (newSet (instruments f)) a in
  let '(cBpm, a) :=
    useMemo (memo_bpmRange h) (bpmMin f, bpmMax f)
      (newBpmRange (bpmMin f) (bpmMax f)) a in
  let '(cKeys, a) :=
    useMemo (memo_selectedKeys h) (ref_of <$> keys f) (newSet (keys f)) a in
  let sampleType := default TypeAll (type f) in
  let '(cInclude, a) :=
    useMemo (memo_includeTags h) (ref_of <$> include f) (newSet (include f)) a in
  let '(cExclude, a) :=
    useMemo (memo_excludeTags h) (ref_of <$> exclude f) (newSet (exclude f)) a in
  let sortBy := default ByFilename (sortBy f) in
  let deps : FilteredDeps :=
    (ref_of (samples p), ref (snd cGenres), ref <$> snd cBpm, ref (snd cKeys),
     sampleType, ref (snd cInstruments), ref (snd cInclude), ref (snd cExclude),
     query) in
  let '(cFiltered, a) :=
    useMemo (memo_filtered h) deps
      (applyFiltersObj (samples p) (val (snd cGenres)) (val <$> snd cBpm)
         (val (snd cKeys)) sampleType (val (snd cInstruments))
         (val (snd cInclude)) (val (snd cExclude)) query) a in
  let edeps := (ref (snd cFiltered), sortBy, shuffleSeed h) in
  let page' :=
    if decide (effect_deps h = Some edeps) then page h else 0 in
  {| page := page';
     shuffleSeed := shuffleSeed h;
     memo_selectedGenres := Some cGenres;
     memo_selectedInstruments := Some cInstruments;
     memo_bpmRange := Some cBpm;
     memo_selectedKeys := Some cKeys;
     memo_includeTags := Some cInclude;
     memo_excludeTags := Some cExclude;
     memo_filtered := Some cFiltered;
     effect_deps := Some edeps;
     next_alloc := a |}.

(** [setPage(n)] *)
Definition setPage (n : nat) (h : Hooks) : Hooks :=
  {| page := n;
     shuffleSeed := shuffleSeed h;
     memo_selectedGenres := memo_selectedGenres h;
     memo_selectedInstruments := memo_selectedInstruments h;
     memo_bpmRange := memo_bpmRange h;
     memo_selectedKeys := memo_selectedKeys h;
     memo_includeTags := memo_includeTags h;
     memo_excludeTags := memo_excludeTags h;
     memo_filtered := memo_filtered h;
     effect_deps := effect_deps h;
     next_alloc := next_alloc h |}.

(** [setShuffleSeed((s) => s + 1)] *)
Definition bumpShuffleSeed (h : Hooks) : Hooks :=
  {| page := page h;
     shuffleSeed := S (shuffleSeed h);
     memo_selectedGenres := memo_selectedGenres h;
     memo_selectedInstruments := memo_selectedInstruments h;
     memo_bpmRange := memo_bpmRange h;
     memo_selectedKeys := memo_selectedKeys h;
     memo_includeTags := memo_includeTags h;
     memo_excludeTags := memo_excludeTags h;
     memo_filtered := memo_filtered h;
     effect_deps := effect_deps h;
     next_alloc := next_alloc h |}.

(** What happens to a mounted browser: the parent passes props (new or the
    same), the user picks a page, or asks for a reshuffle. Every state
    update is followed by a render with the props in force. *)
Inductive Event :=
| NewProps (p : Props)
| PickPage (n : nat)
| Reshuffle.

Definition handle (e : Event) (st : Props * Hooks) : Props * Hooks :=
  let '(p, h) := st in
  match e with
  | NewProps p' => (p', render p' h)
  | PickPage n => (p, render p (setPage n h))
  | Reshuffle => (p, render p (bumpShuffleSeed h))
  end.

Definition run (p0 : Props) (es : list Event) : Props * Hooks :=
  fold_left (fun st e => handle e st) es (p0, render p0 mount).

(** The memoised [filtered] array of a rendered component. *)
Definition filteredOf (h : Hooks) : option (Obj (list Sample)) :=
  snd <$> memo_filtered h.

End Component.

(** ** SoundsPage: how a filter update becomes the next [filters] prop *)

(** [Partial<SampleFilterSearch>]: a key may be missing ([None]) or present,
    possibly with the value [undefined] ([Some None]). *)
Record PartialSearch := {
  set_q : option (option string);
  set_genres : option (option (Arr string));
  set_instruments : option (option (Arr string));
  set_bpmMin : option (option Z);
  set_bpmMax : option (option Z);
  set_keys : option (option (Arr string));
  set_type : option (option SampleType);
  set_include : option (option (Arr string));
  set_exclude : option (option (Arr string));
  set_sortBy : option (option SortBy);
  set_sortDir : option (option SortDir)
}.

Definition noUpdates : PartialSearch := {|
  set_q := None; set_genres := None; set_instruments := None;
  set_bpmMin := None; set_bpmMax := None; set_keys := None; set_type := None;
  set_include := None; set_exclude := None; set_sortBy := None;
  set_sortDir := None
|}.

(** One key of [{ ...prev, ...updates }] *)
Definition spread {A} (prev : option A) (upd : option (option A)) : option A :=
  match upd with
  | Some v => v
  | None => prev
  end.

(** [arr?.length] is truthy *)
Definition nonEmptyArr (arr : option (Arr string)) : option (Arr string) :=
  match arr with
  | Some o => if length (items o) =? 0 then None else Some o
  | None => None
  end.

Definition cleanSampleSearch (prev : SampleFilterSearch) (updates : PartialSearch)
    : SampleFilterSearch :=
  {| q := (let n := spread (q prev) (set_q updates) in
           if Str.truthy n then n else None);
     genres := nonEmptyArr (spread (genres prev) (set_genres updates));
     instruments := nonEmptyArr (spread (instruments prev) (set_instruments updates));
     bpmMin := spread (bpmMin prev) (set_bpmMin updates);
     bpmMax := spread (bpmMax prev) (set_bpmMax updates);
     keys := nonEmptyArr (spread (keys prev) (set_keys updates));
     type := match spread (type prev) (set_type updates) with
             | Some TypeAll => None
             | t => t
             end;
     include := nonEmptyArr (spread (include prev) (set_include updates));
     exclude := nonEmptyArr (spread (exclude prev) (set_exclude updates));
     sortBy := match spread (sortBy prev) (set_sortBy updates) with
               | Some ByFilename => None
               | s => s
               end;
     sortDir := match spread (sortDir prev) (set_sortDir updates) with
                | Some Desc => Some Desc
                | _ => None
                end |}.

Definition emptySearch : SampleFilterSearch := {|
  q := None; genres := None; instruments := None; bpmMin := None;
  bpmMax := None; keys := None; type := None; include := None;
  exclude := None; sortBy := None; sortDir := None
|}.

(** [handleFiltersChange(updates)]: the search the page navigates to, which
    comes back as the [filters] prop; the [samples] state is untouched. *)
Definition handleFiltersChange (updates : option PartialSearch) (p : Props) : Props :=
  {| samples := samples p;
     filters := match updates with
                | None => emptySearch
                | Some u => cleanSampleSearch (filters p) u
                end |}.

(** The click handler of an entry of the sort menu, as the events it
    causes in the browser. *)
Definition sortMenuClick (value : SortBy) (p : Props) : list Event :=
  let sortBy := default ByFilename (sortBy (filters p)) in
  let sortDir := default Asc (sortDir (filters p)) in
  let isSelected := bool_decide (sortBy = value) in
  if bool_decide (value = ByShuffle) then
    let u := {| set_q := None; set_genres := None; set_instruments := None;
                set_bpmMin := None; set_bpmMax := None; set_keys := None;
                set_type := None; set_include := None; set_exclude := None;
                set_sortBy := Some (Some value); set_sortDir := Some None |} in
    [NewProps (handleFiltersChange (Some u) p); Reshuffle]
  else if isSelected then
    let u := {| set_q := None; set_genres := None; set_instruments := None;
                set_bpmMin := None; set_bpmMax := None; set_keys := None;
                set_type := None; set_include := None; set_exclude := None;
                set_sortBy := None;
                set_sortDir := Some (Some (match sortDir with
                                           | Asc => Desc
                                           | Desc => Asc
                                           end)) |} in
    [NewProps (handleFiltersChange (Some u) p)]
  else
    let u := {| set_q := None; set_genres := None; set_instruments := None;
                set_bpmMin := None; set_bpmMax := None; set_keys := None;
                set_type := None; set_include := None; set_exclude := None;
                set_sortBy := Some (Some value); set_sortDir := Some None |} in
    [NewProps (handleFiltersChange (Some u) p)].

(** ** SampleBrowser: the include / exclude tag sets *)

(** The payload [{ include: [...newInclude], exclude: [...newExclude] }] of
    [cycleTag]. *)
Definition cycleTag (tag : string) (includeTags excludeTags : gset string)
    : list string * list string :=
  let newInclude := includeTags in
  let newExclude := excludeTags in
  if bool_decide (tag ∈ newInclude) then
    (elements (newInclude ∖ {[tag]}), elements (newExclude ∪ {[tag]}))
  else if bool_decide (tag ∈ newExclude) then
    (elements newInclude, elements (newExclude ∖ {[tag]}))
  else
    (elements (newInclude ∪ {[tag]}), elements newExclude).

Definition removeTag (tag : string) (includeTags excludeTags : gset string)
    : list string * list string :=
  (elements (includeTags ∖ {[tag]}), elements (excludeTags ∖ {[tag]})).

(** The sets of the next render, [new Set(filters.include || [])] and
    [new Set(filters.exclude || [])], for a payload. *)
Definition tagSets (payload : list string * list string) : gset string * gset string :=
  (list_to_set payload.1, list_to_set payload.2).

(** The three states the tag chip shows. *)
Inductive TagState := TagNone | TagInclude | TagExclude.

Definition tagState (tag : string) (sets : gset string * gset string) : TagState :=
  if bool_decide (tag ∈ sets.1) then TagInclude
  else if bool_decide (tag ∈ sets.2) then TagExclude
  else TagNone.

(** ** FolderTreeSelector *)

Definition isChildOfAny (path : string) (paths : gset string) : bool :=
  existsb (fun p => negb (String.eqb p path) && Str.startsWith path (String.append p "/"))
    (elements paths).

Definition onToggleSelect (path : string) (prev : gset string) : gset string :=
  let next := prev in
  if bool_decide (path ∈ next) then next ∖ {[path]}
  else
    let next := filter (fun p => Str.startsWith p (String.append path "/") = false) next in
    let next := filter (fun p => Str.startsWith path (String.append p "/") = false) next in
    next ∪ {[path]}.

Inductive ConflictAction := Replace | New.

#[export] Instance ConflictAction_eq_dec : EqDecision ConflictAction.
Proof. solve_decision. Defined.

(** A [Record<string, T>] of the dialog is a plain object; the map holds
    its own properties.

    [obj[key] = value], for a value that is a string. An own property of
    that name is created or overwritten, except for the key "__proto__" on
    an object that has no own property of that name: the assignment then
    reaches the setter inherited from [Object.prototype], which ignores a
    value that is neither an object nor [null], and nothing is stored. *)
Definition assign {V} (key : string) (value : V) (obj : gmap string V)
    : gmap string V :=
  if String.eqb key "__proto__" then
    match obj !! key with
    | Some _ => <[key := value]> obj
    | None => obj
    end
  else <[key := value]> obj.

(** Initial state of [ConflictResolver]: [init[c.name] = "replace"] for
    every conflict. *)
Definition initDecisions (conflicts : list PackConflict) : gmap string ConflictAction :=
  fold_left (fun init c => assign (name c) Replace init) conflicts ∅.

Definition setAll (action : ConflictAction) (conflicts : list PackConflict)
    : gmap string ConflictAction :=
  fold_left (fun next c => assign (name c) action next) conflicts ∅.

(** [setDecisions((p) => ({ ...p, [c.name]: action }))]: the spread and the
    computed key of an object literal define own properties, whatever the
    key. *)
Definition setDecision (c : PackConflict) (action : ConflictAction)
    (p : gmap string ConflictAction) : gmap string ConflictAction :=
  <[name c := action]> p.

(** [handleConflictConfirm(decisions)]: the arguments handed to
    [onConfirm], the selected paths and the replace map.
    [decisions[c.name] === "replace"] holds of an own property with that
    value only: what a name inherits from [Object.prototype] is an object
    or a function. *)
Definition handleConflictConfirm (selected : gset string)
    (conflicts : list PackConflict) (decisions : gmap string ConflictAction)
    : list string * gmap string string :=
  let paths := elements selected in
  let replaceMap :=
    fold_left
      (fun m c =>
         if bool_decide (decisions !! name c = Some Replace)
         then assign (name c) (existing_uuid c) m else m)
      conflicts ∅ in
  (paths, replaceMap).

(** ** SampleBrowser: the waveform request queue

    The module-level state [_activeReqs], [_queue] of the source, plus what
    is needed to observe it: which items had their [fn] invoked, which of
    those promises are still pending, and how many
    [setTimeout(_processQueue, 0)] callbacks are outstanding. A
    [_QueueItem] is an object shared between the queue and the cancel
    closure: items are named by identity and the [cancelled] flags are
    kept in one store. *)

Definition _MAX_CONCURRENT : nat := 1.

Record QueueState := {
  _activeReqs : nat;
  _queue : list nat;
  cancelled : gset nat;
  next_item : nat;
  running : list nat;
  invoked : list nat;
  timers : nat
}.

Definition queue_init : QueueState := {|
  _activeReqs := 0; _queue := []; cancelled := ∅; next_item := 0;
  running := []; invoked := []; timers := 0
|}.

(** [_queue.pop()] on a non-empty array: the last element and the rest. *)
Definition pop (queue : list nat) : option (nat * list nat) :=
  match rev queue with
  | item :: rest => Some (item, rev rest)
  | [] => None
  end.

(** The [while] loop of [_processQueue]; every iteration pops an item, so
    the length of the queue bounds the number of iterations. *)
Fixpoint processLoop (fuel : nat) (s : QueueState) : QueueState :=
  match fuel with
  | 0 => s
  | S fuel' =>
      if (_activeReqs s <? _MAX_CONCURRENT) && (0 <? length (_queue s)) then
        match pop (_queue s) with
        | Some (item, rest) =>
            if bool_decide (item ∈ cancelled s) then
              processLoop fuel'
                {| _activeReqs := _activeReqs s; _queue := rest;
                   cancelled := cancelled s; next_item := next_item s;
                   running := running s; invoked := invoked s;
                   timers := timers s |}
            else
              {| _activeReqs := _activeReqs s + 1; _queue := rest;
                 cancelled := cancelled s; next_item := next_item s;
                 running := item :: running s; invoked := item :: invoked s;
                 timers := timers s |}
        | None => s
        end
      else s
  end.

Definition _processQueue (s : QueueState) : QueueState :=
  processLoop (length (_queue s)) s.

(** [_enqueue(fn)]: the new state and the item the returned cancel function
    refers to. *)
Definition _enqueue (s : QueueState) : QueueState * nat :=
  let item := next_item s in
  let s1 := {| _activeReqs := _activeReqs s; _queue := _queue s ++ [item];
               cancelled := cancelled s; next_item := S item;
               running := running s; invoked := invoked s;
               timers := timers s |} in
  (if _activeReqs s1 <? _MAX_CONCURRENT then _processQueue s1 else s1, item).

(** The cancel function returned by [_enqueue]: [item.cancelled = true]. *)
Definition cancel (item : nat) (s : QueueState) : QueueState :=
  {| _activeReqs := _activeReqs s; _queue := _queue s;
     cancelled := cancelled s ∪ {[item]}; next_item := next_item s;
     running := running s; invoked := invoked s; timers := timers s |}.

(** The [finally] callback of a pending [fn]: the slot is released and
    [_processQueue] is scheduled. *)
Definition settle (item : nat) (s : QueueState) : QueueState :=
  if bool_decide (item ∈ running s) then
    {| _activeReqs := _activeReqs s - 1; _queue := _queue s;
       cancelled := cancelled s; next_item := next_item s;
       running := List.filter (fun i => negb (i =? item)) (running s);
       invoked := invoked s; timers := S (timers s) |}
  else s.

(** A scheduled [_processQueue] runs. *)
Definition timerFires (s : QueueState) : QueueState :=
  match timers s with
  | 0 => s
  | S n =>
      _processQueue
        {| _activeReqs := _activeReqs s; _queue := _queue s;
           cancelled := cancelled s; next_item := next_item s;
           running := running s; invoked := invoked s; timers := n |}
  end.

(** What the event loop can deliver to the queue. [Settle] of an item that
    is not running and [TimerFires] with nothing scheduled cannot occur and
    leave the state as it is. *)
Inductive QueueEvent :=
| Enqueue
| Cancel (item : nat)
| Settle (item : nat)
| TimerFires.

Definition queue_step (s : QueueState) (e : QueueEvent) : QueueState :=
  match e with
  | Enqueue => fst (_enqueue s)
  | Cancel item => cancel item s
  | Settle item => settle item s
  | TimerFires => timerFires s
  end.

Definition queue_run (es : list QueueEvent) : QueueState :=
  fold_left queue_step es queue_init.

(** ** SampleBrowser: downsampling of peaks *)

(** An array index or length as a JavaScript number. *)
Definition num (n : nat) : float := PrimFloat.of_uint63 (Uint63.of_Z (Z.of_nat n)).

(** [Math.floor] of a finite number that is not negative, as an index. *)
Definition floor (x : float) : nat :=
  match Prim2SF x with
  | S754_finite false m e =>
      match e with
      | Z.neg k => Z.to_nat (Z.shiftr (Z.pos m) (Z.pos k))
      | _ => Z.to_nat (Z.shiftl (Z.pos m) e)
      end
  | _ => 0
  end.

(** [peaks[j] > max], false when [peaks[j]] is [undefined]. *)
Definition exceeds (peaks : list Q) (j : nat) (max : Q) : bool :=
  match peaks !! j with
  | Some v => negb (Qle_bool v max)
  | None => false
  end.

(** The inner loop: [for (let j = start; j < end; j++) ...] run for
    [count] iterations from [j]. *)
Fixpoint windowMax (peaks : list Q) (j count : nat) (max : Q) : Q :=
  match count with
  | 0 => max
  | S count' =>
      windowMax peaks (S j) count'
        (if exceeds peaks j max then default max (peaks !! j) else max)
  end.

Definition downsample (peaks : list Q) (target : nat) : list Q :=
  if length peaks <=? target then peaks
  else
    let ratio := PrimFloat.div (num (length peaks)) (num target) in
    map (fun i =>
           let start := floor (PrimFloat.mul (num i) ratio) in
           let end_ := floor (PrimFloat.mul (num (i + 1)) ratio) in
           windowMax peaks start (end_ - start) 0%Q)
        (seq 0 target).

(** The windows as the specification words them, in exact arithmetic:
    element [i] is the maximum over
    [[floor(i * length / t), floor((i + 1) * length / t))]. *)
Definition downsample_exact_windows (peaks : list Q) (target : nat) : list Q :=
  if length peaks <=? target then peaks
  else
    map (fun i =>
           let start := i * length peaks / target in
           let end_ := (i + 1) * length peaks / target in
           windowMax peaks start (end_ - start) 0%Q)
        (seq 0 target).

(** * Further code of the browser, the sounds page and the import dialog *)

From Stdlib Require Import DecimalString Sorted ZifyNat.

(** ** SampleBrowser: stringToColor *)

(** [ToInt32]: the signed 32-bit integer congruent to [z] modulo [2^32]. *)
Definition toInt32 (z : Z) : Z := ((z + 2 ^ 31) mod 2 ^ 32 - 2 ^ 31)%Z.

(** [x << n] for a number [x] that holds an integer. *)
Definition shl32 (x n : Z) : Z := toInt32 (Z.shiftl (toInt32 x) n).

(** The loop of [stringToColor]: the value of [hash] after the code units
    of [str], started from [hash]. Only the shift wraps; the sum and the
    difference are those of the numbers. *)
Fixpoint hashFrom (hash : Z) (str : string) : Z :=
  match str with
  | EmptyString => hash
  | String c rest =>
      hashFrom (Z.of_N (N_of_ascii c) + (shl32 hash 5 - hash))%Z rest
  end.

(** [((hash % 360) + 360) % 360]; [%] truncates towards zero. *)
Definition hueOf (hash : Z) : Z := Z.rem (Z.rem hash 360 + 360) 360.

(** [`${n}`] for a number holding an integer. *)
Definition showInt (n : Z) : string := NilZero.string_of_int (Z.to_int n).

Record PastelColor := { bg : string; text : string; border : string }.

Definition stringToColor (str : string) : PastelColor :=
  let hash := hashFrom 0 str in
  let hue := hueOf hash in
  {| bg := String.append "hsla(" (String.append (showInt hue) ", 45%, 58%, 0.12)");
     text := String.append "hsl(" (String.append (showInt hue) ", 40%, 68%)");
     border := String.append "hsla(" (String.append (showInt hue) ", 35%, 52%, 0.22)") |}.

(** ** SampleBrowser: what the component derives from the [filters] prop *)

Module Derived.
Record t := {
  query : string;
  selectedGenres : gset string;
  selectedInstruments : gset string;
  bpmRange : option BpmRange;
  selectedKeys : gset string;
  sampleType : SampleType;
  includeTags : gset string;
  excludeTags : gset string;
  sortBy : SortBy;
  sortDir : SortDir
}.
End Derived.

(** [new Set(arr || [])], by value. *)
Definition setOf (arr : option (Arr string)) : gset string :=
  list_to_set (default [] (items <$> arr)).

(** The constants [query], [selectedGenres], ..., [sortDir] at the head of
    [SampleBrowser]. *)
Definition derive (filters : SampleFilterSearch) : Derived.t :=
  {| Derived.query := Str.or_empty (q filters);
     Derived.selectedGenres := setOf (genres filters);
     Derived.selectedInstruments := setOf (instruments filters);
     Derived.bpmRange :=
       match bpmMin filters, bpmMax filters with
       | Some lo, Some hi => Some {| range_min := lo; range_max := hi |}
       | _, _ => None
       end;
     Derived.selectedKeys := setOf (keys filters);
     Derived.sampleType := default TypeAll (type filters);
     Derived.includeTags := setOf (include filters);
     Derived.excludeTags := setOf (exclude filters);
     Derived.sortBy := default ByFilename (sortBy filters);
     Derived.sortDir := default Asc (sortDir filters) |}.

(** [filtered]: [applyFilters] on the derived values. *)
Definition filteredBy `{StringRuntime} (samples : list Sample) (d : Derived.t)
    : list Sample :=
  applyFilters samples (Derived.selectedGenres d) (Derived.bpmRange d)
    (Derived.selectedKeys d) (Derived.sampleType d)
    (Derived.selectedInstruments d) (Derived.includeTags d)
    (Derived.excludeTags d) (Derived.query d).

(** [activeCount] *)
Definition activeCount (d : Derived.t) : nat :=
  let c := size (Derived.selectedGenres d) + size (Derived.selectedInstruments d) in
  let c := if bool_decide (is_Some (Derived.bpmRange d)) then c + 1 else c in
  let c := c + size (Derived.selectedKeys d) in
  let c := if negb (bool_decide (Derived.sampleType d = TypeAll)) then c + 1 else c in
  let c := c + size (Derived.includeTags d) in
  let c := c + size (Derived.excludeTags d) in
  c.

(** [typeCounts]: the pair [(oneshot, loop)]. *)
Definition typeCounts (samples : list Sample) : nat * nat :=
  fold_left
    (fun '(os, lp) s =>
       if bool_decide (sample_type s = Some "oneshot") then (os + 1, lp)
       else if bool_decide (sample_type s = Some "loop") then (os, lp + 1)
       else (os, lp))
    samples (0, 0).

(** [{ ...prev, ...updates }] *)
Definition mergeSearch (prev : SampleFilterSearch) (updates : PartialSearch)
    : SampleFilterSearch :=
  {| q := spread (q prev) (set_q updates);
     genres := spread (genres prev) (set_genres updates);
     instruments := spread (instruments prev) (set_instruments updates);
     bpmMin := spread (bpmMin prev) (set_bpmMin updates);
     bpmMax := spread (bpmMax prev) (set_bpmMax updates);
     keys := spread (keys prev) (set_keys updates);
     type := spread (type prev) (set_type updates);
     include := spread (include prev) (set_include updates);
     exclude := spread (exclude prev) (set_exclude updates);
     sortBy := spread (sortBy prev) (set_sortBy updates);
     sortDir := spread (sortDir prev) (set_sortDir updates) |}.

(** [clearAll]: [onFiltersChange(null)] *)
Definition clearAll (p : Props) : Props := handleFiltersChange None p.

(** The type button: [cycle[(cycle.indexOf(sampleType) + 1) % cycle.length]]. *)
Definition typeCycle : list SampleType := [TypeAll; TypeOneshot; TypeLoop].

Fixpoint indexOf {A} `{EqDecision A} (x : A) (l : list A) : Z :=
  match l with
  | [] => (-1)%Z
  | y :: rest =>
      if decide (y = x) then 0%Z
      else let i := indexOf x rest in if (i <? 0)%Z then (-1)%Z else (i + 1)%Z
  end.

Definition typeButtonClick (sampleType : SampleType) : PartialSearch :=
  let next :=
    typeCycle !! Z.to_nat (Z.rem (indexOf sampleType typeCycle + 1)
                             (Z.of_nat (length typeCycle))) in
  {| set_q := None; set_genres := None; set_instruments := None;
     set_bpmMin := None; set_bpmMax := None; set_keys := None;
     set_type := Some next; set_include := None; set_exclude := None;
     set_sortBy := None; set_sortDir := None |}.

(** The body shared by [toggleGenre], [toggleInstrument] and [toggleKey]:
    the array [[...n]] after the membership of [x] in a copy [n] of the set
    is flipped. *)
Definition toggled (x : string) (selected : gset string) : list string :=
  let n := selected in
  elements (if bool_decide (x ∈ n) then n ∖ {[x]} else n ∪ {[x]}).

(** [fresh] is the identity of the array the handler creates. *)
Definition toggleGenre (fresh : nat) (genre : string) (selectedGenres : gset string)
    : PartialSearch :=
  {| set_q := None;
     set_genres := Some (Some (MkArr fresh (toggled genre selectedGenres)));
     set_instruments := None; set_bpmMin := None; set_bpmMax := None;
     set_keys := None; set_type := None; set_include := None;
     set_exclude := None; set_sortBy := None; set_sortDir := None |}.

Definition toggleInstrument (fresh : nat) (inst : string)
    (selectedInstruments : gset string) : PartialSearch :=
  {| set_q := None; set_genres := None;
     set_instruments := Some (Some (MkArr fresh (toggled inst selectedInstruments)));
     set_bpmMin := None; set_bpmMax := None; set_keys := None; set_type := None;
     set_include := None; set_exclude := None; set_sortBy := None;
     set_sortDir := None |}.

Definition toggleKey (fresh : nat) (key : string) (selectedKeys : gset string)
    : PartialSearch :=
  {| set_q := None; set_genres := None; set_instruments := None;
     set_bpmMin := None; set_bpmMax := None;
     set_keys := Some (Some (MkArr fresh (toggled key selectedKeys)));
     set_type := None; set_include := None; set_exclude := None;
     set_sortBy := None; set_sortDir := None |}.

(** ** The pages that host the browser: the [samples] state *)

(** The state update of [handleDeleteSample] / [handleRemoveSample]:
    [prev.filter((s) => s.id !== sample.id)]. *)
Definition handleDeleteSample (sample : Sample) (prev : list Sample) : list Sample :=
  List.filter (fun s => negb (id s =? id sample)%Z) prev.

(** [prev.map((s) => s.id === updated.id ? updated : s)] *)
Definition handleEditSample (updated : Sample) (prev : list Sample) : list Sample :=
  map (fun s => if (id s =? id updated)%Z then updated else s) prev.

(** ** SampleBrowser: extractMeta and availableTags *)

Definition INSTRUMENT_KEYWORDS : gset string :=
  list_to_set
    [ "drums"; "snares"; "hats"; "kicks"; "percussion"; "cymbals"; "toms";
      "tambourine"; "shaker"; "claps"; "congas"; "bongos"; "rim"; "hi-hats";
      "synth"; "pads"; "leads"; "keys"; "piano"; "organ"; "rhodes"; "plucks";
      "bass"; "sub"; "808";
      "guitar"; "electric guitar"; "acoustic guitar";
      "vocals"; "voice"; "adlib"; "vocal chops";
      "strings"; "violin"; "cello"; "viola";
      "brass"; "trumpet"; "saxophone"; "horn"; "flute"; "woodwinds";
      "bells"; "mallets"; "marimba"; "xylophone"; "vibraphone";
      "fx"; "risers"; "sweeps"; "impacts"; "textures"; "foley"; "noise";
      "grooves"; "fills"; "tops"; "loops" ].

(** A [Map<string, number>] as its entries in insertion order. *)
Definition mapGet (m : list (string * nat)) (k : string) : option nat :=
  snd <$> List.find (fun e => String.eqb (fst e) k) m.

Definition mapHas (m : list (string * nat)) (k : string) : bool :=
  existsb (fun e => String.eqb (fst e) k) m.

(** [m.set(k, v)]: an existing key keeps its place. *)
Fixpoint mapSet (m : list (string * nat)) (k : string) (v : nat)
    : list (string * nat) :=
  match m with
  | [] => [(k, v)]
  | (k', v') :: rest =>
      if String.eqb k' k then (k', v) :: rest else (k', v') :: mapSet rest k v
  end.

(** [m.set(k, (m.get(k) || 0) + 1)] *)
Definition bump (m : list (string * nat)) (k : string) : list (string * nat) :=
  mapSet m k (default 0 (mapGet m k) + 1).

(** [Set<number>.add], the set as its elements in insertion order. *)
Definition setAdd (s : list Z) (x : Z) : list Z :=
  if existsb (Z.eqb x) s then s else s ++ [x].

Record MetaMaps := {
  m_genres : list (string * nat);
  m_bpmSet : list Z;
  m_keys : list (string * nat);
  m_tagMap : list (string * nat);
  m_instMap : list (string * nat)
}.

Module Meta.
Record t := {
  genres : list (string * nat);
  allBpms : list Z;
  keys : list (string * nat);
  tags : list (string * nat);
  instruments : list (string * nat)
}.
End Meta.

Section ExtractMeta.
Context {rt : StringRuntime}.

(** The body of the inner loop over [s.tags.split(",")]. *)
Definition metaTagStep (acc : list (string * nat) * list (string * nat))
    (raw : string) : list (string * nat) * list (string * nat) :=
  let '(tagMap, instMap) := acc in
  let t := Str.trim raw in
  if negb (Str.truthy (Some t)) then (tagMap, instMap)
  else
    (bump tagMap t,
     if bool_decide (toLowerCase t ∈ INSTRUMENT_KEYWORDS) then bump instMap t
     else instMap).

(** The body of the loop over the samples. *)
Definition metaStep (m : MetaMaps) (s : Sample) : MetaMaps :=
  let g := Str.or_else (genre s) (pack_genre s) in
  let genres := if Str.truthy g then bump (m_genres m) (Str.or_empty g)
                else m_genres m in
  let bpmSet := match bpm s with
                | Some b => if (b =? 0)%Z then m_bpmSet m else setAdd (m_bpmSet m) b
                | None => m_bpmSet m
                end in
  let keyStr := formatKey (audio_key s) (chord_type s) in
  let keys := if Str.truthy keyStr then bump (m_keys m) (Str.or_empty keyStr)
              else m_keys m in
  let '(tagMap, instMap) :=
    if Str.truthy (tags s)
    then fold_left metaTagStep (Str.split "," (Str.or_empty (tags s)))
           (m_tagMap m, m_instMap m)
    else (m_tagMap m, m_instMap m) in
  {| m_genres := genres; m_bpmSet := bpmSet; m_keys := keys;
     m_tagMap := tagMap; m_instMap := instMap |}.

(** [(a, b) => b[1] - a[1]] *)
Definition byCountDesc (a b : string * nat) : Z := (Z.of_nat b.2 - Z.of_nat a.2)%Z.

Definition extractMeta (samples : list Sample) : Meta.t :=
  let m := fold_left metaStep samples
             {| m_genres := []; m_bpmSet := []; m_keys := [];
                m_tagMap := []; m_instMap := [] |} in
  {| Meta.genres := array_sort byCountDesc (m_genres m);
     Meta.allBpms := array_sort (fun a b => (a - b)%Z) (m_bpmSet m);
     Meta.keys := array_sort (fun a b => localeCompare a.1 b.1) (m_keys m);
     Meta.tags := array_sort byCountDesc (m_tagMap m);
     Meta.instruments := array_sort byCountDesc (m_instMap m) |}.

(** [Math.min(...l)] and [Math.max(...l)] of a non-empty list. *)
Definition minOf (l : list Z) : Z :=
  match l with x :: rest => fold_left Z.min rest x | [] => 0%Z end.
Definition maxOf (l : list Z) : Z :=
  match l with x :: rest => fold_left Z.max rest x | [] => 0%Z end.

(** The bounds [bpmMin], [bpmMax] of the slider. *)
Definition sliderMin (meta : Meta.t) : Z :=
  if negb (length (Meta.allBpms meta) =? 0) then minOf (Meta.allBpms meta) else 60%Z.
Definition sliderMax (meta : Meta.t) : Z :=
  if negb (length (Meta.allBpms meta) =? 0) then maxOf (Meta.allBpms meta) else 190%Z.

(** [availableTags]. The loop [for (const t of excludeTags)] visits the
    set in insertion order, that of the array [exclude] the set was made
    from; [includeTags] and [excludeTags] are only asked for membership. *)
Definition availableTagStep (tagMap : list (string * nat)) (raw : string)
    : list (string * nat) :=
  let t := Str.trim raw in
  if negb (Str.truthy (Some t)) then tagMap else bump tagMap t.

Definition activeRank (includeTags excludeTags : gset string) (e : string * nat) : Z :=
  if bool_decide (e.1 ∈ includeTags) || bool_decide (e.1 ∈ excludeTags)
  then 1%Z else 0%Z.

Definition availableCompare (includeTags excludeTags : gset string)
    (a b : string * nat) : Z :=
  let aActive := activeRank includeTags excludeTags a in
  let bActive := activeRank includeTags excludeTags b in
  if negb (aActive =? bActive)%Z then (bActive - aActive)%Z
  else (Z.of_nat b.2 - Z.of_nat a.2)%Z.

Definition availableTags (sorted : list Sample) (includeTags : gset string)
    (exclude : list string) : list (string * nat) :=
  let excludeTags : gset string := list_to_set exclude in
  let tagMap :=
    fold_left
      (fun tagMap s =>
         if Str.truthy (tags s)
         then fold_left availableTagStep (Str.split "," (Str.or_empty (tags s))) tagMap
         else tagMap)
      sorted [] in
  let tagMap :=
    fold_left (fun tagMap t => if negb (mapHas tagMap t) then mapSet tagMap t 0 else tagMap)
      exclude tagMap in
  array_sort (availableCompare includeTags excludeTags) tagMap.

End ExtractMeta.

(** ** SampleBrowser: moving through the sorted list *)

(** [arr.findIndex(pred)]: the first index whose element satisfies [pred],
    or -1. *)
Fixpoint findIndex {A} (pred : A -> bool) (arr : list A) : Z :=
  match arr with
  | [] => (-1)%Z
  | x :: rest =>
      if pred x then 0%Z
      else let i := findIndex pred rest in
           if (i <? 0)%Z then (-1)%Z else (i + 1)%Z
  end.

(** [arr[i]] for a number [i] holding an integer. *)
Definition at_ {A} (arr : list A) (i : Z) : option A :=
  if (i <? 0)%Z then None else arr !! Z.to_nat i.

Definition samePath (cur s : Sample) : bool :=
  String.eqb (local_path s) (local_path cur).

Inductive ArrowKey := ArrowDown | ArrowUp.

(** The [keydown] handler for the arrow keys, on a target that is not an
    input: the page index after the handler and the sample handed to
    [onPlaySample], if any. *)
Definition onArrowKey (key : ArrowKey) (sorted : list Sample) (page : nat)
    (currentSample : option Sample) : nat * option Sample :=
  let displayed := displayed sorted page in
  let totalPages := totalPages sorted in
  if length displayed =? 0 then (page, None)
  else
    let pageStart := page * PAGE_SIZE in
    let curIdx :=
      match currentSample with
      | Some cur => findIndex (samePath cur) displayed
      | None => (-1)%Z
      end in
    match key with
    | ArrowDown =>
        if (curIdx <? 0)%Z then (page, displayed !! 0)
        else if (Z.of_nat (length displayed) - 1 <=? curIdx)%Z then
          if (Z.of_nat page <? Z.of_nat totalPages - 1)%Z
          then (page + 1, sorted !! (pageStart + PAGE_SIZE))
          else (page, None)
        else (page, at_ displayed (curIdx + 1))
    | ArrowUp =>
        if (curIdx <=? 0)%Z then
          if 0 <? page
          then (page - 1, at_ sorted (Z.of_nat pageStart - 1))
          else (page, None)
        else (page, at_ displayed (curIdx - 1))
    end.

(** The callback registered with [registerPlayNext]; [page] is
    [pageRef.current]. *)
Definition playNext (sorted : list Sample) (page : nat)
    (currentSample : option Sample) : nat * option Sample :=
  let list := sorted in
  match currentSample with
  | None => (page, None)
  | Some cur =>
      if length list =? 0 then (page, None)
      else
        let idx := findIndex (samePath cur) list in
        if (idx <? 0)%Z || (Z.of_nat (length list) - 1 <=? idx)%Z then (page, None)
        else
          let nextSample := at_ list (idx + 1) in
          let nextPage := Z.to_nat ((idx + 1) / Z.of_nat PAGE_SIZE) in
          (if negb (nextPage =? page) then nextPage else page, nextSample)
  end.

(** The two buttons of the page control; a disabled button does nothing. *)
Definition pageUp (page : nat) : nat :=
  if page <=? 0 then page else page - 1.

Definition pageDown (page totalPages : nat) : nat :=
  if totalPages - 1 <=? page then page else page + 1.

(** ** FolderTreeSelector: the tree and its rows *)

Module FolderNode.
#[local] Set Warnings "-register-all".
Inductive t := mk {
  name : string;
  path : string;
  audio_count : Z;
  total_audio_count : Z;
  children : list t
}.
End FolderNode.

(** [parts[parts.length - 1] || "Unknown"] *)
Definition folderNameFromPath (path : string) : string :=
  let parts := Str.split "/" path in
  match Str.or_else (parts !! (length parts - 1)) (Some "Unknown") with
  | Some s => s
  | None => "Unknown"
  end.

(** [isDisabled] of a [TreeNode] row. *)
Definition isDisabled (node : FolderNode.t) (selected : gset string) : bool :=
  isChildOfAny (FolderNode.path node) selected
  && negb (bool_decide (FolderNode.path node ∈ selected)).

(** The checkbox of a [TreeNode] row: a disabled checkbox does not call
    [onCheckedChange]. *)
Definition checkboxClick (node : FolderNode.t) (selected : gset string) : gset string :=
  if isDisabled node selected then selected
  else onToggleSelect (FolderNode.path node) selected.

(** [findNode] of the [summary] memo. *)
Fixpoint findNode (node : FolderNode.t) (targetPath : string) : option FolderNode.t :=
  if String.eqb (FolderNode.path node) targetPath then Some node
  else
    (fix loop (cs : list FolderNode.t) : option FolderNode.t :=
       match cs with
       | [] => None
       | child :: rest =>
           match findNode child targetPath with
           | Some found => Some found
           | None => loop rest
           end
       end) (FolderNode.children node).

Record Summary := { packCount : nat; totalFiles : Z }.

Definition summary (tree : FolderNode.t) (selected : gset string) : Summary :=
  {| packCount := size selected;
     totalFiles :=
       fold_left
         (fun totalFiles path =>
            match findNode tree path with
            | Some node => (totalFiles + FolderNode.total_audio_count node)%Z
            | None => totalFiles
            end)
         (elements selected) 0%Z |}.

Definition allFirstLevel (tree : FolderNode.t) : list string :=
  if length (FolderNode.children tree) =? 0 then [FolderNode.path tree]
  else map FolderNode.path (FolderNode.children tree).

Definition isAllSelected (tree : FolderNode.t) (selected : gset string) : bool :=
  forallb (fun p => bool_decide (p ∈ selected)) (allFirstLevel tree).

Definition toggleAll (tree : FolderNode.t) (selected : gset string) : gset string :=
  if isAllSelected tree selected then ∅
  else list_to_set (allFirstLevel tree).

(** ** SampleBrowser: the chips of a row *)

(** [sampleTags] of a row of [VirtualSampleList]. *)
Definition sampleTags (sample : Sample) : list string :=
  if Str.truthy (tags sample)
  then take 3 (List.filter (fun t => Str.truthy (Some t))
                 (tagList (Str.or_empty (tags sample))))
  else [].

(** [genre] of a row: [sample.genre || sample.pack_genre]. *)
Definition rowGenre (sample : Sample) : option string :=
  Str.or_else (genre sample) (pack_genre sample).

(** * Vocabulary of the statements *)

(** ** Filters and sorting *)

(** [b] occurs in [a] as a substring. *)
Definition occursIn (b a : string) : Prop :=
  exists pre post, a = String.append pre (String.append b post).

(** A sample that differs from [base] in its genre and bpm only. *)
Definition sampleWith (base : Sample) (g : string) (b : Z) : Sample :=
  {| id := id base; local_path := local_path base; filename := filename base;
     audio_key := audio_key base; bpm := Some b; chord_type := chord_type base;
     duration := duration base; genre := Some g;
     sample_type := sample_type base; tags := tags base;
     pack_uuid := pack_uuid base; pack_name := pack_name base;
     pack_genre := pack_genre base; created_at := created_at base |}.

(** All elements with a key, then all elements without. *)
Definition absentLast {A} (key : A -> option Z) (l : list A) : Prop :=
  exists l1 l2,
    l = l1 ++ l2
    /\ Forall (fun a => is_Some (key a)) l1
    /\ Forall (fun a => key a = None) l2.

(** ** The page index *)

(** The values the component derives from its props. *)
Definition sortByOf (p : Props) : SortBy := default ByFilename (sortBy (filters p)).
Definition queryOf (p : Props) : string := default "" (q (filters p)).
Definition typeOf (p : Props) : SampleType := default TypeAll (type (filters p)).

(** The state of a browser after a render with props [p]: the effect has
    recorded the dependencies of this render, and identities the component
    allocated lie below the allocator. *)
Definition committed (p : Props) (h : Hooks) : Prop :=
  exists (dF : FilteredDeps) oF,
    memo_filtered h = Some (dF, oF)
    /\ dF.2 = queryOf p
    /\ dF.1.1.1.1.2 = typeOf p
    /\ effect_deps h = Some (ref oF, sortByOf p, shuffleSeed h)
    /\ (forall n, ref oF = Allocated n -> n < next_alloc h).

Definition alloc_ok (h : Hooks) : Prop :=
  forall dF oF n,
    memo_filtered h = Some (dF, oF) -> ref oF = Allocated n -> n < next_alloc h.

(** Identity of the memoised [filtered] array. *)
Definition filteredRef (h : Hooks) : option RefId := ref <$> filteredOf h.

Section PageVocabulary.
Context {rt : StringRuntime}.

(** Changes, brought by new props [p'] to a browser in state [st], after
    which the page starts over: another sort key, another query that is
    long enough to filter, another sample type that filters, or in general
    a render that yields a new [filtered] array. *)
Definition resetsPage (p' : Props) (st : Props * Hooks) : Prop :=
  sortByOf p' <> sortByOf st.1
  \/ (queryOf p' <> queryOf st.1 /\ 2 <= String.length (queryOf p'))
  \/ (typeOf p' <> typeOf st.1 /\ typeOf p' <> TypeAll)
  \/ filteredRef (render p' st.2) <> filteredRef st.2.

End PageVocabulary.

(** A library of 120 samples shown sorted by bpm, for concrete runs. *)
Definition demoSample (n : nat) : Sample :=
  {| id := Z.of_nat n; local_path := "/library/demo.wav"; filename := "demo.wav";
     audio_key := None; bpm := Some (60 + Z.of_nat n)%Z; chord_type := None;
     duration := None; genre := None; sample_type := None; tags := None;
     pack_uuid := None; pack_name := None; pack_genre := None;
     created_at := None |}.

Definition demoProps : Props :=
  {| samples := MkArr 0 (map demoSample (seq 0 120));
     filters := cleanSampleSearch emptySearch
                  {| set_q := None; set_genres := None; set_instruments := None;
                     set_bpmMin := None; set_bpmMax := None; set_keys := None;
                     set_type := None; set_include := None; set_exclude := None;
                     set_sortBy := Some (Some ByBpm); set_sortDir := None |} |}.

(** ** The waveform request queue *)

(** What holds of the queue at all times: the counter counts the pending
    invocations, of which there is at most one; waiting items are distinct,
    were created earlier and have not been invoked. *)
Record queue_inv (s : QueueState) : Prop := {
  inv_active : _activeReqs s = length (running s);
  inv_slot : length (running s) <= _MAX_CONCURRENT;
  inv_waiting : forall i, i ∈ _queue s -> i < next_item s /\ i ∉ invoked s;
  inv_nodup : NoDup (_queue s);
  inv_invoked : forall i, i ∈ invoked s -> i < next_item s
}.

(** An item whose flag is set and whose [fn] has not been invoked. *)
Definition silenced (item : nat) (s : QueueState) : Prop :=
  item ∈ cancelled s /\ item ∉ invoked s.

(** ** The import dialogs *)

(** The loop of [handleConflictConfirm] on its own. *)
Definition replaceMapOf (conflicts : list PackConflict)
    (decisions : gmap string ConflictAction) : gmap string string :=
  (handleConflictConfirm ∅ conflicts decisions).2.

(** The last conflict of the list that has the name [nm]. *)
Definition lastNamed (nm : string) (conflicts : list PackConflict)
    : option PackConflict :=
  last (List.filter (fun c => String.eqb (name c) nm) conflicts).

(** A conflict for a folder called "__proto__". *)
Definition protoConflict : PackConflict :=
  {| name := "__proto__"; existing_uuid := "u-1"; existing_sample_count := 12 |}.

(** The selection after a sequence of [onToggleSelect] calls, starting from
    the empty selection of a fresh dialog. *)
Definition selectionAfter (paths : list string) : gset string :=
  fold_left (fun sel path => onToggleSelect path sel) paths ∅.

(** No selected path lies strictly below another selected path. *)
Definition unnested (sel : gset string) : Prop :=
  forall p q, p ∈ sel -> q ∈ sel -> p <> q ->
              Str.startsWith q (String.append p "/") = false.

(** ** Tags *)

(** The successor in the cycle none, include, exclude, none. *)
Definition nextTagState (st : TagState) : TagState :=
  match st with
  | TagNone => TagInclude
  | TagInclude => TagExclude
  | TagExclude => TagNone
  end.

(** The two operations on tags, and the sets of the render that follows a
    sequence of them. *)
Inductive TagOp := CycleTag (tag : string) | RemoveTag (tag : string).

Definition applyTagOp (sets : gset string * gset string) (op : TagOp)
    : gset string * gset string :=
  match op with
  | CycleTag tag => tagSets (cycleTag tag sets.1 sets.2)
  | RemoveTag tag => tagSets (removeTag tag sets.1 sets.2)
  end.

(** ** Peaks *)

(** 60 silent frames and one full-scale frame at the very end. *)
Definition peaks61 : list Q := repeat 0%Q 60 ++ [1%Q].

(** 208 frames, silent except for a full-scale frame at index 116. *)
Definition peaks208 : list Q := repeat 0%Q 116 ++ [1%Q] ++ repeat 0%Q 91.

(** The bound between the windows [i - 1] and [i] of [downsample], as the
    code computes it: the floor of the rounded product of [i] and the
    rounded quotient [peaks.length / target]. *)
Definition windowBound (peaks : list Q) (target i : nat) : nat :=
  floor (PrimFloat.mul (num i) (PrimFloat.div (num (length peaks)) (num target))).

(** ** Further vocabulary *)

(** The successor in the cycle all, oneshot, loop, all. *)
Definition nextSampleType (t : SampleType) : SampleType :=
  match t with
  | TypeAll => TypeOneshot
  | TypeOneshot => TypeLoop
  | TypeLoop => TypeAll
  end.

(** A click on the type button, as the next [filters] prop. *)
Definition clickType (filters : SampleFilterSearch) : SampleFilterSearch :=
  cleanSampleSearch filters (typeButtonClick (Derived.sampleType (derive filters))).

(** The genre a sample counts under, if any: [s.genre || s.pack_genre]
    when that is not empty. *)
Definition genreOf (s : Sample) : option string :=
  let g := Str.or_else (genre s) (pack_genre s) in
  if Str.truthy g then g else None.

(** The non-empty trimmed tags of a sample, as often as they are written. *)
Definition tagsOfSample (s : Sample) : list string :=
  if Str.truthy (tags s)
  then List.filter (fun t => negb (String.eqb t ""))
         (tagList (Str.or_empty (tags s)))
  else [].

Definition tagsOf (samples : list Sample) : list string :=
  concat (map tagsOfSample samples).

(** The tempo a sample contributes to the slider: a bpm other than 0. *)
Definition tempoOf (s : Sample) : option Z :=
  match bpm s with
  | Some b => if (b =? 0)%Z then None else Some b
  | None => None
  end.

(** Number of occurrences of [k] in [l]. *)
Definition occurrences (k : string) (l : list string) : nat :=
  count_occ String.string_dec l k.

(** A library of samples with one file each, for concrete runs. *)
Definition trackSample (n : nat) : Sample :=
  {| id := Z.of_nat n;
     local_path := String.append "/library/" (String.append (showInt (Z.of_nat n)) ".wav");
     filename := String.append (showInt (Z.of_nat n)) ".wav";
     audio_key := None; bpm := None; chord_type := None;
     duration := None; genre := None; sample_type := None; tags := None;
     pack_uuid := None; pack_name := None; pack_genre := None;
     created_at := None |}.

Definition tracks (n : nat) : list Sample := map trackSample (seq 0 n).

(** The state [_processQueue] leaves when it invokes [item] and keeps
    [rest] waiting. *)
Definition invokes (item : nat) (rest : list nat) (s : QueueState) : QueueState :=
  {| _activeReqs := _activeReqs s + 1; _queue := rest;
     cancelled := cancelled s; next_item := next_item s;
     running := item :: running s; invoked := item :: invoked s;
     timers := timers s |}.

(** Nothing waits without something to wake the queue up: a pending [fn]
    or a scheduled [_processQueue]. *)
Definition awake (s : QueueState) : Prop :=
  _queue s <> [] -> running s <> [] \/ 0 < timers s.

(** Every item created so far waits, was invoked, or was cancelled. *)
Definition accounted (s : QueueState) : Prop :=
  forall i, i < next_item s -> i ∈ _queue s \/ i ∈ invoked s \/ i ∈ cancelled s.

(** ** The folder tree *)

(** The character [c] occurs in [s]. *)
Fixpoint hasChar (c : ascii) (s : string) : bool :=
  match s with
  | EmptyString => false
  | String d s' => Ascii.eqb d c || hasChar c s'
  end.

(** The nodes of a tree, parents before children, siblings in order. *)
Fixpoint nodes (node : FolderNode.t) : list FolderNode.t :=
  node :: flat_map nodes (FolderNode.children node).

(** The files counted for a path: those of the first node that has it. *)
Definition filesAt (tree : FolderNode.t) (p : string) : Z :=
  match List.find (fun n => String.eqb (FolderNode.path n) p) (nodes tree) with
  | Some n => FolderNode.total_audio_count n
  | None => 0%Z
  end.

(** * Properties *)

(** ** Strings *)

Lemma append_nil (b : string) : String.append "" b = b.
Proof. reflexivity. Qed.

Lemma append_cons (c : ascii) (a b : string) :
  String.append (String c a) b = String c (String.append a b).
Proof. reflexivity. Qed.

Lemma prefix_spec (p s : string) :
  String.prefix p s = true <-> exists post, s = String.append p post.
Proof.
  revert s; induction p as [|c p IH]; intros s.
  - destruct s; simpl; (split; [intros _; by eexists | done]).
  - destruct s as [|d s]; simpl.
    + split; [done | intros [post H]; discriminate].
    + destruct (Ascii.ascii_dec c d) as [->|Hne].
      * rewrite IH. split; intros [post H]; exists post;
          rewrite append_cons in *; congruence.
      * split; [done | intros [post H]; rewrite append_cons in H; congruence].
Qed.

(** [a.includes(b)] holds exactly when [a] is [pre ++ b ++ post]. *)
Lemma includes_spec (a b : string) :
  Str.includes a b = true
  <-> exists pre post, a = String.append pre (String.append b post).
Proof.
  induction a as [|c a IH].
  - change (Str.includes "" b) with (String.prefix b "" || false).
    rewrite orb_false_r, prefix_spec. split.
    + intros [post H]. by exists EmptyString, post.
    + intros (pre & post & H).
      destruct pre; [by exists post | rewrite append_cons in H; done].
  - change (Str.includes (String c a) b)
      with (String.prefix b (String c a) || Str.includes a b).
    rewrite orb_true_iff, prefix_spec, IH. split.
    + intros [[post H]|(pre & post & H)].
      * by exists EmptyString, post.
      * exists (String c pre), post. rewrite append_cons. by rewrite H.
    + intros (pre & post & H). destruct pre as [|d pre].
      * left. by exists post.
      * right. exists pre, post. rewrite append_cons in H. congruence.
Qed.

(** ** applyFilters *)

Lemma filter_filter_and {A} (f g : A -> bool) (l : list A) :
  List.filter g (List.filter f l) = List.filter (fun x => f x && g x) l.
Proof.
  induction l as [|x l IH]; simpl; [done|].
  destruct (f x); simpl; [destruct (g x)|]; by rewrite IH.
Qed.

Lemma filter_all {A} (l : list A) : List.filter (fun _ => true) l = l.
Proof. induction l as [|x l IH]; simpl; by rewrite ?IH. Qed.

Lemma filter_stage {A} (c : bool) (p : A -> bool) (l : list A) :
  (if c then List.filter p l else l)
  = List.filter (fun x => if c then p x else true) l.
Proof. destruct c; [done | by rewrite filter_all]. Qed.

Section FilterFacts.
Context {rt : StringRuntime}.

Lemma applyFilters_filter samples G R K T I inc exc query :
  applyFilters samples G R K T I inc exc query
  = List.filter (passesAll G R K T I inc exc query) samples.
Proof.
  unfold applyFilters.
  rewrite !filter_stage.
  replace (match R with
           | Some range => List.filter (bpmPred range) _
           | None => _
           end)
    with (List.filter (passBpm R)
            (List.filter (passGenre G) (List.filter (passText query) samples)))
    by (destruct R; simpl; [done | by rewrite filter_all]).
  match goal with
  | |- context [match T with TypeAll => ?r | _ => _ end] =>
      replace (match T with
               | TypeAll => r
               | _ => List.filter (typePred T) r
               end)
        with (List.filter (passType T) r)
        by (destruct T; simpl; [by rewrite filter_all | done | done])
  end.
  rewrite !filter_filter_and. apply List.filter_ext. intros s.
  unfold passesAll, passKey, passSomeTag, passNoTag.
  by rewrite !andb_assoc.
Qed.

Lemma genrePred_spec G s :
  genrePred G s = true
  <-> exists g, Str.or_else (genre s) (pack_genre s) = Some g /\ g ∈ G.
Proof.
  unfold genrePred. destruct (Str.or_else _ _) as [g|].
  - rewrite bool_decide_eq_true. split; [by exists g | by intros (g' & [= ->] & H)].
  - split; [done | by intros (g & H & _)].
Qed.

Lemma keyPred_spec K s :
  keyPred K s = true
  <-> exists k, formatKey (audio_key s) (chord_type s) = Some k /\ k ∈ K.
Proof.
  unfold keyPred. destruct (formatKey _ _) as [k|].
  - rewrite bool_decide_eq_true. split; [by exists k | by intros (k' & [= ->] & H)].
  - split; [done | by intros (k & H & _)].
Qed.

Lemma someTagIn_spec sel s :
  someTagIn sel s = true
  <-> exists raw t, tags s = Some raw /\ raw <> "" /\ In t (tagList raw) /\ t ∈ sel.
Proof.
  unfold someTagIn, Str.or_empty, Str.or_else, Str.truthy.
  destruct (tags s) as [raw|]; simpl.
  - destruct (String.eqb_spec raw "") as [->|Hne]; simpl.
    + split; [done | by intros (raw & t & [= <-] & H & _)].
    + rewrite existsb_exists. split.
      * intros (t & Hin & Ht). apply bool_decide_eq_true in Ht. by exists raw, t.
      * intros (raw' & t & [= <-] & _ & Hin & Ht). exists t.
        by rewrite bool_decide_eq_true.
  - split; [done | by intros (raw & t & H & _)].
Qed.

Lemma noTagIn_spec sel s :
  noTagIn sel s = true
  <-> forall raw t, tags s = Some raw -> raw <> "" -> In t (tagList raw) -> t ∉ sel.
Proof.
  unfold noTagIn, Str.or_empty, Str.or_else, Str.truthy.
  destruct (tags s) as [raw|]; simpl.
  - destruct (String.eqb_spec raw "") as [->|Hne]; simpl.
    + split; [by intros _ raw t [= <-] | done].
    + rewrite negb_true_iff, <- not_true_iff_false, existsb_exists. split.
      * intros Hno raw' t [= <-] _ Hin Ht. apply Hno. exists t.
        by rewrite bool_decide_eq_true.
      * intros Hall (t & Hin & Ht). apply bool_decide_eq_true in Ht.
        by apply (Hall raw t).
  - split; [by intros _ raw t H | done].
Qed.

End FilterFacts.

Section FilterClaims.
Context {rt : StringRuntime}.

Lemma passesAll_text_last G R K T I inc exc query s :
  passesAll G R K T I inc exc query s
  = passesAll G R K T I inc exc "" s && passText query s.
Proof.
  unfold passesAll. replace (passText "" s) with true by done.
  by destruct (passText query s), (passGenre G s), (passBpm R s),
    (passKey K s), (passType T s), (passSomeTag I s), (passSomeTag inc s),
    (passNoTag exc s).
Qed.

Lemma passesAll_bpm_last G R K T I inc exc query s :
  passesAll G R K T I inc exc query s
  = passesAll G None K T I inc exc query s && passBpm R s.
Proof.
  unfold passesAll. simpl (passBpm None s).
  by destruct (passText query s), (passGenre G s), (passBpm R s),
    (passKey K s), (passType T s), (passSomeTag I s), (passSomeTag inc s),
    (passNoTag exc s).
Qed.

Lemma example_pass b g n :
  g <> "" ->
  passesAll {[ "A" ]} (Some {| range_min := 80; range_max := 100 |})
    ∅ TypeAll ∅ ∅ ∅ "" (sampleWith b g n)
  = bool_decide (g = "A") && ((80 <=? n)%Z && (n <=? 100)%Z).
Proof.
  intros Hg.
  unfold passesAll, passText, passGenre, passBpm, passKey, passType,
    passSomeTag, passNoTag.
  rewrite size_singleton, size_empty. simpl.
  unfold genrePred, bpmPred, Str.or_else, Str.truthy. simpl.
  destruct (String.eqb_spec g "") as [->|_]; [done|]. simpl.
  rewrite !andb_true_r. f_equal. apply bool_decide_ext. set_solver.
Qed.

(** C1. Filter categories compose by AND, the values selected within a
    category by OR: the result of [applyFilters] is the input list
    restricted (order kept) to the samples that pass every category, where
    an inactive category lets every sample pass; a sample passes the genre,
    key or tag category when one of the selected values fits it. For the
    three samples with genre/bpm A/90, B/120, A/150, selected genres {A} and
    the range [80,100], the result is exactly the first sample. *)
Theorem filters_compose_by_and :
  (forall samples G R K T I inc exc query,
     applyFilters samples G R K T I inc exc query
     = List.filter (passesAll G R K T I inc exc query) samples)
  /\ (forall samples G R K T I inc exc query s,
        In s (applyFilters samples G R K T I inc exc query)
        <-> In s samples
            /\ passText query s = true /\ passGenre G s = true
            /\ passBpm R s = true /\ passKey K s = true
            /\ passType T s = true /\ passSomeTag I s = true
            /\ passSomeTag inc s = true /\ passNoTag exc s = true)
  /\ (forall G s,
        genrePred G s = true
        <-> exists g, Str.or_else (genre s) (pack_genre s) = Some g /\ g ∈ G)
  /\ (forall K s,
        keyPred K s = true
        <-> exists k, formatKey (audio_key s) (chord_type s) = Some k /\ k ∈ K)
  /\ (forall sel s,
        someTagIn sel s = true
        <-> exists raw t,
              tags s = Some raw /\ raw <> "" /\ In t (tagList raw) /\ t ∈ sel)
  /\ (forall b1 b2 b3,
        applyFilters
          [sampleWith b1 "A" 90; sampleWith b2 "B" 120; sampleWith b3 "A" 150]
          {["A"]} (Some {| range_min := 80; range_max := 100 |})
          ∅ TypeAll ∅ ∅ ∅ ""
        = [sampleWith b1 "A" 90]).
Proof.
  split; [exact applyFilters_filter|].
  split.
  { intros. rewrite applyFilters_filter, filter_In. unfold passesAll.
    rewrite !andb_true_iff. tauto. }
  split; [exact genrePred_spec|].
  split; [exact keyPred_spec|].
  split; [exact someTagIn_spec|].
  intros b1 b2 b3. rewrite applyFilters_filter.
  cbn [List.filter]. by rewrite !example_pass.
Qed.

(** C4. The free-text stage runs only for a query of at least two
    characters. When it runs, it keeps exactly the samples for which the
    lowercased query occurs in the lowercased filename, pack name (empty
    when absent) or raw tags string (empty when absent); a shorter query
    leaves the list as the other categories produce it, and with no other
    category active the list is returned unchanged. *)
Theorem text_query_filter :
  forall samples G R K T I inc exc query,
    applyFilters samples G R K T I inc exc query
    = (if 2 <=? String.length query
       then List.filter (textPred (toLowerCase query))
              (applyFilters samples G R K T I inc exc "")
       else applyFilters samples G R K T I inc exc "")
    /\ applyFilters samples ∅ None ∅ TypeAll ∅ ∅ ∅ query
       = (if 2 <=? String.length query
          then List.filter (textPred (toLowerCase query)) samples
          else samples)
    /\ (forall s,
          textPred (toLowerCase query) s = true
          <-> occursIn (toLowerCase query) (toLowerCase (filename s))
              \/ occursIn (toLowerCase query)
                   (toLowerCase (Str.or_empty (pack_name s)))
              \/ occursIn (toLowerCase query)
                   (toLowerCase (Str.or_empty (tags s)))).
Proof.
  intros samples G R K T I inc exc query.
  assert (Hgen : forall G R K T I inc exc,
             applyFilters samples G R K T I inc exc query
             = (if 2 <=? String.length query
                then List.filter (textPred (toLowerCase query))
                       (applyFilters samples G R K T I inc exc "")
                else applyFilters samples G R K T I inc exc "")).
  { clear. intros G R K T I inc exc.
    rewrite !applyFilters_filter, filter_stage, filter_filter_and.
    apply List.filter_ext. intros s. apply passesAll_text_last. }
  split; [apply Hgen|]. split.
  - rewrite Hgen.
    replace (applyFilters samples ∅ None ∅ TypeAll ∅ ∅ ∅ "") with samples; [done|].
    rewrite applyFilters_filter. symmetry.
    rewrite <- (filter_all samples) at 2. apply List.filter_ext. intros s.
    unfold passesAll, passText, passGenre, passBpm, passKey, passType,
      passSomeTag, passNoTag.
    by rewrite size_empty.
  - intros s. unfold textPred, occursIn.
    rewrite !orb_true_iff, !includes_spec. tauto.
Qed.

(** C5. With a range [min,max] active a sample is kept iff its bpm is
    present and min <= bpm <= max, both bounds included; no sample without
    bpm survives an active range; with no range the category excludes
    nothing: the result is decided by the other categories alone, and is
    the whole list when none of them is active. *)
Theorem bpm_range_filter :
  forall samples G K T I inc exc query,
    (forall range,
       applyFilters samples G (Some range) K T I inc exc query
       = List.filter (bpmPred range)
           (applyFilters samples G None K T I inc exc query))
    /\ (forall range s,
          bpmPred range s = true
          <-> exists b, bpm s = Some b
                        /\ (range_min range <= b <= range_max range)%Z)
    /\ (forall range,
          Forall (fun s => is_Some (bpm s))
            (applyFilters samples G (Some range) K T I inc exc query))
    /\ (forall s, passBpm None s = true)
    /\ applyFilters samples ∅ None ∅ TypeAll ∅ ∅ ∅ "" = samples.
Proof.
  intros samples G K T I inc exc query.
  assert (Hspec : forall range s,
             bpmPred range s = true
             <-> exists b, bpm s = Some b
                           /\ (range_min range <= b <= range_max range)%Z).
  { intros range s. unfold bpmPred. destruct (bpm s) as [b|].
    - rewrite andb_true_iff, !Z.leb_le. split.
      + intros H. by exists b.
      + by intros (b' & [= <-] & H).
    - split; [done | by intros (b & H & _)]. }
  assert (Hstage : forall range,
             applyFilters samples G (Some range) K T I inc exc query
             = List.filter (bpmPred range)
                 (applyFilters samples G None K T I inc exc query)).
  { intros range. rewrite !applyFilters_filter, filter_filter_and.
    apply List.filter_ext. intros s. apply passesAll_bpm_last. }
  split; [exact Hstage|]. split; [exact Hspec|]. split; [|split; [done|]].
  - intros range. rewrite Hstage. apply List.Forall_forall. intros s Hs.
    apply filter_In in Hs as [_ Hs]. apply Hspec in Hs as (b & Hb & _).
    by exists b.
  - rewrite applyFilters_filter. rewrite <- (filter_all samples) at 2.
    apply List.filter_ext. intros s.
    unfold passesAll, passText, passGenre, passBpm, passKey, passType,
      passSomeTag, passNoTag.
    by rewrite size_empty.
Qed.

End FilterClaims.

(** ** sortSamples *)

Section NullsLast.
Context {A : Type} (key : A -> option Z) (compareFn : A -> A -> Z).

(** What the bpm and duration comparators have in common: an element
    without key never compares below anything, and an element with a key
    compares below every element without. *)
Hypothesis absent_not_below : forall a b, key a = None -> (0 <= compareFn a b)%Z.
Hypothesis present_below_absent :
  forall a b, is_Some (key a) -> key b = None -> (compareFn a b < 0)%Z.

Lemma insert_sorted_perm x l : Permutation (x :: l) (insert_sorted compareFn x l).
Proof.
  induction l as [|y l IH]; simpl; [done|].
  destruct (compareFn x y <? 0)%Z; [done|].
  rewrite <- IH. apply perm_swap.
Qed.

Lemma array_sort_perm l : Permutation l (array_sort compareFn l).
Proof.
  unfold array_sort.
  enough (H : forall acc, Permutation (acc ++ l)
                            (fold_left (fun acc x => insert_sorted compareFn x acc) l acc))
    by apply (H []).
  induction l as [|x l IH]; intros acc; simpl.
  - by rewrite app_nil_r.
  - rewrite <- IH, <- insert_sorted_perm. simpl.
    symmetry. apply Permutation_middle.
Qed.

Lemma insert_absent x l :
  key x = None -> insert_sorted compareFn x l = l ++ [x].
Proof.
  intros Hx. induction l as [|y l IH]; simpl; [done|].
  pose proof (absent_not_below x y Hx).
  destruct (Z.ltb_spec (compareFn x y) 0); [lia | by rewrite IH].
Qed.

Lemma insert_present x l1 l2 :
  is_Some (key x) ->
  Forall (fun a => key a = None) l2 ->
  insert_sorted compareFn x (l1 ++ l2) = insert_sorted compareFn x l1 ++ l2.
Proof.
  intros Hx Hl2. induction l1 as [|y l1 IH]; simpl.
  - destruct l2 as [|z l2]; simpl; [done|].
    apply Forall_cons in Hl2 as [Hz _].
    pose proof (present_below_absent x z Hx Hz).
    by destruct (Z.ltb_spec (compareFn x z) 0); [|lia].
  - destruct (compareFn x y <? 0)%Z; [done | by rewrite IH].
Qed.

Lemma insert_absentLast x l :
  absentLast key l -> absentLast key (insert_sorted compareFn x l).
Proof.
  intros (l1 & l2 & -> & H1 & H2).
  destruct (key x) as [k|] eqn:Hx.
  - exists (insert_sorted compareFn x l1), l2. split; [|split; [|done]].
    + apply insert_present; [by rewrite Hx | done].
    + eapply Permutation_Forall; [apply insert_sorted_perm|].
      apply Forall_cons. split; [by rewrite Hx | done].
  - exists l1, (l2 ++ [x]). split; [|split; [done|]].
    + by rewrite insert_absent, app_assoc.
    + apply Forall_app. split; [done|]. by apply Forall_cons.
Qed.

Lemma array_sort_absentLast l : absentLast key (array_sort compareFn l).
Proof.
  unfold array_sort.
  enough (H : forall acc, absentLast key acc ->
                absentLast key (fold_left (fun acc x => insert_sorted compareFn x acc) l acc)).
  { apply H. by exists [], []. }
  induction l as [|x l IH]; intros acc Hacc; simpl; [done|].
  apply IH. by apply insert_absentLast.
Qed.

End NullsLast.

Section SortClaims.
Context {rt : StringRuntime}.

(** C3. Sorted by bpm, in either direction, the list is a rearrangement of
    the input in which all samples with a bpm come first and all samples
    with null bpm after them; the same holds for duration. *)
Theorem nulls_sort_last :
  forall draw samples sortDir,
    (Permutation samples (sortSamples draw samples ByBpm sortDir)
     /\ exists withBpm noBpm,
          sortSamples draw samples ByBpm sortDir = withBpm ++ noBpm
          /\ Forall (fun s => is_Some (bpm s)) withBpm
          /\ Forall (fun s => bpm s = None) noBpm)
    /\ (Permutation samples (sortSamples draw samples ByDuration sortDir)
        /\ exists withDuration noDuration,
             sortSamples draw samples ByDuration sortDir
             = withDuration ++ noDuration
             /\ Forall (fun s => is_Some (duration s)) withDuration
             /\ Forall (fun s => duration s = None) noDuration).
Proof.
  intros draw samples sortDir. simpl. split; (split; [apply array_sort_perm|]).
  - apply (array_sort_absentLast bpm); unfold compareBpm.
    + intros a b ->. lia.
    + intros a b [x ->] ->. lia.
  - apply (array_sort_absentLast duration); unfold compareDuration.
    + intros a b ->. lia.
    + intros a b [x ->] ->. lia.
Qed.

End SortClaims.

(** ** Pagination and the page index *)

(** C6. A change of the sort direction does not reset the page. The
    browser shows 120 samples sorted by bpm, the user goes to the second
    page and then clicks the selected sort entry, which flips the direction
    from ascending to descending: the sort has changed, the page index is
    still 1. *)
Lemma direction_toggle_keeps_page :
  let rt := AsciiRuntime.ascii_runtime in
  let st1 := run demoProps [PickPage 1] in
  let st2 := fold_left (fun st e => handle e st) (sortMenuClick ByBpm (fst st1)) st1 in
  default Asc (sortDir (filters (fst st1))) = Asc
  /\ default Asc (sortDir (filters (fst st2))) = Desc
  /\ default ByFilename (sortBy (filters (fst st2))) = ByBpm
  /\ page (snd st1) = 1
  /\ page (snd st2) = 1
  /\ page (snd st2) <> 0.
Proof. vm_compute. repeat split; discriminate. Qed.

Lemma useMemo_alloc_le {D V : Type} `{EqDecision D}
    (cell : option (D * V)) (deps : D) (factory : nat -> V * nat) (alloc : nat) :
  (forall a, a <= snd (factory a)) ->
  alloc <= snd (useMemo cell deps factory alloc).
Proof.
  intros Hf. unfold useMemo. specialize (Hf alloc).
  destruct cell as [[d v]|]; [destruct (decide (d = deps)); simpl; [lia|]|];
    by destruct (factory alloc).
Qed.

Lemma newSet_alloc_le arr a : a <= snd (newSet arr a).
Proof. simpl. lia. Qed.

Lemma newBpmRange_alloc_le lo hi a : a <= snd (newBpmRange lo hi a).
Proof. unfold newBpmRange. destruct lo, hi; simpl; lia. Qed.

Section PageFacts.
Context {rt : StringRuntime}.

(** What one render does to the [filtered] memo, the effect and the page:
    the earlier memos only move the allocator forward. *)
Lemma render_spec p h :
  exists G R K I inc exc (d : RefId * RefId * option RefId * RefId) dI dInc dExc a,
    next_alloc h <= a
    /\ let deps : FilteredDeps := (d, typeOf p, dI, dInc, dExc, queryOf p) in
       let r := useMemo (memo_filtered h) deps
                  (applyFiltersObj (samples p) G R K (typeOf p) I inc exc (queryOf p))
                  a in
       memo_filtered (render p h) = Some (fst r)
       /\ next_alloc (render p h) = snd r
       /\ shuffleSeed (render p h) = shuffleSeed h
       /\ effect_deps (render p h)
          = Some (ref (snd (fst r)), sortByOf p, shuffleSeed h)
       /\ page (render p h)
          = if decide (effect_deps h
                       = Some (ref (snd (fst r)), sortByOf p, shuffleSeed h))
            then page h else 0.
Proof.
  unfold render.
  pose proof (useMemo_alloc_le (memo_selectedGenres h) (ref_of <$> genres (filters p))
                (newSet (genres (filters p))) (next_alloc h)
                (newSet_alloc_le _)) as H1.
  destruct (useMemo (memo_selectedGenres h) _ _ _) as [cG a1]; simpl in H1.
  pose proof (useMemo_alloc_le (memo_selectedInstruments h)
                (ref_of <$> instruments (filters p))
                (newSet (instruments (filters p))) a1 (newSet_alloc_le _)) as H2.
  destruct (useMemo (memo_selectedInstruments h) _ _ _) as [cI a2]; simpl in H2.
  pose proof (useMemo_alloc_le (memo_bpmRange h)
                (bpmMin (filters p), bpmMax (filters p))
                (newBpmRange (bpmMin (filters p)) (bpmMax (filters p))) a2
                (newBpmRange_alloc_le _ _)) as H3.
  destruct (useMemo (memo_bpmRange h) _ _ _) as [cB a3]; simpl in H3.
  pose proof (useMemo_alloc_le (memo_selectedKeys h) (ref_of <$> keys (filters p))
                (newSet (keys (filters p))) a3 (newSet_alloc_le _)) as H4.
  destruct (useMemo (memo_selectedKeys h) _ _ _) as [cK a4]; simpl in H4.
  pose proof (useMemo_alloc_le (memo_includeTags h) (ref_of <$> include (filters p))
                (newSet (include (filters p))) a4 (newSet_alloc_le _)) as H5.
  destruct (useMemo (memo_includeTags h) _ _ _) as [cInc a5]; simpl in H5.
  pose proof (useMemo_alloc_le (memo_excludeTags h) (ref_of <$> exclude (filters p))
                (newSet (exclude (filters p))) a5 (newSet_alloc_le _)) as H6.
  destruct (useMemo (memo_excludeTags h) _ _ _) as [cExc a6]; simpl in H6.
  exists (val (snd cG)), (val <$> snd cB), (val (snd cK)), (val (snd cI)),
    (val (snd cInc)), (val (snd cExc)),
    (ref_of (samples p), ref (snd cG), ref <$> snd cB, ref (snd cK)),
    (ref (snd cI)), (ref (snd cInc)), (ref (snd cExc)), a6.
  split; [lia|]. cbv zeta.
  destruct (useMemo (memo_filtered h) _ _ a6) as [cF a7] eqn:HF.
  unfold typeOf, queryOf, sortByOf. simpl. done.
Qed.

Lemma committed_alloc_ok p h : committed p h -> alloc_ok h.
Proof.
  intros (dF & oF & Hm & _ & _ & _ & Ha) dF' oF' n Hm' Hr.
  rewrite Hm in Hm'. injection Hm' as <- <-. by apply Ha.
Qed.

Lemma applyFiltersObj_ref samples G R K T I inc exc query a :
  let r := applyFiltersObj samples G R K T I inc exc query a in
  (anyStage G R K T I inc exc query = true
   /\ ref r.1 = Allocated a /\ r.2 = S a)
  \/ (anyStage G R K T I inc exc query = false
      /\ ref r.1 = ref_of samples /\ r.2 = a).
Proof.
  unfold applyFiltersObj. destruct (anyStage _ _ _ _ _ _ _ _); simpl; tauto.
Qed.

Lemma render_committed p h : alloc_ok h -> committed p (render p h).
Proof.
  intros Hok.
  destruct (render_spec p h)
    as (G & R & K & I & inc & exc & d & dI & dInc & dExc & a & Ha & Hr).
  cbv zeta in Hr. destruct Hr as (Hm & Hn & Hs & He & _).
  unfold committed. rewrite Hm, Hn, Hs, He. clear Hm Hn Hs He.
  unfold useMemo.
  destruct (memo_filtered h) as [[d0 v0]|] eqn:Hcell;
    [destruct (decide (d0 = _)) as [->|Hne]|].
  - eexists _, _. simpl. repeat split; try done.
    intros n Hr. specialize (Hok _ _ _ Hcell Hr). lia.
  - pose proof (applyFiltersObj_ref (samples p) G R K (typeOf p) I inc exc
                  (queryOf p) a) as Hf.
    destruct (applyFiltersObj _ _ _ _ _ _ _ _ _ a) as [v' a'].
    eexists _, _. simpl in *. repeat split; try done.
    intros n Hr. destruct Hf as [(_ & Hf & ->)|(_ & Hf & ->)];
      rewrite Hf in Hr; [injection Hr as <-; lia | done].
  - pose proof (applyFiltersObj_ref (samples p) G R K (typeOf p) I inc exc
                  (queryOf p) a) as Hf.
    destruct (applyFiltersObj _ _ _ _ _ _ _ _ _ a) as [v' a'].
    eexists _, _. simpl in *. repeat split; try done.
    intros n Hr. destruct Hf as [(_ & Hf & ->)|(_ & Hf & ->)];
      rewrite Hf in Hr; [injection Hr as <-; lia | done].
Qed.

Lemma handle_committed e st :
  committed st.1 st.2 -> committed (handle e st).1 (handle e st).2.
Proof.
  destruct st as [p h]. intros Hc. apply committed_alloc_ok in Hc.
  destruct e; simpl; by apply render_committed.
Qed.

Lemma run_committed p0 es : committed (run p0 es).1 (run p0 es).2.
Proof.
  unfold run.
  assert (H0 : committed (p0, render p0 mount).1 (p0, render p0 mount).2).
  { apply render_committed. by intros dF oF n H. }
  revert H0. generalize (p0, render p0 mount).
  induction es as [|e es IH]; intros st Hst; simpl; [done|].
  apply IH. by apply handle_committed.
Qed.

Lemma displayed_lookup (sorted : list Sample) (pg i : nat) :
  displayed sorted pg !! i
  = if i <? PAGE_SIZE then sorted !! (PAGE_SIZE * pg + i) else None.
Proof.
  unfold displayed, slice.
  replace ((pg + 1) * PAGE_SIZE - pg * PAGE_SIZE) with PAGE_SIZE by lia.
  destruct (Nat.ltb_spec i PAGE_SIZE).
  - rewrite lookup_take_lt, lookup_drop by done. f_equal. lia.
  - by rewrite lookup_take_ge.
Qed.

Lemma reshuffle_resets p h : committed p h -> page (render p (bumpShuffleSeed h)) = 0.
Proof.
  intros (dF & oF & _ & _ & _ & He & _).
  destruct (render_spec p (bumpShuffleSeed h))
    as (G & R & K & I & inc & exc & d & dI & dInc & dExc & a & _ & Hr).
  cbv zeta in Hr. destruct Hr as (_ & _ & _ & _ & ->).
  simpl. rewrite He. case_decide as Heq; [|done].
  inversion Heq. lia.
Qed.

Lemma new_props_reset p h p' :
  committed p h -> resetsPage p' (p, h) -> page (render p' h) = 0.
Proof.
  intros (dF & oF & Hm & Hq & Ht & He & Hfresh) Hchange.
  unfold resetsPage, filteredRef, filteredOf in Hchange. simpl in Hchange.
  destruct (render_spec p' h)
    as (G & R & K & I & inc & exc & d & dI & dInc & dExc & a & Ha & Hr).
  cbv zeta in Hr. destruct Hr as (Hm' & _ & _ & _ & ->).
  rewrite He. case_decide as Heq; [exfalso|done].
  injection Heq as Href Hsort.
  rewrite Hm', Hm in Hchange. simpl in Hchange.
  assert (Hrecomputed :
            dF <> (d, typeOf p', dI, dInc, dExc, queryOf p') ->
            anyStage G R K (typeOf p') I inc exc (queryOf p') = true ->
            False).
  { intros Hne Hany. rewrite Hm in Href. unfold useMemo in Href.
    destruct (decide (dF = _)) as [|_]; [done|].
    pose proof (applyFiltersObj_ref (samples p') G R K (typeOf p') I inc exc
                  (queryOf p') a) as Hf.
    destruct (applyFiltersObj _ _ _ _ _ _ _ _ _ a) as [v' a'].
    simpl in *. destruct Hf as [(_ & Hf & _)|(Hf & _)]; [|congruence].
    rewrite Hf in Href. apply Hfresh in Href. lia. }
  destruct Hchange as [Hs|[[Hq' Hlen]|[[Ht' Hall]|Hr]]].
  - done.
  - apply Hrecomputed.
    + intros ->. simpl in Hq. congruence.
    + unfold anyStage. apply Nat.leb_le in Hlen. by rewrite Hlen.
  - apply Hrecomputed.
    + intros ->. simpl in Ht. congruence.
    + unfold anyStage. rewrite (bool_decide_eq_false_2 _ Hall). simpl.
      by rewrite !orb_true_r.
  - apply Hr. rewrite Hm in Href. by rewrite Href.
Qed.

(** X24. A page holds 50 entries: entry [i] of page [p]
    is entry [50 * p + i] of the sorted list for [i < 50], and there is no
    further entry. After any history of the browser, a reshuffle request
    resets the page index to 0, and so do new props that change the sort
    key, or the query to one of at least two characters, or the sample type
    to oneshot or loop, or that in any other way make the render yield a
    new [filtered] array. *)
Theorem page_size_and_reset :
  (forall (sorted : list Sample) pg i,
     displayed sorted pg !! i
     = if i <? 50 then sorted !! (50 * pg + i) else None)
  /\ (forall p0 es, page (handle Reshuffle (run p0 es)).2 = 0)
  /\ (forall p0 es p',
        resetsPage p' (run p0 es) ->
        page (handle (NewProps p') (run p0 es)).2 = 0).
Proof.
  split; [exact displayed_lookup|]. split.
  - intros p0 es. pose proof (run_committed p0 es) as Hc.
    destruct (run p0 es) as [p h]. simpl. by apply reshuffle_resets.
  - intros p0 es p' Hchange. pose proof (run_committed p0 es) as Hc.
    destruct (run p0 es) as [p h]. simpl. by apply (new_props_reset p).
Qed.

End PageFacts.

(** X24, witness: the 120-sample browser on its second page, then switched
    from bpm to duration as sort key. *)
Lemma page_size_and_reset_witness :
  let rt := AsciiRuntime.ascii_runtime in
  let p' := handleFiltersChange
              (Some {| set_q := None; set_genres := None; set_instruments := None;
                       set_bpmMin := None; set_bpmMax := None; set_keys := None;
                       set_type := None; set_include := None; set_exclude := None;
                       set_sortBy := Some (Some ByDuration);
                       set_sortDir := Some None |}) demoProps in
  page (run demoProps [PickPage 1]).2 = 1
  /\ resetsPage p' (run demoProps [PickPage 1])
  /\ page (handle (NewProps p') (run demoProps [PickPage 1])).2 = 0.
Proof.
  intros rt p'.
  assert (Hc : resetsPage p' (run demoProps [PickPage 1])).
  { left. vm_compute. discriminate. }
  split; [reflexivity|]. split; [exact Hc|].
  exact (proj2 (proj2 page_size_and_reset) demoProps [PickPage 1] p' Hc).
Defined.

(** ** The waveform request queue *)

Lemma pop_spec queue item rest :
  pop queue = Some (item, rest) -> queue = rest ++ [item].
Proof.
  unfold pop. destruct (rev queue) as [|x l] eqn:E; [done|].
  intros [= <- <-]. rewrite <- (rev_involutive queue), E. done.
Qed.

Lemma processLoop_inv fuel s : queue_inv s -> queue_inv (processLoop fuel s).
Proof.
  revert s. induction fuel as [|fuel IH]; intros s Hs; simpl; [done|].
  destruct (_activeReqs s <? _MAX_CONCURRENT) eqn:Hfree; simpl; [|done].
  destruct (0 <? length (_queue s)); [|done].
  destruct (pop (_queue s)) as [[item rest]|] eqn:Hpop; [|done].
  apply pop_spec in Hpop. destruct Hs as [Ha Hslot Hw Hnd Hi].
  rewrite Hpop in Hw, Hnd. apply NoDup_app in Hnd as (Hnd & Hdisj & _).
  case_bool_decide as Hc.
  - apply IH. split; simpl; try done.
    intros i Hin. apply Hw, elem_of_app. by left.
  - apply Nat.ltb_lt in Hfree. unfold _MAX_CONCURRENT in *.
    split; simpl; unfold _MAX_CONCURRENT.
    + lia.
    + lia.
    + intros i Hin. destruct (Hw i) as [Hlt Hni]; [apply elem_of_app; by left|].
      split; [done|]. apply not_elem_of_cons. split; [|done].
      intros ->. apply (Hdisj item Hin), list_elem_of_here.
    + done.
    + intros i [->|Hin]%elem_of_cons; [|by apply Hi].
      apply Hw, elem_of_app. right. apply list_elem_of_here.
Qed.

Lemma processLoop_silenced item fuel s :
  silenced item s -> silenced item (processLoop fuel s).
Proof.
  revert s. induction fuel as [|fuel IH]; intros s Hs; simpl; [done|].
  destruct ((_activeReqs s <? _MAX_CONCURRENT) && (0 <? length (_queue s)));
    [|done].
  destruct (pop (_queue s)) as [[x rest]|]; [|done].
  destruct Hs as [Hc Hn]. case_bool_decide as Hx.
  - by apply IH.
  - split; simpl; [done|]. apply not_elem_of_cons. split; [|done].
    by intros ->.
Qed.

Lemma queue_step_inv s e : queue_inv s -> queue_inv (queue_step s e).
Proof.
  intros Hs. destruct e as [|item|item|]; simpl.
  - unfold _enqueue. simpl.
    assert (Hs1 : queue_inv
                    {| _activeReqs := _activeReqs s;
                       _queue := _queue s ++ [next_item s];
                       cancelled := cancelled s; next_item := S (next_item s);
                       running := running s; invoked := invoked s;
                       timers := timers s |}).
    { destruct Hs as [Ha Hslot Hw Hnd Hi]. split; simpl; try done.
      - intros i [Hin| ->%list_elem_of_singleton]%elem_of_app.
        + destruct (Hw i Hin). split; [lia | done].
        + split; [lia|]. intros Hin. apply Hi in Hin. lia.
      - apply NoDup_app. split; [done|]. split; [|apply NoDup_singleton].
        intros i Hin ->%list_elem_of_singleton. apply Hw in Hin. lia.
      - intros i Hin. apply Hi in Hin. lia. }
    destruct (_ <? _); [by apply processLoop_inv | done].
  - by destruct Hs.
  - unfold settle. case_bool_decide as Hin; [|done].
    destruct Hs as [Ha Hslot Hw Hnd Hi]. unfold _MAX_CONCURRENT in *.
    destruct (running s) as [|x [|y l]] eqn:Hr; simpl in *; [set_solver| |lia].
    apply list_elem_of_singleton in Hin as <-.
    split; simpl; rewrite ?Nat.eqb_refl; simpl; try done; lia.
  - unfold timerFires. destruct (timers s) as [|n] eqn:Ht; [done|].
    apply processLoop_inv. by destruct Hs.
Qed.

Lemma queue_step_silenced item s e :
  silenced item s -> silenced item (queue_step s e).
Proof.
  intros Hs. destruct e as [|x|x|]; simpl.
  - unfold _enqueue. simpl. destruct (_ <? _); [|done].
    by apply processLoop_silenced.
  - destruct Hs. split; simpl; [set_solver | done].
  - unfold settle. by case_bool_decide.
  - unfold timerFires. destruct (timers s); [done|].
    by apply processLoop_silenced.
Qed.

Lemma queue_run_inv es : queue_inv (queue_run es).
Proof.
  unfold queue_run.
  assert (H0 : queue_inv queue_init).
  { split; simpl; [done | unfold _MAX_CONCURRENT; lia | | apply NoDup_nil_2 | ];
      intros i Hin; by apply elem_of_nil in Hin. }
  revert H0. generalize queue_init.
  induction es as [|e es IH]; intros s Hs; simpl; [done|].
  apply IH. by apply queue_step_inv.
Qed.

(** C2. An item whose cancel function is called while it still waits in
    the queue never has its [fn] invoked, whatever happens afterwards; and
    at every moment at most one invoked [fn] is pending, which is what
    [_activeReqs] counts. *)
Theorem cancelled_before_pop_never_invoked :
  (forall pre post item,
     item ∈ _queue (queue_run pre) ->
     item ∉ invoked (queue_run (pre ++ Cancel item :: post)))
  /\ (forall es,
        length (running (queue_run es)) <= 1
        /\ _activeReqs (queue_run es) = length (running (queue_run es))).
Proof.
  split.
  - intros pre post item Hin. unfold queue_run. rewrite fold_left_app. simpl.
    fold (queue_run pre).
    assert (H0 : silenced item (cancel item (queue_run pre))).
    { split; simpl; [set_solver|]. by apply (inv_waiting _ (queue_run_inv pre)). }
    revert H0. generalize (cancel item (queue_run pre)).
    induction post as [|e post IH]; intros s Hs; simpl; [by destruct Hs|].
    apply IH. by apply queue_step_silenced.
  - intros es. destruct (queue_run_inv es) as [Ha Hslot _ _ _]. done.
Qed.

(** C2, witness: one request occupies the slot, a second one waits and is
    cancelled; the first settles and the scheduled [_processQueue] runs. *)
Lemma cancelled_before_pop_never_invoked_witness :
  1 ∈ _queue (queue_run [Enqueue; Enqueue])
  /\ (1 ∉ invoked (queue_run ([Enqueue; Enqueue] ++ Cancel 1 :: [Settle 0; TimerFires])))
  /\ invoked (queue_run [Enqueue; Enqueue; Settle 0; TimerFires]) = [1; 0].
Proof.
  assert (H : 1 ∈ _queue (queue_run [Enqueue; Enqueue])).
  { vm_compute. apply list_elem_of_here. }
  split; [exact H|]. split; [|reflexivity].
  exact (proj1 cancelled_before_pop_never_invoked
           [Enqueue; Enqueue] [Settle 0; TimerFires] 1 H).
Defined.

(** ** The replace map of the conflict dialog *)

Lemma assign_proto {V} key (value : V) obj :
  obj !! "__proto__" = None -> assign key value obj !! "__proto__" = None.
Proof.
  intros Hp. unfold assign.
  destruct (String.eqb_spec key "__proto__") as [->|Hne].
  - by rewrite Hp.
  - by rewrite lookup_insert_ne.
Qed.

Lemma assign_lookup {V} key (value : V) obj k :
  obj !! "__proto__" = None ->
  assign key value obj !! k
  = if bool_decide (k = key /\ key <> "__proto__") then Some value else obj !! k.
Proof.
  intros Hp. unfold assign.
  destruct (String.eqb_spec key "__proto__") as [->|Hne].
  - rewrite Hp. rewrite bool_decide_eq_false_2; [done|]. by intros [_ H].
  - destruct (decide (k = key)) as [->|Hk].
    + rewrite lookup_insert_eq. by rewrite bool_decide_eq_true_2.
    + rewrite lookup_insert_ne by done.
      rewrite bool_decide_eq_false_2; [done|]. by intros [H _].
Qed.

Lemma replaceMapOf_snoc conflicts c decisions :
  replaceMapOf (conflicts ++ [c]) decisions
  = if bool_decide (decisions !! name c = Some Replace)
    then assign (name c) (existing_uuid c) (replaceMapOf conflicts decisions)
    else replaceMapOf conflicts decisions.
Proof. unfold replaceMapOf, handleConflictConfirm. simpl. by rewrite fold_left_app. Qed.

Lemma replaceMapOf_proto conflicts decisions :
  replaceMapOf conflicts decisions !! "__proto__" = None.
Proof.
  induction conflicts as [|c l IH] using rev_ind; [done|].
  rewrite replaceMapOf_snoc. case_bool_decide; [by apply assign_proto | done].
Qed.

Lemma lastNamed_snoc nm conflicts c :
  lastNamed nm (conflicts ++ [c])
  = if String.eqb (name c) nm then Some c else lastNamed nm conflicts.
Proof.
  unfold lastNamed. rewrite List.filter_app. cbn [List.filter].
  destruct (String.eqb (name c) nm); [apply last_snoc | by rewrite app_nil_r].
Qed.

Lemma lastNamed_Some nm conflicts :
  is_Some (lastNamed nm conflicts) <-> exists c, c ∈ conflicts /\ name c = nm.
Proof.
  induction conflicts as [|c l IH] using rev_ind.
  - split; [by intros [x Hx] | by intros (c & Hin%elem_of_nil & _)].
  - rewrite lastNamed_snoc. destruct (String.eqb_spec (name c) nm) as [Hn|Hn].
    + split; [|by eexists]. intros _. exists c.
      split; [apply elem_of_app; right; apply list_elem_of_here | done].
    + rewrite IH. split.
      * intros (c' & Hin & H). exists c'. split; [apply elem_of_app; by left | done].
      * intros (c' & [Hin| ->%list_elem_of_singleton]%elem_of_app & H);
          [by exists c' | done].
Qed.

Lemma replaceMapOf_lookup conflicts decisions nm :
  replaceMapOf conflicts decisions !! nm
  = if bool_decide (nm <> "__proto__" /\ decisions !! nm = Some Replace)
    then existing_uuid <$> lastNamed nm conflicts
    else None.
Proof.
  induction conflicts as [|c l IH] using rev_ind; [by case_bool_decide|].
  rewrite replaceMapOf_snoc, lastNamed_snoc.
  pose proof (replaceMapOf_proto l decisions) as Hproto.
  destruct (decide (decisions !! name c = Some Replace)) as [Hd|Hd].
  - rewrite (bool_decide_eq_true_2 _ Hd), (assign_lookup _ _ _ _ Hproto).
    destruct (String.eqb_spec (name c) nm) as [Hn|Hn].
    + subst nm. destruct (decide (name c = "__proto__")) as [Hp|Hp].
      * rewrite IH, !bool_decide_eq_false_2; [done| |]; by intros [H H'].
      * by rewrite !bool_decide_eq_true_2.
    + rewrite (bool_decide_eq_false_2 (nm = name c /\ _)); [done|].
      by intros [H _].
  - rewrite (bool_decide_eq_false_2 _ Hd), IH.
    destruct (String.eqb_spec (name c) nm) as [Hn|Hn]; [|done].
    subst nm. rewrite bool_decide_eq_false_2; [done|]. by intros [_ H].
Qed.

Lemma replaceMapOf_dom conflicts decisions nm :
  is_Some (replaceMapOf conflicts decisions !! nm)
  <-> (exists c, c ∈ conflicts /\ name c = nm)
      /\ decisions !! nm = Some Replace
      /\ nm <> "__proto__".
Proof.
  rewrite replaceMapOf_lookup, <- lastNamed_Some. case_bool_decide as Hd.
  - rewrite fmap_is_Some. tauto.
  - split; [by intros [x Hx] | tauto].
Qed.

(** C7. For every name but one the replace map handed to the import is as
    intended: a name other than "__proto__" is in the map exactly when it is
    the name of a conflict and the decision recorded for it is "replace",
    and it is mapped to the [existing_uuid] of the last conflict of that
    name; names decided "add as new" and names without conflict are absent.
    The name "__proto__" is never in the map. For a conflict of that name
    the dialog does not record the initial decision "replace", and after
    the user has chosen "replace" for it the map handed over is empty: the
    pack is imported as new. *)
Theorem replace_map_loses_proto_name :
  (forall (selected : gset string) (conflicts : list PackConflict)
          (decisions : gmap string ConflictAction) (nm : string),
     (handleConflictConfirm selected conflicts decisions).2 !! nm
     = if bool_decide (nm <> "__proto__" /\ decisions !! nm = Some Replace)
       then existing_uuid <$> lastNamed nm conflicts
       else None)
  /\ (forall (selected : gset string),
        let decisions :=
          setDecision protoConflict Replace (initDecisions [protoConflict]) in
        initDecisions [protoConflict] = ∅
        /\ decisions !! name protoConflict = Some Replace
        /\ (handleConflictConfirm selected [protoConflict] decisions).2 = ∅).
Proof.
  split.
  - intros selected conflicts decisions nm.
    apply (replaceMapOf_lookup conflicts decisions nm).
  - intros selected decisions. split; [reflexivity|]. split; [reflexivity|].
    apply map_eq. intros nm. rewrite lookup_empty.
    change ((handleConflictConfirm selected [protoConflict] decisions).2)
      with (replaceMapOf [protoConflict] decisions).
    apply eq_None_not_Some. rewrite replaceMapOf_dom.
    intros [(c & Hin%list_elem_of_singleton & Hn) [_ Hp]]. by subst.
Qed.

(** ** The selection of the folder tree *)

Lemma onToggleSelect_present path sel :
  path ∈ sel -> onToggleSelect path sel = sel ∖ {[path]}.
Proof. intros Hin. unfold onToggleSelect. by rewrite bool_decide_eq_true_2. Qed.

Lemma onToggleSelect_absent path sel p :
  path ∉ sel ->
  p ∈ onToggleSelect path sel
  <-> p = path
      \/ (p ∈ sel
          /\ Str.startsWith p (String.append path "/") = false
          /\ Str.startsWith path (String.append p "/") = false).
Proof.
  intros Hni. unfold onToggleSelect. rewrite bool_decide_eq_false_2 by done.
  rewrite elem_of_union, !elem_of_filter, elem_of_singleton. tauto.
Qed.

Lemma onToggleSelect_unnested path sel :
  unnested sel -> unnested (onToggleSelect path sel).
Proof.
  intros Hsel. destruct (decide (path ∈ sel)) as [Hin|Hni].
  - rewrite onToggleSelect_present by done.
    intros p q [Hp _]%elem_of_difference [Hq _]%elem_of_difference. by apply Hsel.
  - intros p q Hp Hq Hne.
    apply (onToggleSelect_absent _ _ _ Hni) in Hp as [->|(Hp & Hp1 & Hp2)];
      apply (onToggleSelect_absent _ _ _ Hni) in Hq as [->|(Hq & Hq1 & Hq2)];
      try done.
    by apply Hsel.
Qed.

Lemma selectionAfter_unnested paths : unnested (selectionAfter paths).
Proof.
  unfold selectionAfter.
  assert (H0 : unnested ∅) by (by intros p q Hp%not_elem_of_empty).
  revert H0. generalize (∅ : gset string).
  induction paths as [|path paths IH]; intros sel Hsel; simpl; [done|].
  apply IH. by apply onToggleSelect_unnested.
Qed.

Lemma isChildOfAny_spec path (paths : gset string) :
  isChildOfAny path paths = true
  <-> exists p, p ∈ paths /\ p <> path
                /\ Str.startsWith path (String.append p "/") = true.
Proof.
  unfold isChildOfAny. rewrite existsb_exists. split.
  - intros (p & Hin & [Hne Hpre]%andb_true_iff). exists p.
    apply list_elem_of_In, elem_of_elements in Hin.
    apply negb_true_iff, String.eqb_neq in Hne. done.
  - intros (p & Hin & Hne & Hpre). exists p. split.
    + by apply list_elem_of_In, elem_of_elements.
    + apply String.eqb_neq in Hne. by rewrite Hne, Hpre.
Qed.

(** C9. Whatever paths are toggled, in whatever order, starting from the
    empty selection, the selection never holds two distinct paths of which
    one, extended with "/", is a prefix of the other, so [isChildOfAny] is
    false of every selected path. Toggling a path that is not selected
    selects it and leaves, of the earlier selection, exactly the paths that
    are neither below nor above it; toggling a selected path only removes
    it. *)
Theorem selection_never_nested :
  (forall paths p q,
     p ∈ selectionAfter paths -> q ∈ selectionAfter paths -> p <> q ->
     Str.startsWith q (String.append p "/") = false)
  /\ (forall paths p,
        p ∈ selectionAfter paths -> isChildOfAny p (selectionAfter paths) = false)
  /\ (forall path sel p,
        path ∉ sel ->
        p ∈ onToggleSelect path sel
        <-> p = path
            \/ (p ∈ sel
                /\ Str.startsWith p (String.append path "/") = false
                /\ Str.startsWith path (String.append p "/") = false))
  /\ (forall path sel, path ∈ sel -> onToggleSelect path sel = sel ∖ {[path]}).
Proof.
  split; [exact selectionAfter_unnested|]. split.
  - intros paths p Hp. apply not_true_iff_false.
    intros (q & Hq & Hne & Hpre)%isChildOfAny_spec.
    by rewrite (selectionAfter_unnested paths q p) in Hpre.
  - split; [exact onToggleSelect_absent | exact onToggleSelect_present].
Qed.

(** C9, witness: a child, then its parent, then a sibling folder; then the
    parent is toggled off again. *)
Lemma selection_never_nested_witness :
  let paths := ["/in/a/b"; "/in/a"; "/in/c"] in
  selectionAfter paths = {[ "/in/a"; "/in/c" ]}
  /\ Str.startsWith "/in/c" (String.append "/in/a" "/") = false
  /\ isChildOfAny "/in/a" (selectionAfter paths) = false
  /\ ("/in/a" ∈ onToggleSelect "/in/a" {[ "/in/a/b" ]}
      <-> "/in/a" = "/in/a"
          \/ ("/in/a" ∈ ({[ "/in/a/b" ]} : gset string)
              /\ Str.startsWith "/in/a" (String.append "/in/a" "/") = false
              /\ Str.startsWith "/in/a" (String.append "/in/a" "/") = false))
  /\ onToggleSelect "/in/a" (selectionAfter paths)
     = selectionAfter paths ∖ {[ "/in/a" ]}.
Proof.
  intros paths.
  destruct selection_never_nested as (Hall & Hchild & Hadd & Hdel).
  assert (Ha : "/in/a" ∈ selectionAfter paths)
    by (apply (bool_decide_unpack _); vm_compute; exact I).
  assert (Hc : "/in/c" ∈ selectionAfter paths)
    by (apply (bool_decide_unpack _); vm_compute; exact I).
  split; [apply (bool_decide_unpack _); vm_compute; exact I|].
  split; [apply (Hall paths "/in/a" "/in/c" Ha Hc); discriminate|].
  split; [exact (Hchild paths "/in/a" Ha)|].
  split; [apply Hadd; apply (bool_decide_unpack _); vm_compute; exact I|].
  exact (Hdel "/in/a" (selectionAfter paths) Ha).
Defined.

(** ** The include / exclude tag sets *)

Lemma cycleTag_sets tag (inc exc : gset string) :
  tagSets (cycleTag tag inc exc)
  = if bool_decide (tag ∈ inc) then (inc ∖ {[tag]}, exc ∪ {[tag]})
    else if bool_decide (tag ∈ exc) then (inc, exc ∖ {[tag]})
    else (inc ∪ {[tag]}, exc).
Proof.
  unfold cycleTag, tagSets.
  repeat case_bool_decide; simpl; by rewrite !list_to_set_elements_L.
Qed.

Lemma removeTag_sets tag (inc exc : gset string) :
  tagSets (removeTag tag inc exc) = (inc ∖ {[tag]}, exc ∖ {[tag]}).
Proof. unfold removeTag, tagSets. simpl. by rewrite !list_to_set_elements_L. Qed.

Lemma applyTagOp_disjoint sets op :
  sets.1 ## sets.2 -> (applyTagOp sets op).1 ## (applyTagOp sets op).2.
Proof.
  destruct sets as [inc exc]. intros Hd.
  destruct op as [tag|tag]; unfold applyTagOp; cbn [fst snd] in *.
  - rewrite cycleTag_sets. repeat case_bool_decide; simpl; set_solver.
  - rewrite removeTag_sets. simpl. set_solver.
Qed.

(** C10. From disjoint include and exclude sets, any sequence of
    [cycleTag] and [removeTag] leads to disjoint sets. One [cycleTag] moves
    its tag one step along none, include, exclude, none and changes the
    membership of no other tag; [removeTag] takes its tag out of both sets
    and changes no other tag. *)
Theorem tag_sets_stay_disjoint :
  forall (includeTags excludeTags : gset string),
    includeTags ## excludeTags ->
    (forall ops,
       (fold_left applyTagOp ops (includeTags, excludeTags)).1
       ## (fold_left applyTagOp ops (includeTags, excludeTags)).2)
    /\ (forall tag,
          let next := tagSets (cycleTag tag includeTags excludeTags) in
          (next.1 ## next.2)
          /\ tagState tag next
             = nextTagState (tagState tag (includeTags, excludeTags))
          /\ (tagState tag (includeTags, excludeTags) = TagNone
              <-> (tag ∉ includeTags) /\ (tag ∉ excludeTags))
          /\ (tagState tag (includeTags, excludeTags) = TagInclude
              <-> (tag ∈ includeTags) /\ (tag ∉ excludeTags))
          /\ (tagState tag (includeTags, excludeTags) = TagExclude
              <-> (tag ∉ includeTags) /\ (tag ∈ excludeTags))
          /\ (forall other, other <> tag ->
                (other ∈ next.1 <-> other ∈ includeTags)
                /\ (other ∈ next.2 <-> other ∈ excludeTags)))
    /\ (forall tag,
          let next := tagSets (removeTag tag includeTags excludeTags) in
          (next.1 ## next.2)
          /\ (tag ∉ next.1) /\ (tag ∉ next.2)
          /\ (forall other, other <> tag ->
                (other ∈ next.1 <-> other ∈ includeTags)
                /\ (other ∈ next.2 <-> other ∈ excludeTags))).
Proof.
  intros inc exc Hd. split; [|split].
  - intros ops.
    change (inc ## exc) with ((inc, exc).1 ## (inc, exc).2) in Hd.
    revert Hd. generalize (inc, exc).
    induction ops as [|op ops IH]; intros sets Hs; simpl; [done|].
    apply IH. by apply applyTagOp_disjoint.
  - intros tag next. subst next. rewrite cycleTag_sets. unfold tagState. simpl.
    repeat case_bool_decide; simpl; repeat case_bool_decide;
      repeat split; intros; try done; set_solver.
  - intros tag next. subst next. rewrite removeTag_sets. simpl.
    repeat split; intros; set_solver.
Qed.

(** C10, witness: "kick" included, "snare" excluded, "hat" cycled three
    times. *)
Lemma tag_sets_stay_disjoint_witness :
  let inc : gset string := {[ "kick" ]} in
  let exc : gset string := {[ "snare" ]} in
  (inc ## exc)
  /\ tagState "hat" (fold_left applyTagOp [CycleTag "hat"] (inc, exc)) = TagInclude
  /\ tagState "hat" (fold_left applyTagOp [CycleTag "hat"; CycleTag "hat"] (inc, exc))
     = TagExclude
  /\ fold_left applyTagOp [CycleTag "hat"; CycleTag "hat"; CycleTag "hat"] (inc, exc)
     = (inc, exc)
  /\ (fold_left applyTagOp [CycleTag "hat"; CycleTag "kick"; RemoveTag "snare"]
        (inc, exc)).1
     ## (fold_left applyTagOp [CycleTag "hat"; CycleTag "kick"; RemoveTag "snare"]
           (inc, exc)).2.
Proof.
  intros inc exc.
  assert (Hd : inc ## exc) by (apply (bool_decide_unpack _); vm_compute; exact I).
  split; [exact Hd|].
  split; [vm_compute; reflexivity|].
  split; [vm_compute; reflexivity|].
  split; [apply (bool_decide_unpack _); vm_compute; exact I|].
  exact (proj1 (tag_sets_stay_disjoint inc exc Hd)
           [CycleTag "hat"; CycleTag "kick"; RemoveTag "snare"]).
Defined.

(** ** downsample *)

Lemma windowMax_origin peaks j count m :
  windowMax peaks j count m = m \/ In (windowMax peaks j count m) peaks.
Proof.
  revert j m. induction count as [|count IH]; intros j m; simpl; [by left|].
  unfold exceeds. destruct (peaks !! j) as [v|] eqn:Hj; simpl; [|apply IH].
  destruct (negb (Qle_bool v m)); [|apply IH].
  destruct (IH (S j) v) as [-> | Hin]; [|by right].
  right. apply list_elem_of_In. by apply list_elem_of_lookup_2 in Hj.
Qed.

(** What [downsample] keeps of the intended behaviour whatever the
    rounding of the window bounds: short inputs are returned as they are,
    long inputs give [target] values, each of them 0 or one of the peaks,
    hence within [0,1] when the peaks are. *)
Lemma downsample_shape peaks target :
  (length peaks <= target -> downsample peaks target = peaks)
  /\ (target < length peaks ->
      length (downsample peaks target) = target
      /\ Forall (fun v => v = 0%Q \/ In v peaks) (downsample peaks target))
  /\ (Forall (fun v => (0 <= v <= 1)%Q) peaks ->
      Forall (fun v => (0 <= v <= 1)%Q) (downsample peaks target)).
Proof.
  unfold downsample. destruct (Nat.leb_spec (length peaks) target) as [Hle|Hlt].
  - split; [done|]. split; [lia | done].
  - split; [lia|].
    assert (Hall : Forall (fun v => v = 0%Q \/ In v peaks)
                     (map (fun i =>
                             windowMax peaks
                               (floor (num i * (num (length peaks) / num target)))
                               (floor (num (i + 1) * (num (length peaks) / num target))
                                - floor (num i * (num (length peaks) / num target)))
                               0%Q)
                          (seq 0 target))).
    { apply List.Forall_forall. intros v (i & <- & _)%in_map_iff.
      apply windowMax_origin. }
    split.
    + intros _. split; [by rewrite length_map, length_seq | done].
    + intros Hrange. eapply Forall_impl; [exact Hall|].
      intros v [-> | Hin]; [done|].
      by apply (proj1 (List.Forall_forall _ _) Hrange).
Qed.

Lemma windowMax_spec peaks : forall count j m,
  (m <= windowMax peaks j count m)%Q
  /\ (forall k x, j <= k < j + count -> peaks !! k = Some x ->
                  (x <= windowMax peaks j count m)%Q)
  /\ (windowMax peaks j count m = m
      \/ exists k, j <= k < j + count
                   /\ peaks !! k = Some (windowMax peaks j count m)).
Proof.
  induction count as [|count IH]; intros j m; cbn [windowMax].
  - split; [apply Qle_refl|]. split; [intros k x Hk; lia | by left].
  - set (m' := if exceeds peaks j m then default m (peaks !! j) else m).
    destruct (IH (S j) m') as (Hge & Hall & Horigin).
    assert (Hstep : (m <= m')%Q
                    /\ (forall x, peaks !! j = Some x -> (x <= m')%Q)
                    /\ (m' = m \/ peaks !! j = Some m')).
    { subst m'. unfold exceeds. destruct (peaks !! j) as [x|]; cbn.
      - destruct (Qle_bool x m) eqn:Hle; cbn.
        + split; [apply Qle_refl|]. split; [|by left].
          intros y [= <-]. by apply Qle_bool_iff.
        + split; [|split; [intros y [= <-]; apply Qle_refl | by right]].
          apply Qlt_le_weak, Qnot_le_lt. intros H%Qle_bool_iff. congruence.
      - split; [apply Qle_refl|]. split; [done | by left]. }
    destruct Hstep as (Hm & Hj & Hm').
    split; [by apply (Qle_trans _ m')|]. split.
    + intros k x Hk Hx. destruct (decide (k = j)) as [->|Hne].
      * apply (Qle_trans _ m'); [by apply Hj | done].
      * apply (Hall k x); [lia | done].
    + destruct Horigin as [Hv|(k & Hk & Hx)].
      * rewrite Hv. destruct Hm' as [->|Hx]; [by left|].
        right. exists j. split; [lia | done].
      * right. exists k. split; [lia | done].
Qed.

(** C8, as the code has it. Short inputs are returned as they are. A longer
    input gives [target] values; value [i] is the greatest of 0 and the
    peaks of the window from [windowBound i] up to, not including,
    [windowBound (i + 1)], the bounds being the floors of the rounded
    products [i * (peaks.length / target)]: it is at least every peak of
    the window, and it is 0 or one of them. With peaks in [0,1] every value
    is in [0,1]. *)
Theorem downsample_takes_window_maxima :
  forall (peaks : list Q) (target : nat),
    (length peaks <= target -> downsample peaks target = peaks)
    /\ (target < length peaks ->
        length (downsample peaks target) = target
        /\ forall i, i < target ->
             exists v,
               downsample peaks target !! i = Some v
               /\ (0 <= v)%Q
               /\ (forall j x,
                     windowBound peaks target i <= j < windowBound peaks target (i + 1) ->
                     peaks !! j = Some x -> (x <= v)%Q)
               /\ (v = 0%Q
                   \/ exists j,
                        windowBound peaks target i <= j < windowBound peaks target (i + 1)
                        /\ peaks !! j = Some v))
    /\ (Forall (fun v => (0 <= v <= 1)%Q) peaks ->
        Forall (fun v => (0 <= v <= 1)%Q) (downsample peaks target)).
Proof.
  intros peaks target.
  destruct (downsample_shape peaks target) as (Hshort & Hlong & Hrange).
  split; [exact Hshort|]. split; [|exact Hrange].
  intros Hlt. split; [by apply Hlong|].
  intros i Hi. unfold downsample.
  destruct (Nat.leb_spec (length peaks) target) as [Hle|_]; [lia|].
  rewrite list_lookup_fmap, lookup_seq_lt by done. cbn.
  fold (windowBound peaks target i). fold (windowBound peaks target (i + 1)).
  set (start := windowBound peaks target i).
  set (end_ := windowBound peaks target (i + 1)).
  destruct (windowMax_spec peaks (end_ - start) start 0%Q) as (Hge & Hall & Horigin).
  eexists. split; [reflexivity|]. split; [exact Hge|]. split.
  - intros j x Hj Hx. apply (Hall j x); [lia | done].
  - destruct Horigin as [Hv|(k & Hk & Hx)]; [by left|].
    right. exists k. split; [lia | done].
Qed.

(** C8, witness: 208 frames for the 48 bars of the mini waveform. *)
Lemma downsample_takes_window_maxima_witness :
  length (downsample peaks208 48) = 48
  /\ Forall (fun v => (0 <= v <= 1)%Q) (downsample peaks208 48).
Proof.
  destruct (downsample_takes_window_maxima peaks208 48) as (_ & Hlong & Hrange).
  split.
  - apply Hlong. vm_compute. lia.
  - apply Hrange. unfold peaks208. simpl.
    repeat (constructor; [split; discriminate|]). constructor.
Defined.

(** C8, counterexample. The bounds of the windows are not those of exact
    arithmetic. For 208 peaks and the 48 bars of the mini waveform the
    product [27 * (208 / 48)] rounds below 117: the bound between bars 26 and
    27 is 116, and the peak at index 116 shows in bar 27 where the window
    [112, 117) of the claim puts it in bar 26. For 61 peaks and 7 bars the
    product [7 * (61 / 7)] rounds below 61, the last window ends at index 60
    and the final peak is not read: the code returns seven zeros where the
    window [52, 61) has maximum 1. *)
Theorem downsample_rounding_moves_windows :
  floor (num 7 * (num 61 / num 7)) = 60
  /\ 7 * 61 / 7 = 61
  /\ downsample peaks61 7 = repeat 0%Q 7
  /\ downsample_exact_windows peaks61 7 = repeat 0%Q 6 ++ [1%Q]
  /\ floor (num 27 * (num 208 / num 48)) = 116
  /\ 27 * 208 / 48 = 117
  /\ downsample peaks208 48 !! 26 = Some 0%Q
  /\ downsample peaks208 48 !! 27 = Some 1%Q
  /\ downsample_exact_windows peaks208 48 !! 26 = Some 1%Q
  /\ downsample_exact_windows peaks208 48 !! 27 = Some 0%Q.
Proof. vm_compute. repeat split. Qed.

(** * Further properties *)

(** ** The search kept in the route *)

Lemma setOf_nonEmptyArr arr : setOf (nonEmptyArr arr) = setOf arr.
Proof.
  unfold setOf, nonEmptyArr. destruct arr as [[i l]|]; simpl; [|done].
  by destruct l.
Qed.

Lemma or_empty_truthy (n : option string) :
  Str.or_empty (if Str.truthy n then n else None) = Str.or_empty n.
Proof.
  unfold Str.or_empty, Str.or_else, Str.truthy.
  destruct n as [s|]; simpl; [|done].
  destruct (String.eqb_spec s "") as [->|Hne]; simpl; [done|].
  by destruct (String.eqb_spec s "").
Qed.

Lemma derive_clean prev updates :
  derive (cleanSampleSearch prev updates) = derive (mergeSearch prev updates).
Proof.
  unfold derive, cleanSampleSearch, mergeSearch. simpl.
  rewrite !setOf_nonEmptyArr, or_empty_truthy.
  f_equal.
  - by destruct (spread (type prev) (set_type updates)) as [[]|].
  - by destruct (spread (sortBy prev) (set_sortBy updates)) as [[]|].
  - by destruct (spread (sortDir prev) (set_sortDir updates)) as [[]|].
Qed.

(** X1. Cleaning is invisible to the browser: the values the component
    derives from the cleaned search (query, selected sets, bpm range, type,
    sort key and direction) are those it would derive from the plain merge
    of the previous search with the updates. *)
Theorem clean_search_keeps_derived_values :
  forall prev updates,
    derive (cleanSampleSearch prev updates) = derive (mergeSearch prev updates).
Proof.
  intros prev updates. apply derive_clean.
Qed.

Lemma nonEmptyArr_idem arr : nonEmptyArr (nonEmptyArr arr) = nonEmptyArr arr.
Proof.
  unfold nonEmptyArr. destruct arr as [[i l]|]; [|done].
  simpl. destruct l; simpl; done.
Qed.

(** X2. Cleaning is idempotent: a cleaned search, cleaned again with no
    updates, is unchanged, so the search in the route is stable under
    repeated navigation. *)
Theorem clean_search_idempotent :
  forall prev updates,
    cleanSampleSearch (cleanSampleSearch prev updates) noUpdates
    = cleanSampleSearch prev updates.
Proof.
  intros prev updates. unfold cleanSampleSearch, noUpdates, spread. simpl.
  rewrite !nonEmptyArr_idem. f_equal.
  - destruct (match set_q updates with Some v => v | None => q prev end)
      as [s|]; simpl; [|done].
    destruct (String.eqb_spec s "") as [->|Hne]; simpl; [done|].
    by destruct (String.eqb_spec s "").
  - by destruct (match set_type updates with Some v => v | None => type prev end)
      as [[]|].
  - by destruct (match set_sortBy updates with Some v => v | None => sortBy prev end)
      as [[]|].
  - by destruct (match set_sortDir updates with Some v => v | None => sortDir prev end)
      as [[]|].
Qed.

(** ** Counters of the filter bar *)

Section BarFacts.
Context {rt : StringRuntime}.

Lemma applyFilters_no_stage samples G R K T I inc exc query :
  anyStage G R K T I inc exc query = false ->
  applyFilters samples G R K T I inc exc query = samples.
Proof.
  unfold anyStage, applyFilters. rewrite !orb_false_iff.
  intros (((((((Hq & HG) & HR) & HK) & HT) & HI) & Hinc) & Hexc).
  rewrite Hq, HG, HI, Hinc, Hexc, HK.
  apply bool_decide_eq_false in HR.
  apply negb_false_iff, bool_decide_eq_true in HT. subst T.
  destruct R as [r|]; [by destruct HR|]. done.
Qed.

(** X3. The counter behind the "clear filters" button is zero exactly when
    no stage of [applyFilters] other than the text stage is active; with
    the counter at zero and a query shorter than two characters the browser
    shows the sample list as it is. After [clearAll] the counter is zero,
    the query is empty and the whole list is shown. *)
Theorem active_count_tracks_stages :
  (forall d,
     activeCount d = 0
     <-> anyStage (Derived.selectedGenres d) (Derived.bpmRange d)
           (Derived.selectedKeys d) (Derived.sampleType d)
           (Derived.selectedInstruments d) (Derived.includeTags d)
           (Derived.excludeTags d) "" = false)
  /\ (forall samples d,
        activeCount d = 0 -> String.length (Derived.query d) < 2 ->
        filteredBy samples d = samples)
  /\ (forall p,
        activeCount (derive (filters (clearAll p))) = 0
        /\ Derived.query (derive (filters (clearAll p))) = ""
        /\ filteredBy (items (samples p)) (derive (filters (clearAll p)))
           = items (samples p)).
Proof.
  assert (Hiff : forall d,
             activeCount d = 0
             <-> anyStage (Derived.selectedGenres d) (Derived.bpmRange d)
                   (Derived.selectedKeys d) (Derived.sampleType d)
                   (Derived.selectedInstruments d) (Derived.includeTags d)
                   (Derived.excludeTags d) "" = false).
  { intros d. unfold activeCount, anyStage. simpl.
    rewrite !orb_false_iff, !Nat.ltb_ge, negb_false_iff, Nat.eqb_eq,
      negb_false_iff.
    destruct (bool_decide (is_Some (Derived.bpmRange d)));
      destruct (bool_decide (Derived.sampleType d = TypeAll)); simpl;
      split; intros H; repeat split; try done; lia. }
  split; [exact Hiff|]. split.
  - intros samples d Hc Hq. unfold filteredBy.
    apply applyFilters_no_stage. apply Hiff in Hc.
    unfold anyStage in *. apply Nat.leb_gt in Hq. by rewrite Hq.
  - intros p. by repeat split.
Qed.

Lemma typePred_decide T s :
  typePred T s = bool_decide (sample_type s = Some (SampleType_str T)).
Proof.
  unfold typePred. destruct (sample_type s) as [t|]; [|done].
  destruct (String.eqb_spec t (SampleType_str T)) as [->|Hne].
  - by rewrite bool_decide_eq_true_2.
  - rewrite bool_decide_eq_false_2; [done | congruence].
Qed.

Lemma count_fold (samples : list Sample) (os lp : nat) :
  fold_left
    (fun '(os, lp) s =>
       if bool_decide (sample_type s = Some "oneshot") then (os + 1, lp)
       else if bool_decide (sample_type s = Some "loop") then (os, lp + 1)
       else (os, lp))
    samples (os, lp)
  = (os + length (List.filter (typePred TypeOneshot) samples),
     lp + length (List.filter (typePred TypeLoop) samples)).
Proof.
  revert os lp. induction samples as [|s l IH]; intros os lp; simpl.
  - f_equal; lia.
  - rewrite !typePred_decide. simpl SampleType_str.
    repeat case_bool_decide; try congruence; rewrite IH; simpl; f_equal; lia.
Qed.

(** X4. The two numbers of [typeCounts] are the numbers of samples the
    type filter keeps for "oneshot" and for "loop" when nothing else is
    filtered, and together they never exceed the number of samples. *)
Theorem type_counts_match_type_filter :
  forall samples,
    typeCounts samples
    = (length (applyFilters samples ∅ None ∅ TypeOneshot ∅ ∅ ∅ ""),
       length (applyFilters samples ∅ None ∅ TypeLoop ∅ ∅ ∅ ""))
    /\ (typeCounts samples).1 + (typeCounts samples).2 <= length samples.
Proof.
  intros samples. unfold typeCounts. rewrite count_fold. simpl. split.
  - unfold applyFilters. by rewrite size_empty.
  - induction samples as [|s l IH]; simpl; [lia|].
    rewrite !typePred_decide. simpl SampleType_str.
    repeat case_bool_decide; try congruence; simpl; lia.
Qed.

End BarFacts.

(** X3, witness: no filter but a one-letter query. *)
Lemma active_count_tracks_stages_witness :
  let rt := AsciiRuntime.ascii_runtime in
  let d := derive (cleanSampleSearch emptySearch
                     {| set_q := Some (Some "k"); set_genres := None;
                        set_instruments := None; set_bpmMin := None;
                        set_bpmMax := None; set_keys := None; set_type := None;
                        set_include := None; set_exclude := None;
                        set_sortBy := None; set_sortDir := None |}) in
  activeCount d = 0
  /\ filteredBy (items (samples demoProps)) d = items (samples demoProps).
Proof.
  intros rt d.
  assert (Hc : activeCount d = 0) by reflexivity.
  split; [exact Hc|].
  apply (proj1 (proj2 active_count_tracks_stages) (items (samples demoProps)) d Hc).
  vm_compute. lia.
Defined.

(** ** Handlers of the filter bar *)

Lemma derive_type_click filters :
  derive (clickType filters)
  = {| Derived.query := Derived.query (derive filters);
       Derived.selectedGenres := Derived.selectedGenres (derive filters);
       Derived.selectedInstruments := Derived.selectedInstruments (derive filters);
       Derived.bpmRange := Derived.bpmRange (derive filters);
       Derived.selectedKeys := Derived.selectedKeys (derive filters);
       Derived.sampleType := nextSampleType (Derived.sampleType (derive filters));
       Derived.includeTags := Derived.includeTags (derive filters);
       Derived.excludeTags := Derived.excludeTags (derive filters);
       Derived.sortBy := Derived.sortBy (derive filters);
       Derived.sortDir := Derived.sortDir (derive filters) |}.
Proof.
  unfold clickType. rewrite derive_clean.
  unfold derive, mergeSearch, typeButtonClick. simpl.
  f_equal. by destruct (type filters) as [[]|].
Qed.

(** X5. A click on the type button moves the sample type one step along
    all, oneshot, loop, all and changes no other derived value; three
    clicks bring the browser back to the values it started from. *)
Theorem type_button_cycles :
  forall filters,
    Derived.sampleType (derive (clickType filters))
    = nextSampleType (Derived.sampleType (derive filters))
    /\ derive (clickType filters)
       = {| Derived.query := Derived.query (derive filters);
            Derived.selectedGenres := Derived.selectedGenres (derive filters);
            Derived.selectedInstruments :=
              Derived.selectedInstruments (derive filters);
            Derived.bpmRange := Derived.bpmRange (derive filters);
            Derived.selectedKeys := Derived.selectedKeys (derive filters);
            Derived.sampleType :=
              nextSampleType (Derived.sampleType (derive filters));
            Derived.includeTags := Derived.includeTags (derive filters);
            Derived.excludeTags := Derived.excludeTags (derive filters);
            Derived.sortBy := Derived.sortBy (derive filters);
            Derived.sortDir := Derived.sortDir (derive filters) |}
    /\ derive (clickType (clickType (clickType filters))) = derive filters.
Proof.
  intros filters. split; [by rewrite derive_type_click|].
  split; [apply derive_type_click|].
  rewrite !derive_type_click. unfold derive. simpl. f_equal.
  by destruct (type filters) as [[]|].
Qed.

Lemma toggled_set (x : string) (selected : gset string) (y : string) :
  y ∈ (list_to_set (toggled x selected) : gset string)
  <-> (y <> x /\ y ∈ selected) \/ (y = x /\ x ∉ selected).
Proof.
  unfold toggled. rewrite list_to_set_elements_L.
  case_bool_decide as Hx.
  - rewrite elem_of_difference, elem_of_singleton. split.
    + intros [Hy Hne]. by left.
    + intros [[Hne Hy]|[-> Hni]]; [done | by destruct Hni].
  - rewrite elem_of_union, elem_of_singleton. split.
    + intros [Hy| ->]; [left | by right]. split; [by intros -> | done].
    + intros [[Hne Hy]|[-> Hni]]; [by left | by right].
Qed.

Lemma toggled_twice (x : string) (selected : gset string) :
  (list_to_set (toggled x (list_to_set (toggled x selected))) : gset string)
  = selected.
Proof.
  apply set_eq. intros y. rewrite !toggled_set.
  destruct (decide (y = x)) as [->|Hne]; [|tauto].
  destruct (decide (x ∈ selected)); tauto.
Qed.

Lemma setOf_clean_fresh fresh (l : list string) :
  setOf (nonEmptyArr (Some (MkArr fresh l))) = list_to_set l.
Proof. by rewrite setOf_nonEmptyArr. Qed.

(** X6. [toggleGenre] flips the membership of its genre in the selected
    set and of no other genre, and leaves every other derived value as it
    was; toggling the same genre twice restores the selection. The same
    holds for [toggleInstrument] and [toggleKey]. *)
Theorem toggles_flip_one_member :
  forall filters fresh fresh' x,
    let d := derive filters in
    let g := derive (cleanSampleSearch filters
                       (toggleGenre fresh x (Derived.selectedGenres d))) in
    let i := derive (cleanSampleSearch filters
                       (toggleInstrument fresh x (Derived.selectedInstruments d))) in
    let k := derive (cleanSampleSearch filters
                       (toggleKey fresh x (Derived.selectedKeys d))) in
    (forall y, y ∈ Derived.selectedGenres g
               <-> (y <> x /\ y ∈ Derived.selectedGenres d)
                   \/ (y = x /\ x ∉ Derived.selectedGenres d))
    /\ (forall y, y ∈ Derived.selectedInstruments i
                  <-> (y <> x /\ y ∈ Derived.selectedInstruments d)
                      \/ (y = x /\ x ∉ Derived.selectedInstruments d))
    /\ (forall y, y ∈ Derived.selectedKeys k
                  <-> (y <> x /\ y ∈ Derived.selectedKeys d)
                      \/ (y = x /\ x ∉ Derived.selectedKeys d))
    /\ derive (cleanSampleSearch
                 (cleanSampleSearch filters
                    (toggleGenre fresh x (Derived.selectedGenres d)))
                 (toggleGenre fresh' x (Derived.selectedGenres g)))
       = d
    /\ derive (cleanSampleSearch
                 (cleanSampleSearch filters
                    (toggleInstrument fresh x (Derived.selectedInstruments d)))
                 (toggleInstrument fresh' x (Derived.selectedInstruments i)))
       = d
    /\ derive (cleanSampleSearch
                 (cleanSampleSearch filters
                    (toggleKey fresh x (Derived.selectedKeys d)))
                 (toggleKey fresh' x (Derived.selectedKeys k)))
       = d.
Proof.
  intros filters fresh fresh' x d g i k. subst d g i k.
  rewrite !derive_clean.
  split; [|split; [|split; [|split; [|split]]]].
  - intros y. unfold derive at 1. simpl. apply toggled_set.
  - intros y. unfold derive at 1. simpl. apply toggled_set.
  - intros y. unfold derive at 1. simpl. apply toggled_set.
  - unfold derive, mergeSearch, cleanSampleSearch, toggleGenre. simpl.
    rewrite !setOf_nonEmptyArr, or_empty_truthy.
    unfold setOf at 1 2. simpl. rewrite toggled_twice. f_equal.
    + by destruct (type filters) as [[]|].
    + by destruct (sortBy filters) as [[]|].
    + by destruct (sortDir filters) as [[]|].
  - unfold derive, mergeSearch, cleanSampleSearch, toggleInstrument. simpl.
    rewrite !setOf_nonEmptyArr, or_empty_truthy.
    unfold setOf at 2 3. simpl. rewrite toggled_twice. f_equal.
    + by destruct (type filters) as [[]|].
    + by destruct (sortBy filters) as [[]|].
    + by destruct (sortDir filters) as [[]|].
  - unfold derive, mergeSearch, cleanSampleSearch, toggleKey. simpl.
    rewrite !setOf_nonEmptyArr, or_empty_truthy.
    unfold setOf at 3 4. simpl. rewrite toggled_twice. f_equal.
    + by destruct (type filters) as [[]|].
    + by destruct (sortBy filters) as [[]|].
    + by destruct (sortDir filters) as [[]|].
Qed.

(** ** The [samples] state of the hosting pages *)

Section SamplesState.
Context {rt : StringRuntime}.

Lemma filter_comm {A} (f g : A -> bool) (l : list A) :
  List.filter f (List.filter g l) = List.filter g (List.filter f l).
Proof.
  rewrite !filter_filter_and. apply List.filter_ext. intros x. apply andb_comm.
Qed.

(** X7. Deleting a sample from the page's list and filtering commute: the
    browser then shows the former filtered list without the rows of that
    id, in the former order. No row of that id remains, rows of other ids
    are all kept, and an edit of the sample made before the deletion leaves
    no trace. *)
Theorem delete_commutes_with_filters :
  forall sample samples G R K T I inc exc query,
    applyFilters (handleDeleteSample sample samples) G R K T I inc exc query
    = handleDeleteSample sample (applyFilters samples G R K T I inc exc query)
    /\ (forall s, In s (handleDeleteSample sample samples)
                  <-> In s samples /\ id s <> id sample)
    /\ (forall updated,
          id updated = id sample ->
          handleDeleteSample sample (handleEditSample updated samples)
          = handleDeleteSample sample samples).
Proof.
  intros sample samples G R K T I inc exc query. split; [|split].
  - rewrite !applyFilters_filter. unfold handleDeleteSample. apply filter_comm.
  - intros s. unfold handleDeleteSample. rewrite filter_In, negb_true_iff, Z.eqb_neq.
    done.
  - intros updated Hid. unfold handleDeleteSample, handleEditSample.
    rewrite Hid.
    induction samples as [|s l IH]; simpl; [done|].
    destruct (Z.eqb_spec (id s) (id sample)) as [Heq|Hne]; simpl.
    + rewrite Hid, Z.eqb_refl. simpl. exact IH.
    + destruct (Z.eqb_spec (id s) (id sample)); [done|]. simpl. by rewrite IH.
Qed.

End SamplesState.

(** X7, witness: the demo library, sample 3 edited and then deleted. *)
Lemma delete_commutes_with_filters_witness :
  let rt := AsciiRuntime.ascii_runtime in
  let samples := items (samples demoProps) in
  handleDeleteSample (demoSample 3) (handleEditSample (sampleWith (demoSample 3) "House" 124) samples)
  = handleDeleteSample (demoSample 3) samples
  /\ length (handleDeleteSample (demoSample 3) samples) = 119.
Proof.
  intros rt samples. split; [|reflexivity].
  apply (proj2 (proj2 (delete_commutes_with_filters (demoSample 3) samples
                         ∅ None ∅ TypeAll ∅ ∅ ∅ ""))).
  reflexivity.
Defined.

(** ** Maps in insertion order *)

Lemma mapGet_mapSet m k v k' :
  mapGet (mapSet m k v) k' = if String.eqb k k' then Some v else mapGet m k'.
Proof.
  unfold mapGet. induction m as [|[k0 v0] m IH]; simpl.
  - rewrite String.eqb_sym. by destruct (String.eqb k' k).
  - destruct (String.eqb_spec k0 k) as [->|Hne]; simpl.
    + by destruct (String.eqb_spec k k').
    + destruct (String.eqb_spec k0 k') as [->|Hne']; simpl.
      * destruct (String.eqb_spec k k'); [congruence | done].
      * exact IH.
Qed.

Lemma mapSet_keys m k v :
  map fst (mapSet m k v)
  = if existsb (String.eqb k) (map fst m) then map fst m else map fst m ++ [k].
Proof.
  induction m as [|[k0 v0] m IH]; simpl; [done|].
  rewrite (String.eqb_sym k k0).
  destruct (String.eqb k0 k); simpl; [done|].
  rewrite IH. by destruct (existsb _ _).
Qed.

Lemma mapSet_NoDup m k v :
  List.NoDup (map fst m) -> List.NoDup (map fst (mapSet m k v)).
Proof.
  intros Hnd. rewrite mapSet_keys.
  destruct (existsb (String.eqb k) (map fst m)) eqn:He; [done|].
  apply NoDup_ListNoDup, NoDup_app. rewrite !NoDup_ListNoDup.
  split; [done|]. split; [|apply List.NoDup_cons; [by intros [] | constructor]].
  intros x Hx ->%list_elem_of_singleton.
  apply not_true_iff_false in He. apply He, existsb_exists.
  exists k. split; [by apply list_elem_of_In | apply String.eqb_refl].
Qed.

Lemma mapGet_In m k n :
  List.NoDup (map fst m) -> (In (k, n) m <-> mapGet m k = Some n).
Proof.
  unfold mapGet. induction m as [|[k0 v0] m IH]; simpl; intros Hnd.
  - split; [done | done].
  - apply List.NoDup_cons_iff in Hnd as [Hni Hnd].
    destruct (String.eqb_spec k0 k) as [->|Hne]; simpl.
    + split.
      * intros [[= ->]|Hin]; [done|]. destruct Hni.
        apply in_map_iff. by exists (k, n).
      * intros [= ->]. by left.
    + rewrite <- (IH Hnd). split; [intros [[= -> _]|Hin]; [done|done] | by right].
Qed.

Lemma fold_bump_get ks m k :
  mapGet (fold_left bump ks m) k
  = if occurrences k ks =? 0 then mapGet m k
    else Some (default 0 (mapGet m k) + occurrences k ks).
Proof.
  unfold occurrences. revert m. induction ks as [|k0 ks IH]; intros m; simpl; [done|].
  rewrite IH. unfold bump at 1 2. rewrite !mapGet_mapSet.
  destruct (String.string_dec k0 k) as [->|Hne].
  - rewrite String.eqb_refl. simpl.
    destruct (Nat.eqb_spec (count_occ String.string_dec ks k) 0) as [->|_];
      f_equal; lia.
  - destruct (String.eqb_spec k0 k); [done|].
    by destruct (count_occ String.string_dec ks k =? 0).
Qed.

Lemma fold_bump_NoDup ks m :
  List.NoDup (map fst m) -> List.NoDup (map fst (fold_left bump ks m)).
Proof.
  revert m. induction ks as [|k ks IH]; intros m Hnd; simpl; [done|].
  apply IH. by apply mapSet_NoDup.
Qed.

(** The entries of a counting map built from the keys [ks]. *)
Lemma counted_entries ks k n :
  In (k, n) (fold_left bump ks []) <-> n = occurrences k ks /\ 0 < n.
Proof.
  rewrite mapGet_In by (apply fold_bump_NoDup; constructor).
  rewrite fold_bump_get. simpl.
  destruct (Nat.eqb_spec (occurrences k ks) 0) as [H0|Hpos].
  - split; [done | intros [-> Hn]; lia].
  - split; [intros [= <-]; lia | by intros [-> _]].
Qed.

(** ** Sorting by a numeric key *)

Section SortByKey.
Context {A : Type} (f : A -> Z) (compareFn : A -> A -> Z).
Hypothesis compare_key : forall a b, compareFn a b = (f b - f a)%Z.

Lemma insert_sorted_desc x l :
  StronglySorted (fun a b => (f b <= f a)%Z) l ->
  StronglySorted (fun a b => (f b <= f a)%Z) (insert_sorted compareFn x l).
Proof.
  induction l as [|y l IH]; intros Hs; simpl.
  - repeat constructor.
  - apply StronglySorted_inv in Hs as [Hs Hy]. rewrite compare_key.
    destruct (Z.ltb_spec (f y - f x) 0) as [Hlt|Hge].
    + constructor; [by constructor|]. constructor; [lia|].
      eapply List.Forall_impl; [|exact Hy]. simpl. intros a Ha. lia.
    + constructor; [by apply IH|].
      eapply Permutation_Forall; [apply insert_sorted_perm|].
      constructor; [lia | done].
Qed.

Lemma array_sort_desc l :
  StronglySorted (fun a b => (f b <= f a)%Z) (array_sort compareFn l).
Proof.
  unfold array_sort.
  enough (H : forall acc,
             StronglySorted (fun a b => (f b <= f a)%Z) acc ->
             StronglySorted (fun a b => (f b <= f a)%Z)
               (fold_left (fun acc x => insert_sorted compareFn x acc) l acc))
    by (apply H; constructor).
  induction l as [|x l IH]; intros acc Hacc; simpl; [done|].
  apply IH. by apply insert_sorted_desc.
Qed.

End SortByKey.

Lemma StronglySorted_weaken {A} (R S : A -> A -> Prop) (l : list A) :
  (forall a b, R a b -> S a b) -> StronglySorted R l -> StronglySorted S l.
Proof.
  intros HRS. induction 1 as [|a l Hs IH Ha]; constructor; [done|].
  eapply List.Forall_impl; [|exact Ha]. intros b. apply HRS.
Qed.

(** ** extractMeta *)

Section MetaFacts.
Context {rt : StringRuntime}.

Lemma metaTagStep_fold raws tm im :
  fold_left metaTagStep raws (tm, im)
  = (fold_left bump
       (List.filter (fun t => negb (String.eqb t "")) (map Str.trim raws)) tm,
     fold_left bump
       (List.filter (fun t => bool_decide (toLowerCase t ∈ INSTRUMENT_KEYWORDS))
          (List.filter (fun t => negb (String.eqb t "")) (map Str.trim raws)))
       im).
Proof.
  revert tm im. induction raws as [|raw raws IH]; intros tm im; simpl; [done|].
  unfold Str.truthy. destruct (String.eqb (Str.trim raw) ""); simpl; [apply IH|].
  rewrite IH. by destruct (bool_decide _).
Qed.

Lemma metaStep_genres samples m :
  m_genres (fold_left metaStep samples m)
  = fold_left bump (omap genreOf samples) (m_genres m).
Proof.
  revert m. induction samples as [|s l IH]; intros m; simpl; [done|].
  rewrite IH. unfold genreOf.
  destruct (metaStep m s) as [g b k t i] eqn:Hstep.
  unfold metaStep in Hstep.
  destruct (if Str.truthy (tags s) then _ else _) as [tm im] in Hstep.
  injection Hstep as <- _ _ _ _. simpl.
  destruct (Str.or_else (genre s) (pack_genre s)) as [x|]; simpl; [|done].
  unfold Str.or_empty, Str.or_else, Str.truthy. simpl.
  destruct (String.eqb x ""); simpl; [done|].
  by destruct (negb (String.eqb x "")) eqn:E.
Qed.

Lemma metaStep_bpms samples m :
  m_bpmSet (fold_left metaStep samples m)
  = fold_left setAdd (omap tempoOf samples) (m_bpmSet m).
Proof.
  revert m. induction samples as [|s l IH]; intros m; simpl; [done|].
  rewrite IH. unfold tempoOf.
  destruct (metaStep m s) as [g b k t i] eqn:Hstep.
  unfold metaStep in Hstep.
  destruct (if Str.truthy (tags s) then _ else _) as [tm im] in Hstep.
  injection Hstep as _ <- _ _ _. simpl.
  destruct (bpm s) as [x|]; simpl; [|done]. by destruct (x =? 0)%Z.
Qed.

Lemma metaStep_tags samples m :
  m_tagMap (fold_left metaStep samples m)
  = fold_left bump (tagsOf samples) (m_tagMap m)
  /\ m_instMap (fold_left metaStep samples m)
     = fold_left bump
         (List.filter (fun t => bool_decide (toLowerCase t ∈ INSTRUMENT_KEYWORDS))
            (tagsOf samples))
         (m_instMap m).
Proof.
  unfold tagsOf. revert m. induction samples as [|s l IH]; intros m; simpl; [done|].
  destruct (IH (metaStep m s)) as [-> ->].
  rewrite List.filter_app, !fold_left_app. unfold tagsOfSample, tagList.
  unfold metaStep. destruct (Str.truthy (tags s)); simpl; [|done].
  by rewrite metaTagStep_fold.
Qed.

(** X8. The genre list of [extractMeta] has one entry per genre that occurs
    ([s.genre || s.pack_genre], not empty), its count is the number of
    samples of that genre, no genre is listed twice, and the entries come
    with counts in descending order. *)
Theorem meta_genres_count_samples :
  forall samples,
    (forall g n,
       In (g, n) (Meta.genres (extractMeta samples))
       <-> n = occurrences g (omap genreOf samples) /\ 0 < n)
    /\ List.NoDup (map fst (Meta.genres (extractMeta samples)))
    /\ StronglySorted (fun a b => b.2 <= a.2) (Meta.genres (extractMeta samples)).
Proof.
  intros samples. unfold extractMeta. simpl. rewrite metaStep_genres. simpl.
  split; [|split].
  - intros g n. rewrite <- counted_entries.
    split; apply Permutation_in;
      [symmetry|]; apply array_sort_perm.
  - eapply Permutation_NoDup; [apply Permutation_map, array_sort_perm|].
    apply fold_bump_NoDup. constructor.
  - eapply StronglySorted_weaken;
      [|apply (array_sort_desc (fun e => Z.of_nat e.2) byCountDesc); done].
    simpl. intros a b H. lia.
Qed.

Lemma count_occ_filter (f : string -> bool) (l : list string) (t : string) :
  count_occ String.string_dec (List.filter f l) t
  = if f t then count_occ String.string_dec l t else 0.
Proof.
  induction l as [|x l IH]; cbn [List.filter count_occ]; [by destruct (f t)|].
  destruct (f x) eqn:Hx; cbn [count_occ].
  - destruct (String.string_dec x t) as [->|Hne]; [|done].
    rewrite IH, Hx. done.
  - rewrite IH. destruct (String.string_dec x t) as [->|Hne]; [|done].
    by rewrite Hx.
Qed.

(** X9. The tag list of [extractMeta] counts every non-empty trimmed tag
    as often as it is written in the samples, and the instrument list is
    exactly the part of the tag list whose lowercased tag is an instrument
    keyword, with the same counts. *)
Theorem meta_instruments_are_keyword_tags :
  forall samples,
    (forall t n,
       In (t, n) (Meta.tags (extractMeta samples))
       <-> n = occurrences t (tagsOf samples) /\ 0 < n)
    /\ (forall t n,
          In (t, n) (Meta.instruments (extractMeta samples))
          <-> In (t, n) (Meta.tags (extractMeta samples))
              /\ toLowerCase t ∈ INSTRUMENT_KEYWORDS).
Proof.
  intros samples.
  assert (Htags : forall t n,
             In (t, n) (Meta.tags (extractMeta samples))
             <-> n = occurrences t (tagsOf samples) /\ 0 < n).
  { intros t n. unfold extractMeta. simpl.
    rewrite (proj1 (metaStep_tags samples _)). simpl.
    rewrite <- counted_entries.
    split; apply Permutation_in; [symmetry|]; apply array_sort_perm. }
  split; [exact Htags|].
  intros t n. rewrite Htags. unfold extractMeta. simpl.
  rewrite (proj2 (metaStep_tags samples _)). simpl.
  transitivity
    (In (t, n)
       (fold_left bump
          (List.filter (fun t => bool_decide (toLowerCase t ∈ INSTRUMENT_KEYWORDS))
             (tagsOf samples)) [])).
  { split; apply Permutation_in; [symmetry|]; apply array_sort_perm. }
  rewrite counted_entries. unfold occurrences.
  rewrite (count_occ_filter (fun t => bool_decide (toLowerCase t ∈ INSTRUMENT_KEYWORDS))).
  cbv beta. case_bool_decide as Hk.
  - tauto.
  - split; [intros [-> Hn]; lia | tauto].
Qed.

Lemma setAdd_fold_In xs s x :
  In x (fold_left setAdd xs s) <-> In x s \/ In x xs.
Proof.
  revert s. induction xs as [|y xs IH]; intros s; simpl; [tauto|].
  rewrite IH. unfold setAdd.
  destruct (existsb (Z.eqb y) s) eqn:He.
  - apply existsb_exists in He as (z & Hz & ->%Z.eqb_eq).
    split; [tauto|]. intros [H|[<-|H]]; tauto.
  - rewrite in_app_iff. simpl. tauto.
Qed.

Lemma setAdd_fold_NoDup xs s :
  List.NoDup s -> List.NoDup (fold_left setAdd xs s).
Proof.
  revert s. induction xs as [|y xs IH]; intros s Hs; simpl; [done|].
  apply IH. unfold setAdd. destruct (existsb (Z.eqb y) s) eqn:He; [done|].
  apply NoDup_ListNoDup, NoDup_app. rewrite !NoDup_ListNoDup.
  split; [done|]. split; [|apply List.NoDup_cons; [by intros [] | constructor]].
  intros x Hx ->%list_elem_of_singleton.
  apply not_true_iff_false in He. apply He, existsb_exists.
  exists y. split; [by apply list_elem_of_In | apply Z.eqb_refl].
Qed.

Lemma strictly_sorted (l : list Z) :
  StronglySorted Z.le l -> List.NoDup l -> StronglySorted Z.lt l.
Proof.
  induction 1 as [|a l Hs IH Ha]; intros Hnd; constructor.
  - apply IH. by apply List.NoDup_cons_iff in Hnd as [_ Hnd].
  - apply List.NoDup_cons_iff in Hnd as [Hni _].
    apply List.Forall_forall. intros b Hb.
    pose proof (proj1 (List.Forall_forall _ _) Ha b Hb).
    assert (a <> b) by (by intros ->). lia.
Qed.

Lemma minOf_maxOf_bound (l : list Z) x :
  In x l -> (minOf l <= x <= maxOf l)%Z.
Proof.
  destruct l as [|y l]; [done|]. simpl.
  assert (Hmin : forall l a, (fold_left Z.min l a <= a)%Z
                             /\ forall z, In z l -> (fold_left Z.min l a <= z)%Z).
  { clear. induction l as [|b l IH]; intros a; simpl; [split; [lia | done]|].
    destruct (IH (Z.min a b)) as [H1 H2]. split; [lia|].
    intros z [<-|Hz]; [lia | by apply H2]. }
  assert (Hmax : forall l a, (a <= fold_left Z.max l a)%Z
                             /\ forall z, In z l -> (z <= fold_left Z.max l a)%Z).
  { clear. induction l as [|b l IH]; intros a; simpl; [split; [lia | done]|].
    destruct (IH (Z.max a b)) as [H1 H2]. split; [lia|].
    intros z [<-|Hz]; [lia | by apply H2]. }
  destruct (Hmin l y) as [H1 H2], (Hmax l y) as [H3 H4].
  intros [<-|Hx]; [lia|]. split; [by apply H2 | by apply H4].
Qed.

(** X10. [allBpms] lists, in strictly increasing order, exactly the bpm
    values other than 0 that occur in the samples. The slider bounds made
    from it enclose every such value, so the range filter set to the full
    slider keeps every sample that has a tempo; with no tempo in the
    library the bounds are 60 and 190. *)
Theorem meta_bpms_and_slider_bounds :
  forall samples,
    let meta := extractMeta samples in
    (forall x,
       In x (Meta.allBpms meta)
       <-> exists s, In s samples /\ bpm s = Some x /\ x <> 0%Z)
    /\ StronglySorted Z.lt (Meta.allBpms meta)
    /\ (forall s,
          In s samples -> is_Some (tempoOf s) ->
          bpmPred {| range_min := sliderMin meta; range_max := sliderMax meta |} s
          = true)
    /\ (Meta.allBpms meta = [] -> sliderMin meta = 60%Z /\ sliderMax meta = 190%Z).
Proof.
  intros samples meta.
  assert (Hin : forall x,
             In x (Meta.allBpms meta)
             <-> exists s, In s samples /\ bpm s = Some x /\ x <> 0%Z).
  { intros x. subst meta. unfold extractMeta. simpl. rewrite metaStep_bpms. simpl.
    transitivity (In x (fold_left setAdd (omap tempoOf samples) [])).
    { split; apply Permutation_in; [symmetry|]; apply array_sort_perm. }
    rewrite setAdd_fold_In. simpl.
    rewrite <- list_elem_of_In, list_elem_of_omap. unfold tempoOf. split.
    - intros [[]|(s & Hs & Ht)]. exists s. split; [by apply list_elem_of_In|].
      destruct (bpm s) as [b|]; [|done].
      destruct (Z.eqb_spec b 0); [done|]. by injection Ht as ->.
    - intros (s & Hs & Hb & Hx). right. exists s.
      split; [by apply list_elem_of_In|]. rewrite Hb.
      by destruct (Z.eqb_spec x 0). }
  split; [exact Hin|]. split; [|split].
  - subst meta. unfold extractMeta. simpl. rewrite metaStep_bpms. simpl.
    apply strictly_sorted.
    + eapply StronglySorted_weaken;
        [|apply (array_sort_desc Z.opp (fun a b => (a - b)%Z)); intros; lia].
      simpl. intros a b H. lia.
    + eapply Permutation_NoDup; [apply array_sort_perm|].
      apply setAdd_fold_NoDup. constructor.
  - clearbody meta. intros s Hs [b Hb]. unfold bpmPred, tempoOf in *.
    destruct (bpm s) as [x|] eqn:Hx; [|done].
    destruct (Z.eqb_spec x 0) as [|Hne]; [done|].
    assert (Hx' : In x (Meta.allBpms meta)) by (apply Hin; by exists s).
    pose proof (minOf_maxOf_bound _ x Hx') as [H1 H2].
    unfold sliderMin, sliderMax. cbn [range_min range_max].
    destruct (Meta.allBpms meta) as [|y l] eqn:Hl; [done|].
    cbn [length Nat.eqb negb].
    apply andb_true_iff. split; by apply Z.leb_le.
  - intros Hnil. unfold sliderMin, sliderMax. by rewrite Hnil.
Qed.

End MetaFacts.

(** X10, witness: the 120-sample library with tempos 60 to 179. *)
Lemma meta_bpms_and_slider_bounds_witness :
  let rt := AsciiRuntime.ascii_runtime in
  let meta := extractMeta (items (samples demoProps)) in
  sliderMin meta = 60%Z /\ sliderMax meta = 179%Z
  /\ bpmPred {| range_min := sliderMin meta; range_max := sliderMax meta |}
       (demoSample 7) = true
  /\ (Meta.allBpms (extractMeta []) = [] ->
      sliderMin (extractMeta []) = 60%Z /\ sliderMax (extractMeta []) = 190%Z).
Proof.
  intros rt meta.
  destruct (meta_bpms_and_slider_bounds (items (samples demoProps)))
    as (_ & _ & Hslider & _).
  split; [reflexivity|]. split; [reflexivity|]. split.
  - apply Hslider.
    + apply (in_map demoSample (seq 0 120) 7), in_seq. lia.
    + by exists 67%Z.
  - exact (proj2 (proj2 (proj2 (meta_bpms_and_slider_bounds [])))).
Defined.

(** ** availableTags *)

Section ClassFirst.
Context {A : Type} (first : A -> bool) (compareFn : A -> A -> Z).
Hypothesis first_below : forall a b,
  first a = true -> first b = false -> (compareFn a b < 0)%Z.
Hypothesis other_not_below : forall a b,
  first a = false -> first b = true -> (0 <= compareFn a b)%Z.

Lemma insert_first x l1 l2 :
  first x = true ->
  Forall (fun a => first a = false) l2 ->
  insert_sorted compareFn x (l1 ++ l2) = insert_sorted compareFn x l1 ++ l2.
Proof.
  intros Hx Hl2. induction l1 as [|y l1 IH]; simpl.
  - destruct l2 as [|z l2]; simpl; [done|].
    apply Forall_cons in Hl2 as [Hz _].
    pose proof (first_below x z Hx Hz).
    by destruct (Z.ltb_spec (compareFn x z) 0); [|lia].
  - destruct (compareFn x y <? 0)%Z; [done | by rewrite IH].
Qed.

Lemma insert_other x l1 l2 :
  first x = false ->
  Forall (fun a => first a = true) l1 ->
  insert_sorted compareFn x (l1 ++ l2) = l1 ++ insert_sorted compareFn x l2.
Proof.
  intros Hx Hl1. induction l1 as [|y l1 IH]; simpl; [done|].
  apply Forall_cons in Hl1 as [Hy Hl1].
  pose proof (other_not_below x y Hx Hy).
  destruct (Z.ltb_spec (compareFn x y) 0); [lia | by rewrite IH].
Qed.

Lemma array_sort_class_first l :
  exists l1 l2,
    array_sort compareFn l = l1 ++ l2
    /\ Forall (fun a => first a = true) l1
    /\ Forall (fun a => first a = false) l2.
Proof.
  unfold array_sort.
  enough (H : forall acc,
             (exists l1 l2, acc = l1 ++ l2
                            /\ Forall (fun a => first a = true) l1
                            /\ Forall (fun a => first a = false) l2) ->
             exists l1 l2,
               fold_left (fun acc x => insert_sorted compareFn x acc) l acc = l1 ++ l2
               /\ Forall (fun a => first a = true) l1
               /\ Forall (fun a => first a = false) l2).
  { apply H. by exists [], []. }
  induction l as [|x l IH]; intros acc Hacc; simpl; [done|].
  apply IH. destruct Hacc as (l1 & l2 & -> & H1 & H2).
  destruct (first x) eqn:Hx.
  - exists (insert_sorted compareFn x l1), l2.
    split; [by apply insert_first|]. split; [|done].
    eapply Permutation_Forall; [apply insert_sorted_perm|]. by apply Forall_cons.
  - exists l1, (insert_sorted compareFn x l2).
    split; [by apply insert_other|]. split; [done|].
    eapply Permutation_Forall; [apply insert_sorted_perm|]. by apply Forall_cons.
Qed.

End ClassFirst.

Lemma mapHas_get m k : mapHas m k = bool_decide (is_Some (mapGet m k)).
Proof.
  unfold mapHas, mapGet. induction m as [|[k0 v0] m IH]; simpl; [done|].
  destruct (String.eqb k0 k); simpl; [done | exact IH].
Qed.

Lemma add_zero_entries_get exclude m k :
  mapGet
    (fold_left (fun tagMap t => if negb (mapHas tagMap t) then mapSet tagMap t 0 else tagMap)
       exclude m) k
  = match mapGet m k with
    | Some n => Some n
    | None => if bool_decide (k ∈ exclude) then Some 0 else None
    end.
Proof.
  revert m. induction exclude as [|t l IH]; intros m; cbn [fold_left].
  - rewrite bool_decide_eq_false_2 by apply not_elem_of_nil.
    by destruct (mapGet m k).
  - rewrite IH, mapHas_get. destruct (mapGet m t) as [nt|] eqn:Hmt.
    + rewrite bool_decide_eq_true_2 by (by eexists). cbn [negb].
      destruct (mapGet m k) as [n|] eqn:Hk; [done|].
      assert (t <> k) by (intros ->; congruence).
      apply (f_equal (fun b : bool => if b then Some 0 else None)).
      apply bool_decide_ext. rewrite elem_of_cons. naive_solver.
    + rewrite bool_decide_eq_false_2 by (by intros [x Hx]). cbn [negb].
      rewrite mapGet_mapSet. destruct (String.eqb_spec t k) as [->|Hne].
      * rewrite Hmt. rewrite bool_decide_eq_true_2; [done | apply list_elem_of_here].
      * destruct (mapGet m k); [done|].
        apply (f_equal (fun b : bool => if b then Some 0 else None)).
        apply bool_decide_ext. rewrite elem_of_cons. naive_solver.
Qed.

Lemma add_zero_entries_NoDup exclude m :
  List.NoDup (map fst m) ->
  List.NoDup
    (map fst
       (fold_left (fun tagMap t => if negb (mapHas tagMap t) then mapSet tagMap t 0 else tagMap)
          exclude m)).
Proof.
  revert m. induction exclude as [|t l IH]; intros m Hm; simpl; [done|].
  apply IH. destruct (negb (mapHas m t)); [by apply mapSet_NoDup | done].
Qed.

Lemma activeRank_cases includeTags excludeTags e :
  activeRank includeTags excludeTags e = 1%Z
  \/ activeRank includeTags excludeTags e = 0%Z.
Proof. unfold activeRank. destruct (_ || _); tauto. Qed.

Section AvailableTagsFacts.
Context {rt : StringRuntime}.

Lemma availableTagStep_fold raws tm :
  fold_left availableTagStep raws tm
  = fold_left bump
      (List.filter (fun t => negb (String.eqb t "")) (map Str.trim raws)) tm.
Proof.
  revert tm. induction raws as [|raw raws IH]; intros tm; simpl; [done|].
  unfold availableTagStep at 2. unfold Str.truthy.
  destruct (String.eqb (Str.trim raw) ""); simpl; apply IH.
Qed.

Lemma available_counts sorted tm :
  fold_left
    (fun tagMap s =>
       if Str.truthy (tags s)
       then fold_left availableTagStep (Str.split "," (Str.or_empty (tags s))) tagMap
       else tagMap)
    sorted tm
  = fold_left bump (tagsOf sorted) tm.
Proof.
  unfold tagsOf. revert tm. induction sorted as [|s l IH]; intros tm; simpl; [done|].
  rewrite IH, fold_left_app. f_equal. unfold tagsOfSample, tagList.
  destruct (Str.truthy (tags s)); [apply availableTagStep_fold | done].
Qed.

(** X11. [availableTags] lists every tag written in the shown samples with
    the number of times it is written, and every excluded tag that is
    written in none of them with count 0, so an excluded tag can always be
    released; no tag is listed twice, and the tags that are included or
    excluded come before all other tags. *)
Theorem available_tags_keep_excluded :
  forall sorted (includeTags : gset string) (exclude : list string),
    let listed := availableTags sorted includeTags exclude in
    (forall t n,
       In (t, n) listed
       <-> (0 < n /\ n = occurrences t (tagsOf sorted))
           \/ (n = 0 /\ In t exclude /\ occurrences t (tagsOf sorted) = 0))
    /\ List.NoDup (map fst listed)
    /\ exists active others,
         listed = active ++ others
         /\ Forall (fun e => (e.1 ∈ includeTags) \/ In e.1 exclude) active
         /\ Forall (fun e => (e.1 ∉ includeTags) /\ ~ In e.1 exclude) others.
Proof.
  intros sorted includeTags exclude listed. subst listed.
  unfold availableTags. rewrite available_counts.
  set (counted := fold_left bump (tagsOf sorted) []).
  set (tagMap := fold_left _ exclude counted).
  assert (Hnd : List.NoDup (map fst tagMap)).
  { apply add_zero_entries_NoDup, fold_bump_NoDup. constructor. }
  split; [|split].
  - intros t n.
    transitivity (In (t, n) tagMap).
    { split; apply Permutation_in; [symmetry|]; apply array_sort_perm. }
    rewrite (mapGet_In _ _ _ Hnd). unfold tagMap.
    rewrite add_zero_entries_get. unfold counted. rewrite fold_bump_get. simpl.
    destruct (Nat.eqb_spec (occurrences t (tagsOf sorted)) 0) as [H0|Hpos].
    + rewrite <- list_elem_of_In. case_bool_decide as Hex.
      * split; [intros [= <-]; right; tauto|]. intros [[Hn ->]|[-> _]]; [lia|done].
      * split; [done|]. intros [[Hn ->]|[-> [Hin _]]]; [lia | done].
    + split; [intros [= <-]; left; lia|]. intros [[_ ->]|[_ [_ H0]]]; [done | lia].
  - eapply Permutation_NoDup; [apply Permutation_map, array_sort_perm | exact Hnd].
  - destruct (array_sort_class_first
                (fun e => bool_decide (activeRank includeTags (list_to_set exclude) e = 1%Z))
                (availableCompare includeTags (list_to_set exclude))) with (l := tagMap)
      as (l1 & l2 & Heq & H1 & H2).
    + intros a b Ha%bool_decide_eq_true Hb%bool_decide_eq_false.
      unfold availableCompare. rewrite Ha.
      assert (Hb0 : activeRank includeTags (list_to_set exclude) b = 0%Z)
        by (by destruct (activeRank_cases includeTags (list_to_set exclude) b)).
      rewrite Hb0. simpl. lia.
    + intros a b Ha%bool_decide_eq_false Hb%bool_decide_eq_true.
      unfold availableCompare. rewrite Hb.
      assert (Ha0 : activeRank includeTags (list_to_set exclude) a = 0%Z)
        by (by destruct (activeRank_cases includeTags (list_to_set exclude) a)).
      rewrite Ha0. simpl. lia.
    + exists l1, l2. split; [exact Heq|]. split.
      * eapply List.Forall_impl; [|exact H1]. intros e He%bool_decide_eq_true.
        unfold activeRank in He.
        destruct (bool_decide (e.1 ∈ includeTags)) eqn:Hi;
          [left; by apply bool_decide_eq_true in Hi|].
        destruct (bool_decide (e.1 ∈ (list_to_set exclude : gset string))) eqn:Hx;
          [|done].
        right. apply bool_decide_eq_true, elem_of_list_to_set in Hx.
        by apply list_elem_of_In.
      * eapply List.Forall_impl; [|exact H2]. intros e He%bool_decide_eq_false.
        unfold activeRank in He.
        destruct (bool_decide (e.1 ∈ includeTags)) eqn:Hi; [done|].
        destruct (bool_decide (e.1 ∈ (list_to_set exclude : gset string))) eqn:Hx;
          [done|].
        apply bool_decide_eq_false in Hi, Hx. split; [done|].
        intros Hin. apply Hx, elem_of_list_to_set. by apply list_elem_of_In.
Qed.

End AvailableTagsFacts.

(** ** Pages *)

Lemma pages_take (l : list Sample) n :
  concat (map (displayed l) (seq 0 n)) = take (n * PAGE_SIZE) l.
Proof.
  induction n as [|n IH]; [done|].
  rewrite seq_S, map_app, concat_app, IH. simpl. rewrite app_nil_r.
  unfold displayed, slice, PAGE_SIZE.
  replace ((n + 1) * 50 - n * 50) with 50 by lia.
  rewrite take_take_drop. f_equal. lia.
Qed.

Lemma totalPages_cover (l : list Sample) : length l <= totalPages l * PAGE_SIZE.
Proof.
  unfold totalPages, PAGE_SIZE.
  pose proof (Nat.div_mod_eq (length l + 50 - 1) 50).
  pose proof (Nat.mod_upper_bound (length l + 50 - 1) 50). lia.
Qed.

(** X12. The pages cut the sorted list into consecutive pieces without
    loss or overlap: the pages 0 to [totalPages - 1], one after the other,
    give back the list; a page never holds more than 50 entries; and the
    two buttons of the page control keep the page index below
    [totalPages]. *)
Theorem pages_partition_the_list :
  forall (sorted : list Sample),
    concat (map (displayed sorted) (seq 0 (totalPages sorted))) = sorted
    /\ (forall page, length (displayed sorted page) <= 50)
    /\ (forall page,
          page < totalPages sorted ->
          pageUp page < totalPages sorted
          /\ pageDown page (totalPages sorted) < totalPages sorted).
Proof.
  intros sorted. split; [|split].
  - rewrite pages_take. apply take_ge, totalPages_cover.
  - intros page. unfold displayed, slice, PAGE_SIZE.
    replace ((page + 1) * 50 - page * 50) with 50 by lia.
    rewrite length_take. lia.
  - intros page Hp. unfold pageUp, pageDown. split.
    + destruct (Nat.leb_spec page 0); lia.
    + destruct (Nat.leb_spec (totalPages sorted - 1) page); lia.
Qed.

(** X12, witness: the 120-sample library has three pages. *)
Lemma pages_partition_the_list_witness :
  let sorted := items (samples demoProps) in
  totalPages sorted = 3
  /\ pageUp 2 < totalPages sorted
  /\ pageDown 2 (totalPages sorted) = 2.
Proof.
  intros sorted. split; [reflexivity|]. split; [|reflexivity].
  apply (proj2 (proj2 (pages_partition_the_list sorted)) 2).
  vm_compute. lia.
Defined.

(** ** Moving through the sorted list *)

Lemma findIndex_range {A} (pred : A -> bool) l :
  (-1 <= findIndex pred l < Z.of_nat (length l))%Z.
Proof.
  induction l as [|x l IH]; simpl; [lia|].
  destruct (pred x); [lia|].
  destruct (Z.ltb_spec (findIndex pred l) 0); lia.
Qed.

Lemma findIndex_first {A} (pred : A -> bool) l k x :
  l !! k = Some x -> pred x = true ->
  (forall j y, j < k -> l !! j = Some y -> pred y = false) ->
  findIndex pred l = Z.of_nat k.
Proof.
  revert k. induction l as [|a l IH]; intros k Hk Hx Hbefore; [done|].
  destruct k as [|k]; simpl in *.
  - injection Hk as ->. by rewrite Hx.
  - rewrite (Hbefore 0 a) by (done || lia).
    rewrite (IH k Hk Hx).
    + destruct (Z.ltb_spec (Z.of_nat k) 0); lia.
    + intros j y Hj Hy. apply (Hbefore (S j) y); [lia|done].
Qed.

Lemma findIndex_absent {A} (pred : A -> bool) l :
  (forall y, In y l -> pred y = false) -> findIndex pred l = (-1)%Z.
Proof.
  induction l as [|a l IH]; intros Hall; [done|]. simpl.
  rewrite (Hall a) by (by left). rewrite IH by (intros; apply Hall; by right).
  done.
Qed.

Lemma displayed_at (sorted : list Sample) page r :
  r < 50 -> displayed sorted page !! r = sorted !! (page * 50 + r).
Proof.
  intros Hr. unfold displayed, slice, PAGE_SIZE.
  replace ((page + 1) * 50 - page * 50) with 50 by lia.
  rewrite lookup_take_lt by done. by rewrite lookup_drop.
Qed.

Lemma displayed_length (sorted : list Sample) page :
  length (displayed sorted page) = Nat.min 50 (length sorted - page * 50).
Proof.
  unfold displayed, slice, PAGE_SIZE.
  replace ((page + 1) * 50 - page * 50) with 50 by lia.
  by rewrite length_take, length_drop.
Qed.

Lemma totalPages_eq (sorted : list Sample) :
  totalPages sorted = Nat.max 1 ((length sorted + 49) / 50).
Proof. unfold totalPages, PAGE_SIZE. do 2 f_equal. lia. Qed.

Lemma path_unique (sorted : list Sample) i j a b :
  NoDup (map local_path sorted) ->
  sorted !! i = Some a -> sorted !! j = Some b ->
  local_path a = local_path b -> i = j.
Proof.
  intros Hnd Hi Hj Hab.
  apply (NoDup_lookup _ i j (local_path a) Hnd).
  - by rewrite list_lookup_fmap, Hi.
  - by rewrite list_lookup_fmap, Hj, Hab.
Qed.

Lemma samePath_true cur s : samePath cur s = true <-> local_path s = local_path cur.
Proof. unfold samePath. apply String.eqb_eq. Qed.

Lemma samePath_false cur s : samePath cur s = false <-> local_path s <> local_path cur.
Proof. unfold samePath. apply String.eqb_neq. Qed.

Lemma findIndex_on_page (sorted : list Sample) k cur :
  NoDup (map local_path sorted) -> sorted !! k = Some cur ->
  findIndex (samePath cur) (displayed sorted (k / 50)) = Z.of_nat (k mod 50).
Proof.
  intros Hnd Hk. apply findIndex_first with (x := cur).
  - rewrite displayed_at by lia. rewrite <- Hk. f_equal. lia.
  - by apply samePath_true.
  - intros j y Hj Hy. rewrite displayed_at in Hy by lia.
    apply samePath_false. intros Hp.
    pose proof (path_unique _ _ _ _ _ Hnd Hy Hk Hp). lia.
Qed.

(** X13. With one entry per file in the sorted list and the playing sample
    on the page shown, the arrow keys walk the sorted list one entry at a
    time and turn the page with it: ArrowDown plays the next entry of the
    whole list and shows its page, and does nothing on the last entry;
    ArrowUp plays the previous entry and shows its page, and does nothing
    on the first. *)
Theorem arrow_keys_walk_the_sorted_list :
  forall (sorted : list Sample) (k : nat) (cur : Sample),
    NoDup (map local_path sorted) ->
    sorted !! k = Some cur ->
    onArrowKey ArrowDown sorted (k / 50) (Some cur)
      = (if S k <? length sorted then (S k / 50, sorted !! S k)
         else (k / 50, None))
    /\ onArrowKey ArrowUp sorted (k / 50) (Some cur)
      = match k with
        | 0 => (0, None)
        | S j => (j / 50, sorted !! j)
        end.
Proof.
  intros sorted k cur Hnd Hk.
  pose proof (lookup_lt_Some _ _ _ Hk) as Hlen.
  pose proof (displayed_length sorted (k / 50)) as Hd.
  pose proof (totalPages_eq sorted) as Ht.
  unfold onArrowKey. rewrite (findIndex_on_page _ _ _ Hnd Hk).
  destruct (Nat.eqb_spec (length (displayed sorted (k / 50))) 0) as [H0|_]; [lia|].
  split.
  - destruct (Z.ltb_spec (Z.of_nat (k mod 50)) 0); [lia|].
    destruct (Z.leb_spec (Z.of_nat (length (displayed sorted (k / 50))) - 1)
                (Z.of_nat (k mod 50))) as [Hlast|Hmid].
    + destruct (Z.ltb_spec (Z.of_nat (k / 50)) (Z.of_nat (totalPages sorted) - 1))
        as [Hmore|Hend].
      * destruct (Nat.ltb_spec (S k) (length sorted)); [|lia].
        unfold PAGE_SIZE. f_equal; [lia|]. f_equal. lia.
      * destruct (Nat.ltb_spec (S k) (length sorted)); [lia|done].
    + destruct (Nat.ltb_spec (S k) (length sorted)); [|lia].
      unfold at_. destruct (Z.ltb_spec (Z.of_nat (k mod 50) + 1) 0); [lia|].
      f_equal; [lia|].
      replace (Z.to_nat (Z.of_nat (k mod 50) + 1)) with (k mod 50 + 1) by lia.
      rewrite displayed_at by lia. f_equal. lia.
  - destruct (Z.leb_spec (Z.of_nat (k mod 50)) 0) as [Hfirst|Hmid].
    + destruct (Nat.ltb_spec 0 (k / 50)) as [Hpage|Hpage].
      * destruct k as [|j]; [simpl in Hpage; lia|].
        unfold at_, PAGE_SIZE.
        destruct (Z.ltb_spec (Z.of_nat (S j / 50 * 50) - 1) 0); [lia|].
        f_equal; [lia|]. f_equal. lia.
      * destruct k as [|j]; [done|]. lia.
    + destruct k as [|j]; [simpl in Hmid; lia|].
      unfold at_. destruct (Z.ltb_spec (Z.of_nat (S j mod 50) - 1) 0); [lia|].
      f_equal; [lia|].
      replace (Z.to_nat (Z.of_nat (S j mod 50) - 1)) with (S j mod 50 - 1) by lia.
      rewrite displayed_at by lia. f_equal. lia.
Qed.

(** X13, witness: 120 tracks, the last entry of the first page playing. *)
Lemma arrow_keys_walk_the_sorted_list_witness :
  onArrowKey ArrowDown (tracks 120) 0 (Some (trackSample 49))
    = (1, Some (trackSample 50))
  /\ onArrowKey ArrowUp (tracks 120) 0 (Some (trackSample 49))
    = (0, Some (trackSample 48)).
Proof.
  apply (arrow_keys_walk_the_sorted_list (tracks 120) 49 (trackSample 49)).
  - apply (bool_decide_unpack _). vm_compute. exact I.
  - reflexivity.
Defined.

(** X14. When a sample ends, the callback registered for autoplay looks
    the playing sample up by its file among the whole sorted list: with the
    first entry of that file at index [i], it plays entry [i + 1] and shows
    the page holding it, whatever page was shown; on the last entry it
    does nothing.  The entry played is on the page shown afterwards. *)
Theorem autoplay_follows_the_sorted_list :
  forall (sorted : list Sample) (page i : nat) (cur entry : Sample),
    sorted !! i = Some entry ->
    local_path entry = local_path cur ->
    (forall j s, j < i -> sorted !! j = Some s -> local_path s <> local_path cur) ->
    playNext sorted page (Some cur)
      = (if S i <? length sorted then (S i / 50, sorted !! S i)
         else (page, None))
    /\ (forall page' next,
          playNext sorted page (Some cur) = (page', Some next) ->
          displayed sorted page' !! (S i mod 50) = Some next).
Proof.
  intros sorted page i cur entry Hi Hpath Hfirst.
  pose proof (lookup_lt_Some _ _ _ Hi) as Hlen.
  assert (Hidx : findIndex (samePath cur) sorted = Z.of_nat i).
  { apply findIndex_first with (x := entry); [done|by apply samePath_true|].
    intros j y Hj Hy. apply samePath_false. by apply (Hfirst j). }
  assert (Hrun : playNext sorted page (Some cur)
      = (if S i <? length sorted then (S i / 50, sorted !! S i)
         else (page, None))).
  { unfold playNext. rewrite Hidx.
    destruct (Nat.eqb_spec (length sorted) 0); [lia|].
    destruct (Z.ltb_spec (Z.of_nat i) 0); [lia|]. simpl orb.
    destruct (Z.leb_spec (Z.of_nat (length sorted) - 1) (Z.of_nat i)).
    - destruct (Nat.ltb_spec (S i) (length sorted)); [lia|done].
    - destruct (Nat.ltb_spec (S i) (length sorted)); [|lia].
      unfold at_, PAGE_SIZE.
      destruct (Z.ltb_spec (Z.of_nat i + 1) 0); [lia|].
      replace (Z.to_nat (Z.of_nat i + 1)) with (S i) by lia.
      replace (Z.to_nat ((Z.of_nat i + 1) / Z.of_nat 50)) with (S i / 50) by lia.
      f_equal. destruct (Nat.eqb_spec (S i / 50) page); cbn [negb]; congruence. }
  split; [done|].
  intros page' next. rewrite Hrun.
  destruct (Nat.ltb_spec (S i) (length sorted)); [|done].
  intros Heq. apply pair_equal_spec in Heq as [<- Hnext].
  rewrite displayed_at by lia.
  rewrite <- Hnext. f_equal. lia.
Qed.

(** X14, witness: 120 tracks, page 0 shown while track 49 ends. *)
Lemma autoplay_follows_the_sorted_list_witness :
  playNext (tracks 120) 0 (Some (trackSample 49)) = (1, Some (trackSample 50)).
Proof.
  apply (autoplay_follows_the_sorted_list (tracks 120) 0 49
           (trackSample 49) (trackSample 49)).
  - reflexivity.
  - reflexivity.
  - intros j s Hj Hs.
    assert (Hin : bool_decide (Forall (fun s => local_path s <> local_path (trackSample 49))
                     (take 49 (tracks 120))) = true) by (vm_compute; reflexivity).
    apply bool_decide_eq_true in Hin.
    apply (Forall_lookup_1 _ _ j s Hin). by rewrite lookup_take_lt.
Defined.

(** ** The waveform request queue: order and progress *)

Lemma pop_snoc queue item : pop (queue ++ [item]) = Some (item, queue).
Proof. unfold pop. rewrite rev_unit. by rewrite rev_involutive. Qed.

Lemma processLoop_lifo after :
  forall fuel s before item,
    _queue s = before ++ item :: after ->
    Forall (fun i => i ∈ cancelled s) after ->
    item ∉ cancelled s ->
    _activeReqs s < _MAX_CONCURRENT ->
    length after < fuel ->
    processLoop fuel s = invokes item before s.
Proof.
  induction after as [|x after IH] using rev_ind;
    intros fuel s before item Hq Hc Hitem Hact Hfuel.
  - destruct fuel as [|fuel]; [simpl in Hfuel; lia|]. simpl.
    rewrite Hq, pop_snoc, length_app. simpl.
    apply Nat.ltb_lt in Hact as ->.
    replace (0 <? length before + 1) with true by (symmetry; apply Nat.ltb_lt; lia).
    simpl. by rewrite bool_decide_eq_false_2.
  - destruct fuel as [|fuel]; [simpl in Hfuel; lia|]. simpl.
    rewrite length_app in Hfuel. simpl in Hfuel.
    assert (Hq' : _queue s = (before ++ item :: after) ++ [x])
      by (by rewrite Hq, <- app_assoc).
    rewrite Hq', pop_snoc, length_app. simpl.
    pose proof Hact as Hact'. apply Nat.ltb_lt in Hact' as ->.
    replace (0 <? length (before ++ item :: after) + 1) with true
      by (symmetry; apply Nat.ltb_lt; lia).
    simpl. apply Forall_app in Hc as [Hc Hx]. apply Forall_inv in Hx.
    rewrite bool_decide_eq_true_2 by done.
    rewrite (IH fuel _ before item); simpl; try done. lia.
Qed.

Lemma processLoop_all_cancelled fuel s :
  Forall (fun i => i ∈ cancelled s) (_queue s) ->
  _activeReqs s < _MAX_CONCURRENT ->
  length (_queue s) <= fuel ->
  processLoop fuel s
  = {| _activeReqs := _activeReqs s; _queue := [];
       cancelled := cancelled s; next_item := next_item s;
       running := running s; invoked := invoked s; timers := timers s |}.
Proof.
  revert s. induction fuel as [|fuel IH]; intros s Hc Hact Hfuel.
  - destruct s as [a q c n r i t]. simpl in *.
    destruct q; [done|simpl in Hfuel; lia].
  - simpl. destruct (_queue s) as [|x q] eqn:Hq using rev_ind.
    + rewrite Bool.andb_false_r. destruct s. simpl in *. by subst.
    + clear IHq. rewrite pop_snoc, length_app. simpl.
      pose proof Hact as Hact'. apply Nat.ltb_lt in Hact' as ->.
      replace (0 <? length q + 1) with true by (symmetry; apply Nat.ltb_lt; lia).
      simpl. apply Forall_app in Hc as [Hc Hx]. apply Forall_inv in Hx.
      rewrite bool_decide_eq_true_2 by done.
      rewrite IH; simpl; try done.
      rewrite length_app in Hfuel. simpl in Hfuel. lia.
Qed.

(** X15. With the slot free, [_processQueue] serves the most recently
    enqueued request that has not been cancelled: that one is invoked, the
    cancelled requests enqueued after it are dropped, and the requests
    enqueued before it keep waiting in their order.  If every waiting
    request was cancelled the queue is emptied and nothing is invoked. *)
Theorem process_queue_serves_latest_live_request :
  forall (s : QueueState) (before after : list nat) (item : nat),
    _activeReqs s < _MAX_CONCURRENT ->
    (forall i, i ∈ after -> i ∈ cancelled s) ->
    (_queue s = before ++ item :: after ->
     item ∉ cancelled s ->
     _processQueue s = invokes item before s)
    /\ (_queue s = after ->
        invoked (_processQueue s) = invoked s
        /\ _queue (_processQueue s) = []
        /\ _activeReqs (_processQueue s) = _activeReqs s).
Proof.
  intros s before after item Hact Hafter.
  assert (Hc : Forall (fun i => i ∈ cancelled s) after)
    by (by apply Forall_forall).
  split.
  - intros Hq Hitem. unfold _processQueue.
    apply (processLoop_lifo after); try done.
    rewrite Hq, length_app. simpl. lia.
  - intros Hq. unfold _processQueue.
    rewrite processLoop_all_cancelled; try done. by rewrite Hq.
Qed.

(** X15, witness: three requests; the last is cancelled while the first
    runs; when the first has settled the second is served. *)
Lemma process_queue_serves_latest_live_request_witness :
  let s := queue_run [Enqueue; Enqueue; Enqueue; Cancel 2; Settle 0] in
  _queue s = [1; 2]
  /\ _processQueue s = invokes 1 [] s.
Proof.
  intros s. split; [reflexivity|].
  apply (proj1 (process_queue_serves_latest_live_request s [] [2] 1
                  ltac:(vm_compute; lia)
                  ltac:(intros i ->%list_elem_of_singleton;
                        apply (bool_decide_unpack _); vm_compute; exact I))).
  - reflexivity.
  - apply (bool_decide_unpack _). vm_compute. exact I.
Defined.

Lemma processLoop_next_item fuel s : next_item (processLoop fuel s) = next_item s.
Proof.
  revert s. induction fuel as [|fuel IH]; intros s; simpl; [done|].
  destruct (_ && _); [|done].
  destruct (pop (_queue s)) as [[item rest]|]; [|done].
  case_bool_decide; [|done]. by rewrite IH.
Qed.

Lemma processLoop_accounted fuel s i :
  i ∈ _queue s \/ i ∈ invoked s \/ i ∈ cancelled s ->
  i ∈ _queue (processLoop fuel s) \/ i ∈ invoked (processLoop fuel s)
  \/ i ∈ cancelled (processLoop fuel s).
Proof.
  revert s. induction fuel as [|fuel IH]; intros s Hi; simpl; [done|].
  destruct (_ && _); [|done].
  destruct (pop (_queue s)) as [[item rest]|] eqn:Hpop; [|done].
  apply pop_spec in Hpop.
  case_bool_decide as Hc.
  - apply IH. simpl. rewrite Hpop in Hi. set_solver.
  - simpl. rewrite Hpop in Hi. set_solver.
Qed.

Lemma processLoop_done fuel s :
  length (_queue s) <= fuel ->
  _queue (processLoop fuel s) = []
  \/ _MAX_CONCURRENT <= _activeReqs (processLoop fuel s).
Proof.
  revert s. induction fuel as [|fuel IH]; intros s Hfuel; simpl.
  - left. destruct (_queue s); [done|simpl in Hfuel; lia].
  - destruct (Nat.ltb_spec (_activeReqs s) _MAX_CONCURRENT); [|by right].
    destruct (Nat.ltb_spec 0 (length (_queue s))) as [Hpos|Hpos]; simpl.
    + destruct (pop (_queue s)) as [[item rest]|] eqn:Hpop.
      * apply pop_spec in Hpop. rewrite Hpop, length_app in Hfuel.
        simpl in Hfuel. case_bool_decide.
        -- apply IH. simpl. lia.
        -- right. simpl. unfold _MAX_CONCURRENT. lia.
      * unfold pop in Hpop. destruct (rev (_queue s)) eqn:Hrev; [|done].
        apply (f_equal (@length nat)) in Hrev. rewrite length_rev in Hrev.
        simpl in Hrev. lia.
    + left. destruct (_queue s); [done|simpl in Hpos; lia].
Qed.

Lemma processQueue_awake s : queue_inv s -> awake (_processQueue s).
Proof.
  intros Hinv Hq. left.
  pose proof (processLoop_inv (length (_queue s)) s Hinv) as Hinv'.
  destruct (processLoop_done (length (_queue s)) s) as [Hd|Hd]; [done|done|].
  fold (_processQueue s) in Hinv', Hd.
  destruct Hinv' as [Ha _ _ _ _]. rewrite Ha in Hd.
  unfold _MAX_CONCURRENT in Hd.
  destruct (running (_processQueue s)); [simpl in Hd; lia|done].
Qed.

Lemma queue_step_awake s e :
  queue_inv s -> awake s -> awake (queue_step s e).
Proof.
  intros Hinv Haw. destruct e as [|item|item|]; simpl.
  - unfold _enqueue. simpl.
    set (s1 := {| _activeReqs := _activeReqs s; _queue := _queue s ++ [next_item s];
                  cancelled := cancelled s; next_item := S (next_item s);
                  running := running s; invoked := invoked s; timers := timers s |}).
    assert (Hs1 : queue_inv s1).
    { pose proof (queue_step_inv s Enqueue Hinv) as H. simpl in H.
      unfold _enqueue in H. simpl in H. fold s1 in H.
      destruct Hinv as [Ha Hs Hw Hn Hi]. split; simpl; try done.
      - intros i [Hin| ->%list_elem_of_singleton]%elem_of_app.
        + destruct (Hw i Hin). split; [lia|done].
        + split; [lia|]. intros Hin%Hi. lia.
      - apply NoDup_app. split; [done|]. split; [|apply NoDup_singleton].
        intros i Hin ->%list_elem_of_singleton. destruct (Hw _ Hin). lia.
      - intros i Hin%Hi. lia. }
    destruct (Nat.ltb_spec (_activeReqs s) _MAX_CONCURRENT) as [Hlt|Hge].
    + by apply processQueue_awake.
    + intros _. left. destruct Hinv as [Ha _ _ _ _]. simpl.
      unfold _MAX_CONCURRENT in Hge.
      destruct (running s); [simpl in Ha; lia|done].
  - exact Haw.
  - unfold settle. case_bool_decide; [|done]. intros _. right. simpl. lia.
  - unfold timerFires. destruct (timers s) as [|n] eqn:Ht; [done|].
    apply processQueue_awake. by destruct Hinv.
Qed.

Lemma queue_step_accounted s e : accounted s -> accounted (queue_step s e).
Proof.
  intros Hacc. destruct e as [|item|item|]; simpl.
  - unfold _enqueue. simpl.
    set (s1 := {| _activeReqs := _activeReqs s; _queue := _queue s ++ [next_item s];
                  cancelled := cancelled s; next_item := S (next_item s);
                  running := running s; invoked := invoked s; timers := timers s |}).
    assert (Hs1 : accounted s1).
    { intros i Hi. simpl in *. destruct (decide (i = next_item s)) as [->|Hne].
      - left. set_solver.
      - destruct (Hacc i) as [?|[?|?]]; [lia| | |]; set_solver. }
    destruct (_ <? _); [|done].
    intros i Hi. unfold _processQueue in *. rewrite processLoop_next_item in Hi.
    by apply processLoop_accounted, Hs1.
  - intros i Hi. simpl in *. destruct (Hacc i Hi) as [?|[?|?]]; set_solver.
  - unfold settle. case_bool_decide; [|done]. exact Hacc.
  - unfold timerFires. destruct (timers s) as [|n] eqn:Ht; [done|].
    intros i Hi. unfold _processQueue in *. rewrite processLoop_next_item in Hi.
    apply processLoop_accounted. simpl in *. by apply Hacc.
Qed.

(** X16. Whatever is enqueued, cancelled, settled or fired, in whatever
    order: no request is stranded and none is lost.  While requests wait, a
    decode is pending or a [_processQueue] is scheduled, so the queue will
    be looked at again; and every request created so far still waits, has
    been invoked, or was cancelled, never both waiting and invoked. *)
Theorem queue_never_strands_a_request :
  forall (es : list QueueEvent),
    let s := queue_run es in
    (_queue s <> [] -> running s <> [] \/ 0 < timers s)
    /\ (forall i, i < next_item s ->
          i ∈ _queue s \/ i ∈ invoked s \/ i ∈ cancelled s)
    /\ (forall i, i ∈ _queue s -> i ∉ invoked s).
Proof.
  intros es s.
  assert (H : awake s /\ accounted s).
  { subst s. unfold queue_run.
    assert (H0 : queue_inv queue_init /\ awake queue_init /\ accounted queue_init).
    { split; [exact (queue_run_inv [])|]. split; [intros Hq; by destruct Hq|].
      intros i Hi. simpl in Hi. lia. }
    revert H0. generalize queue_init.
    induction es as [|e es IH]; intros s0 (Hinv & Haw & Hacc); simpl; [done|].
    apply IH. split; [by apply queue_step_inv|].
    split; [by apply queue_step_awake | by apply queue_step_accounted]. }
  destruct H as [Haw Hacc]. split; [exact Haw|]. split; [exact Hacc|].
  intros i Hi. by apply (inv_waiting _ (queue_run_inv es)).
Qed.

(** ** The folder tree *)

Lemma FolderNode_ind (P : FolderNode.t -> Prop) :
  (forall node, Forall P (FolderNode.children node) -> P node) ->
  forall node, P node.
Proof.
  intros Hstep. fix IH 1. intros [nm p a ta cs]. apply Hstep. simpl.
  induction cs as [|c cs IHcs]; constructor; [apply IH | exact IHcs].
Qed.

Lemma find_app {A} (f : A -> bool) l1 l2 :
  List.find f (l1 ++ l2)
  = match List.find f l1 with Some x => Some x | None => List.find f l2 end.
Proof. induction l1 as [|x l1 IH]; simpl; [done|]. by destruct (f x). Qed.

Lemma findNode_first (tree : FolderNode.t) (targetPath : string) :
  findNode tree targetPath
  = List.find (fun n => String.eqb (FolderNode.path n) targetPath) (nodes tree).
Proof.
  induction tree as [[nm p a ta cs] IH] using FolderNode_ind. simpl in *.
  destruct (String.eqb p targetPath); [done|].
  induction cs as [|c cs IHcs]; simpl; [done|].
  apply Forall_cons in IH as [Hc Hcs].
  rewrite find_app, <- Hc. destruct (findNode c targetPath); [done|].
  by apply IHcs.
Qed.

Lemma fold_total_files (tree : FolderNode.t) (paths : list string) (acc : Z) :
  fold_left
    (fun totalFiles path =>
       match findNode tree path with
       | Some node => (totalFiles + FolderNode.total_audio_count node)%Z
       | None => totalFiles
       end) paths acc
  = (acc + foldr Z.add 0 (map (filesAt tree) paths))%Z.
Proof.
  revert acc. induction paths as [|p paths IH]; intros acc; simpl; [lia|].
  rewrite IH. unfold filesAt at 2. rewrite <- findNode_first.
  destruct (findNode tree p); lia.
Qed.

Lemma sum_files_perm (tree : FolderNode.t) (l1 l2 : list string) :
  l1 ≡ₚ l2 ->
  foldr Z.add 0%Z (map (filesAt tree) l1) = foldr Z.add 0%Z (map (filesAt tree) l2).
Proof. induction 1; simpl; lia. Qed.

(** X17. [findNode] returns the first node with the path asked for, going
    through the tree parents first and siblings in order, and nothing when
    no node has it.  The summary line therefore counts every selected path
    once: selecting one more path adds the file count of that node, or
    nothing if the tree has no such node, and one to the pack count. *)
Theorem summary_counts_each_selected_path_once :
  forall (tree : FolderNode.t),
    (forall targetPath,
       findNode tree targetPath
       = List.find (fun n => String.eqb (FolderNode.path n) targetPath)
           (nodes tree))
    /\ summary tree ∅ = {| packCount := 0; totalFiles := 0 |}
    /\ (forall selected p,
          p ∉ selected ->
          summary tree ({[p]} ∪ selected)
          = {| packCount := S (packCount (summary tree selected));
               totalFiles := (totalFiles (summary tree selected)
                              + filesAt tree p)%Z |}).
Proof.
  intros tree. split; [apply findNode_first|]. split; [done|].
  intros selected p Hp. unfold summary. simpl. f_equal.
  - by rewrite size_union, size_singleton by set_solver.
  - rewrite !fold_total_files.
    rewrite (sum_files_perm tree _ (p :: elements selected))
      by (by apply elements_union_singleton).
    simpl. lia.
Qed.

(** X17, witness: a root with two packs, one of them selected. *)
Lemma summary_counts_each_selected_path_once_witness :
  let drums := FolderNode.mk "Drums" "/in/Drums" 12 12 [] in
  let keys_ := FolderNode.mk "Keys" "/in/Keys" 3 3 [] in
  let tree := FolderNode.mk "in" "/in" 0 15 [drums; keys_] in
  summary tree ({[ "/in/Keys" ]} ∪ {[ "/in/Drums" ]})
  = {| packCount := 2; totalFiles := 15 |}.
Proof.
  intros drums keys_ tree.
  rewrite (proj2 (proj2 (summary_counts_each_selected_path_once tree))
             {[ "/in/Drums" ]} "/in/Keys").
  - vm_compute. reflexivity.
  - apply (bool_decide_unpack _). vm_compute. exact I.
Defined.

Lemma allFirstLevel_nonempty (tree : FolderNode.t) : allFirstLevel tree <> [].
Proof.
  unfold allFirstLevel. destruct (FolderNode.children tree); simpl; done.
Qed.

(** X18. The "select all" button flips: pressed when every first-level
    folder is selected it clears the selection, otherwise it replaces the
    selection by the first-level folders, dropping whatever deeper folders
    were selected; after the press "all selected" holds exactly when it did
    not before. *)
Theorem select_all_button_flips :
  forall (tree : FolderNode.t) (selected : gset string),
    isAllSelected tree (toggleAll tree selected)
    = negb (isAllSelected tree selected)
    /\ (forall p, p ∈ toggleAll tree selected ->
          p ∈ allFirstLevel tree /\ isAllSelected tree selected = false).
Proof.
  intros tree selected. unfold toggleAll.
  destruct (isAllSelected tree selected) eqn:Hall; simpl.
  - split; [|set_solver].
    unfold isAllSelected. pose proof (allFirstLevel_nonempty tree) as Hne.
    destruct (allFirstLevel tree) as [|p l]; [done|]. simpl.
    by rewrite bool_decide_eq_false_2 by set_solver.
  - split; [|set_solver].
    unfold isAllSelected. apply forallb_forall. intros p Hp.
    apply bool_decide_eq_true_2, elem_of_list_to_set. by apply list_elem_of_In.
Qed.

(** X19. Through the checkbox of a row nothing above the row is ever
    deselected: whatever was selected and is neither the row itself nor
    below it stays selected.  The checkbox is disabled exactly where the
    ancestor loop of [onToggleSelect] would remove something. *)
Theorem checkbox_never_drops_an_ancestor :
  forall (node : FolderNode.t) (selected : gset string) (p : string),
    p ∈ selected ->
    p <> FolderNode.path node ->
    Str.startsWith p (String.append (FolderNode.path node) "/") = false ->
    p ∈ checkboxClick node selected.
Proof.
  intros node selected p Hp Hne Hbelow. unfold checkboxClick, isDisabled.
  destruct (isChildOfAny (FolderNode.path node) selected) eqn:Hchild; simpl.
  - case_bool_decide as Hsel; simpl; [|done].
    rewrite onToggleSelect_present by done. set_solver.
  - destruct (decide (FolderNode.path node ∈ selected)) as [Hsel|Hsel].
    + rewrite onToggleSelect_present by done. set_solver.
    + apply onToggleSelect_absent; [done|]. right. split; [done|]. split; [done|].
      apply not_true_iff_false. intros Hup.
      apply not_true_iff_false in Hchild. apply Hchild, isChildOfAny_spec.
      by exists p.
Qed.

(** X19, witness: with "/in/a" selected, the checkbox of "/in/a/b" is
    disabled and that of "/in/c" adds to the selection. *)
Lemma checkbox_never_drops_an_ancestor_witness :
  "/in/a" ∈ checkboxClick (FolderNode.mk "b" "/in/a/b" 1 1 []) {[ "/in/a" ]}
  /\ checkboxClick (FolderNode.mk "c" "/in/c" 1 1 []) {[ "/in/a" ]}
     = {[ "/in/a"; "/in/c" ]}.
Proof.
  split.
  - apply (checkbox_never_drops_an_ancestor
             (FolderNode.mk "b" "/in/a/b" 1 1 []) {[ "/in/a" ]} "/in/a").
    + set_solver.
    + discriminate.
    + reflexivity.
  - apply (bool_decide_unpack _). vm_compute. exact I.
Defined.

Lemma split_nonempty sep s : Str.split sep s <> [].
Proof.
  destruct s as [|c s]; simpl; [done|].
  destruct (Ascii.eqb c sep); [done|]. by destruct (Str.split sep s).
Qed.

Lemma split_free sep s : hasChar sep s = false -> Str.split sep s = [s].
Proof.
  induction s as [|c s IH]; simpl; [done|].
  intros [Hc Hs]%orb_false_iff. rewrite Hc, IH; done.
Qed.

Lemma split_parts_free sep s :
  Forall (fun part => hasChar sep part = false) (Str.split sep s).
Proof.
  induction s as [|c s IH]; simpl; [by repeat constructor|].
  destruct (Ascii.eqb c sep) eqn:Hc; [by constructor|].
  destruct (Str.split sep s) as [|h t]; [by repeat constructor; simpl; rewrite Hc|].
  apply Forall_cons in IH as [Hh Ht]. constructor; [|done]. simpl. by rewrite Hc.
Qed.

Lemma split_append sep a b :
  Str.split sep (String.append a (String sep b))
  = Str.split sep a ++ Str.split sep b.
Proof.
  induction a as [|c a IH].
  - rewrite append_nil. simpl. by rewrite Ascii.eqb_refl.
  - rewrite append_cons. simpl. rewrite IH.
    destruct (Ascii.eqb c sep); [done|].
    pose proof (split_nonempty sep a). by destruct (Str.split sep a).
Qed.

Lemma last_part {A} (l : list A) x : (l ++ [x]) !! (length (l ++ [x]) - 1) = Some x.
Proof.
  rewrite length_app. simpl.
  replace (length l + 1 - 1) with (length l) by lia.
  by rewrite list_lookup_middle.
Qed.

(** X20. The pack name sent to the conflict check is the last component
    of the selected path: what follows the last "/" when that is not empty,
    and "Unknown" for a path that ends in "/" or is empty.  It is never
    empty and holds no "/". *)
Theorem folder_name_is_last_component :
  (forall path,
     folderNameFromPath path <> ""
     /\ hasChar "/" (folderNameFromPath path) = false)
  /\ (forall dir nm,
        nm <> "" -> hasChar "/" nm = false ->
        folderNameFromPath (String.append dir (String "/" nm)) = nm)
  /\ (forall dir, folderNameFromPath (String.append dir "/") = "Unknown")
  /\ folderNameFromPath "" = "Unknown"
  /\ (forall nm, nm <> "" -> hasChar "/" nm = false -> folderNameFromPath nm = nm).
Proof.
  split; [|split; [|split; [|split; [reflexivity|]]]].
  - intros path. unfold folderNameFromPath.
    pose proof (split_parts_free "/" path) as Hfree.
    destruct (Str.split "/" path !! (length (Str.split "/" path) - 1))
      as [s|] eqn:Hs; [|done].
    unfold Str.or_else, Str.truthy.
    destruct (String.eqb_spec s "") as [->|Hne]; simpl; [done|].
    split; [done|]. by apply (Forall_lookup_1 _ _ _ _ Hfree Hs).
  - intros dir nm Hne Hfree. unfold folderNameFromPath.
    rewrite split_append, (split_free _ nm Hfree), last_part.
    unfold Str.or_else, Str.truthy.
    by destruct (String.eqb_spec nm "").
  - intros dir. unfold folderNameFromPath.
    rewrite split_append. simpl Str.split. by rewrite last_part.
  - intros nm Hne Hfree. unfold folderNameFromPath.
    rewrite (split_free _ nm Hfree). simpl.
    unfold Str.or_else, Str.truthy.
    by destruct (String.eqb_spec nm "").
Qed.

(** X20, witness: a pack folder two levels down. *)
Lemma folder_name_is_last_component_witness :
  folderNameFromPath "/in/Drums" = "Drums".
Proof.
  apply (proj1 (proj2 folder_name_is_last_component) "/in" "Drums").
  - discriminate.
  - reflexivity.
Defined.

(** ** The chips of a row *)

Lemma sampleTags_in_tagList sample tag :
  tag ∈ sampleTags sample ->
  Str.truthy (tags sample) = true
  /\ In tag (tagList (Str.or_empty (tags sample))).
Proof.
  unfold sampleTags. destruct (Str.truthy (tags sample)); [|by intros ?%elem_of_nil].
  intros Hin%(subseteq_take 3). split; [done|].
  apply list_elem_of_In in Hin. by apply filter_In in Hin as [Hin _].
Qed.

(** X21. The chips of a row filter the row in: clicking a tag shown on a
    row, while the tag is in neither tag set, gives an include set the row's
    sample passes; clicking it a second time gives an exclude set that
    removes the sample.  Clicking the genre shown on a row selects a genre
    the sample has, or deselects it. *)
Theorem row_chips_filter_their_own_row :
  forall (sample : Sample),
    (forall tag includeTags excludeTags,
       tag ∈ sampleTags sample ->
       tag ∉ includeTags -> tag ∉ excludeTags ->
       let once := tagSets (cycleTag tag includeTags excludeTags) in
       let twice := tagSets (cycleTag tag once.1 once.2) in
       someTagIn once.1 sample = true
       /\ noTagIn twice.2 sample = false
       /\ someTagIn twice.1 sample = someTagIn includeTags sample)
    /\ (forall g selectedGenres,
          rowGenre sample = Some g ->
          genrePred (list_to_set (toggled g selectedGenres)) sample
          = negb (bool_decide (g ∈ selectedGenres))).
Proof.
  intros sample. split.
  - intros tag inc exc [Htruthy Hin]%sampleTags_in_tagList Hinc Hexc once twice.
    assert (Honce : once = (inc ∪ {[tag]}, exc)).
    { subst once. unfold cycleTag, tagSets.
      rewrite !bool_decide_eq_false_2 by done. simpl.
      by rewrite !list_to_set_elements_L. }
    assert (Htwice : twice = (inc, exc ∪ {[tag]})).
    { subst twice. rewrite Honce. unfold cycleTag, tagSets. simpl.
      rewrite bool_decide_eq_true_2 by set_solver. simpl.
      rewrite !list_to_set_elements_L. f_equal. set_solver. }
    rewrite Honce, Htwice. simpl.
    unfold someTagIn, noTagIn. rewrite Htruthy. simpl.
    assert (Hex : forall sel : gset string, tag ∈ sel ->
              existsb (fun t => bool_decide (t ∈ sel))
                (tagList (Str.or_empty (tags sample))) = true).
    { intros sel Hsel. apply existsb_exists. exists tag.
      split; [done|]. by apply bool_decide_eq_true_2. }
    rewrite !Hex by set_solver. done.
  - intros g sel Hg. unfold genrePred. unfold rowGenre in Hg. rewrite Hg.
    unfold toggled. rewrite list_to_set_elements_L.
    destruct (decide (g ∈ sel)) as [Hin|Hni].
    + rewrite (bool_decide_eq_true_2 (g ∈ sel)) by done. simpl.
      apply bool_decide_eq_false_2. set_solver.
    + rewrite (bool_decide_eq_false_2 (g ∈ sel)) by done. simpl.
      apply bool_decide_eq_true_2. set_solver.
Qed.

(** X21, witness: a row tagged "kick, 808", its second chip clicked. *)
Lemma row_chips_filter_their_own_row_witness :
  let sample := sampleWith (demoSample 0) "trap" 140 in
  let tagged :=
    {| id := id sample; local_path := local_path sample; filename := filename sample;
       audio_key := None; bpm := bpm sample; chord_type := None;
       duration := None; genre := genre sample; sample_type := None;
       tags := Some "kick, 808"; pack_uuid := None; pack_name := None;
       pack_genre := None; created_at := None |} in
  sampleTags tagged = ["kick"; "808"]
  /\ someTagIn (tagSets (cycleTag "808" ∅ ∅)).1 tagged = true
  /\ genrePred (list_to_set (toggled "trap" ∅)) tagged = true.
Proof.
  intros sample tagged. split; [reflexivity|].
  destruct (row_chips_filter_their_own_row tagged) as [Htag Hgenre]. split.
  - assert (Hshown : "808" ∈ sampleTags tagged).
    { apply (bool_decide_unpack _). vm_compute. exact I. }
    pose proof (Htag "808" ∅ ∅ Hshown ltac:(set_solver) ltac:(set_solver))
      as [Hsome _].
    exact Hsome.
  - rewrite (Hgenre "trap" ∅ eq_refl). reflexivity.
Defined.

(** ** The conflict dialog *)

Lemma setAll_lookup action conflicts nm :
  setAll action conflicts !! nm
  = if bool_decide (nm ∈ map name conflicts /\ nm <> "__proto__")
    then Some action else None.
Proof.
  unfold setAll.
  assert (Hgen : forall m : gmap string ConflictAction,
            m !! "__proto__" = None ->
            fold_left (fun next c => assign (name c) action next) conflicts m !! nm
            = if bool_decide (nm ∈ map name conflicts /\ nm <> "__proto__")
              then Some action else m !! nm).
  { induction conflicts as [|c conflicts IH]; intros m Hm; cbn [fold_left map].
    - rewrite bool_decide_eq_false_2; [done|]. by intros [H%elem_of_nil _].
    - rewrite IH by (by apply assign_proto).
      destruct (decide (nm ∈ map name conflicts /\ nm <> "__proto__")) as [[Hin Hp]|Hni].
      + rewrite !bool_decide_eq_true_2; [done| |done].
        split; [by apply elem_of_cons; right | done].
      + rewrite (bool_decide_eq_false_2 _ Hni), (assign_lookup _ _ _ _ Hm).
        apply (f_equal (fun b : bool => if b then Some action else m !! nm)).
        apply bool_decide_ext. rewrite elem_of_cons. split.
        * intros [-> Hp]. split; [by left | done].
        * intros [[->|Hin] Hp]; [done | tauto]. }
  rewrite Hgen by done. by case_bool_decide.
Qed.

(** X22. The conflict dialog opens with every conflict set to "replace",
    the same as after "replace all": confirming it as it opens hands over a
    replace map holding every conflicting name other than "__proto__", a
    name the plain objects of the dialog do not store.  After "add all as
    new" the replace map is empty, as for an import without conflicts.
    "Replace all" and "add all as new" decide for the conflicting names
    other than "__proto__" and for no other name. *)
Theorem conflict_dialog_defaults_to_replace :
  forall (conflicts : list PackConflict),
    initDecisions conflicts = setAll Replace conflicts
    /\ (forall action nm,
          setAll action conflicts !! nm
          = if bool_decide (nm ∈ map name conflicts /\ nm <> "__proto__")
            then Some action else None)
    /\ (forall selected nm,
          is_Some ((handleConflictConfirm selected conflicts
                      (initDecisions conflicts)).2 !! nm)
          <-> nm ∈ map name conflicts /\ nm <> "__proto__")
    /\ (forall selected,
          (handleConflictConfirm selected conflicts (setAll New conflicts)).2 = ∅).
Proof.
  intros conflicts. split; [done|]. split; [intros; apply setAll_lookup|].
  assert (Hnames : forall nm,
            (exists c, c ∈ conflicts /\ name c = nm) <-> nm ∈ map name conflicts).
  { intros nm. rewrite list_elem_of_fmap. naive_solver. }
  split.
  - intros selected nm.
    change (handleConflictConfirm selected conflicts (initDecisions conflicts)).2
      with (replaceMapOf conflicts (initDecisions conflicts)).
    rewrite replaceMapOf_dom, Hnames.
    change (initDecisions conflicts) with (setAll Replace conflicts).
    rewrite setAll_lookup. case_bool_decide; naive_solver.
  - intros selected.
    change (handleConflictConfirm selected conflicts (setAll New conflicts)).2
      with (replaceMapOf conflicts (setAll New conflicts)).
    apply map_eq. intros nm. rewrite lookup_empty. apply eq_None_not_Some.
    rewrite replaceMapOf_dom, setAll_lookup. case_bool_decide; naive_solver.
Qed.

(** ** The colour of a tag *)




